(** * helpscout-cli: the error normalizer, the auth session, the request
      executor, the conversation summarizer and the pagination walker

    A shallow embedding of [src/lib/errors.ts], of the [HelpScoutClient]
    class of [src/lib/api-client.ts] and of [extractThreadInfo] of
    [src/commands/conversations.ts], with the properties the specification
    states about them. *)

From Stdlib Require Import String Ascii DecimalString.
From Stdlib Require Import List Bool Arith ZArith NArith Lia.
Import ListNotations.

Set Implicit Arguments.
Local Open Scope N_scope.

(** ** JavaScript strings

    A JavaScript string is a sequence of UTF-16 code units; [length],
    [substring], [slice] and the regular expressions of the source (none has
    the [u] flag) all work on code units. *)

Definition jsstring := list N.

(** [js "..."] is the string of an ASCII literal of the source. *)
Definition js (s : string) : jsstring := map N_of_ascii (list_ascii_of_string s).

Fixpoint str_eqb (a b : jsstring) : bool :=
  match a, b with
  | [], [] => true
  | x :: a', y :: b' => (x =? y) && str_eqb a' b'
  | _, _ => false
  end.

(** Truthiness of [string | null | undefined]: only a non-empty string is
    truthy. *)
Definition truthy (o : option jsstring) : bool :=
  match o with
  | Some (_ :: _) => true
  | _ => false
  end.

(** [a || b] on optional strings. *)
Definition or_else (a b : option jsstring) : option jsstring :=
  if truthy a then a else b.

(** ** Regular expressions of [sanitizeErrorMessage]

    The four patterns are sequences of single-character atoms, each with a
    greedy quantifier.  The matcher below is the backtracking matcher of
    ECMAScript restricted to that fragment. *)

Module Regex.

(** Character sets.  All patterns carry the [i] flag. *)
Inductive cset :=
| Chr (c : N)          (* a literal character *)
| OneOf (l : list N)   (* [=:] and [_-] *)
| Space                (* \s *)
| TokenChar.           (* [\w\-._~+/] *)

Inductive quant := One | Opt | Star | Plus.

Definition regex := list (cset * quant).

Definition is_upper (c : N) : bool := (65 <=? c) && (c <=? 90).
Definition is_lower (c : N) : bool := (97 <=? c) && (c <=? 122).
Definition is_digit (c : N) : bool := (48 <=? c) && (c <=? 57).

(** Canonicalize of the [i] flag without the [u] flag: a code unit is
    compared through its upper case, and a code unit above 127 is never
    mapped onto an ASCII one, so only the ASCII letters matter when the
    pattern side is ASCII. *)
Definition canonicalize (c : N) : N := if is_lower c then c - 32 else c.

(** \w *)
Definition is_word (c : N) : bool :=
  is_upper c || is_lower c || is_digit c || (c =? 95).

(** \s: WhiteSpace and LineTerminator code units. *)
Definition is_space (c : N) : bool :=
  ((9 <=? c) && (c <=? 13)) || (c =? 32) || (c =? 160) || (c =? 5760)
  || ((8192 <=? c) && (c <=? 8202)) || (c =? 8232) || (c =? 8233)
  || (c =? 8239) || (c =? 8287) || (c =? 12288) || (c =? 65279).

(** [\w\-._~+/] *)
Definition is_token_char (c : N) : bool :=
  is_word c || (c =? 45) || (c =? 46) || (c =? 95) || (c =? 126)
  || (c =? 43) || (c =? 47).

Definition accepts (a : cset) (c : N) : bool :=
  match a with
  | Chr p => canonicalize c =? canonicalize p
  | OneOf l => existsb (fun p => canonicalize c =? canonicalize p) l
  | Space => is_space c
  | TokenChar => is_token_char c
  end.

(** A greedy starred atom followed by the continuation [k]: take one more
    character first, and give it back only when everything after fails. *)
Fixpoint star (a : cset) (k : jsstring -> option nat) (s : jsstring)
  : option nat :=
  match s with
  | c :: s' =>
    if accepts a c
    then match star a k s' with
         | Some n => Some (S n)
         | None => k s
         end
    else k s
  | [] => k s
  end.

(** [exec r s] matches [r] at the start of [s] and returns the number of
    code units of the match, or [None] when there is no match there. *)
Fixpoint exec (r : regex) : jsstring -> option nat :=
  match r with
  | [] => fun _ => Some O
  | (a, q) :: r' =>
    let k := exec r' in
    match q with
    | One => fun s =>
      match s with
      | c :: s' => if accepts a c then option_map S (k s') else None
      | [] => None
      end
    | Opt => fun s =>
      match s with
      | c :: s' =>
        if accepts a c
        then match k s' with
             | Some n => Some (S n)
             | None => k s
             end
        else k s
      | [] => k s
      end
    | Star => star a k
    | Plus => fun s =>
      match s with
      | c :: s' => if accepts a c then option_map S (star a k s') else None
      | [] => None
      end
    end
  end.

(** [String.prototype.replace] with a global pattern and a constant
    replacement: scan from the left; where the pattern matches, emit the
    replacement and resume after the match (after one more character when
    the match is empty); elsewhere copy the character.  [skip] counts the
    characters of the current match still to be dropped. *)
Fixpoint replace_from (r : regex) (by_ : jsstring) (s : jsstring) (skip : nat)
  : jsstring :=
  match s with
  | [] =>
    match skip, exec r [] with
    | O, Some _ => by_
    | _, _ => []
    end
  | c :: s' =>
    match skip with
    | S k => replace_from r by_ s' k
    | O =>
      match exec r s with
      | Some (S n) => by_ ++ replace_from r by_ s' n
      | Some O => by_ ++ c :: replace_from r by_ s' O
      | None => c :: replace_from r by_ s' O
      end
    end
  end.

Definition replace (r : regex) (by_ : jsstring) (s : jsstring) : jsstring :=
  replace_from r by_ s O.

(** A literal word, one atom per character. *)
Definition lit (w : string) : regex := map (fun c => (Chr c, One)) (js w).

End Regex.

Import Regex.

(** ** [sanitizeErrorMessage] (src/lib/errors.ts) *)

(** /Bearer\s+[\w\-._~+/]+=*/gi *)
Definition bearer_pattern : regex :=
  lit "Bearer" ++ [(Space, Plus); (TokenChar, Plus); (Chr 61, Star)].

(** /token[=:]\s*[\w\-._~+/]+=*/gi *)
Definition token_pattern : regex :=
  lit "token" ++
  [(OneOf [61; 58], One); (Space, Star); (TokenChar, Plus); (Chr 61, Star)].

(** /client[_-]?secret[=:]\s*[\w\-._~+/]+=*/gi *)
Definition client_secret_pattern : regex :=
  lit "client" ++ [(OneOf [95; 45], Opt)] ++ lit "secret" ++
  [(OneOf [61; 58], One); (Space, Star); (TokenChar, Plus); (Chr 61, Star)].

(** /authorization:\s*bearer\s+[\w\-._~+/]+=*/gi *)
Definition authorization_pattern : regex :=
  lit "authorization:" ++ [(Space, Star)] ++ lit "bearer" ++
  [(Space, Plus); (TokenChar, Plus); (Chr 61, Star)].

Definition sensitivePatterns : list regex :=
  [bearer_pattern; token_pattern; client_secret_pattern; authorization_pattern].

Definition REDACTED : jsstring := js "[REDACTED]".
Definition ELLIPSIS : jsstring := js "...".

(** The loop over [sensitivePatterns]. *)
Definition redact (message : jsstring) : jsstring :=
  fold_left (fun sanitized pattern => replace pattern REDACTED sanitized)
            sensitivePatterns message.

Definition sanitizeErrorMessage (message : jsstring) : jsstring :=
  let sanitized := redact message in
  if (500 <? length sanitized)%nat
  then firstn 500 sanitized ++ ELLIPSIS
  else sanitized.


(** ** JavaScript values carried by JSON bodies *)

Fixpoint lookup {V : Type} (k : jsstring) (l : list (jsstring * V)) : option V :=
  match l with
  | [] => None
  | (k', v) :: l' => if str_eqb k k' then Some v else lookup k l'
  end.

#[local] Set Warnings "-register-all".

Inductive value :=
| VUndefined
| VNull
| VBool (b : bool)
| VNum (n : Z)
| VStr (s : jsstring)
| VArr (l : list value)
| VObj (fields : list (jsstring * value)).

(** Truthiness of a value. *)
Definition truthy_value (v : value) : bool :=
  match v with
  | VUndefined | VNull => false
  | VBool b => b
  | VNum n => negb (n =? 0)%Z
  | VStr s => match s with [] => false | _ => true end
  | VArr _ | VObj _ => true
  end.

Definition nullish (v : value) : bool :=
  match v with
  | VUndefined | VNull => true
  | _ => false
  end.

(** [v.k] on a value that is not nullish: an own property of an object,
    [undefined] otherwise. *)
Definition get (k : string) (v : value) : value :=
  match v with
  | VObj fields => match lookup (js k) fields with Some x => x | None => VUndefined end
  | _ => VUndefined
  end.

(** [String(n)] for an integer. *)
Definition String_of_Z (n : Z) : jsstring := js (NilEmpty.string_of_int (Z.to_int n)).
Definition String_of_nat (n : nat) : jsstring := js (NilEmpty.string_of_uint (Nat.to_uint n)).

(** [o[k] = v] on the list of own properties: an existing key keeps its
    place. *)
Fixpoint set_field (k : jsstring) (v : value) (fields : list (jsstring * value))
  : list (jsstring * value) :=
  match fields with
  | [] => [(k, v)]
  | (k', v') :: rest =>
    if str_eqb k k' then (k, v) :: rest else (k', v') :: set_field k v rest
  end.

Fixpoint indexed (i : nat) (l : list value) : list (jsstring * value) :=
  match l with
  | [] => []
  | x :: l' => (String_of_nat i, x) :: indexed (S i) l'
  end.

(** The own enumerable properties [{ ...v }] copies. *)
Definition spread (v : value) : list (jsstring * value) :=
  match v with
  | VObj fields => fields
  | VArr l => indexed O l
  | VStr s => indexed O (map (fun c => VStr [c]) s)
  | _ => []
  end.

(** [{ ...error, statusCode: response.status }] *)
Definition with_statusCode (error : value) (status : Z) : value :=
  VObj (set_field (js "statusCode") (VNum status) (spread error)).

(** [Array.prototype.join] on strings. *)
Fixpoint join (sep : jsstring) (l : list jsstring) : jsstring :=
  match l with
  | [] => []
  | [x] => x
  | x :: l' => x ++ sep ++ join sep l'
  end.

(** How a function ends: it returns, or it throws a TypeError with the
    message given. *)
Inductive Result (A : Type) :=
| Returns (a : A)
| Throws (message : jsstring).

Arguments Returns {A} a.
Arguments Throws {A} message.

(** [Array.prototype.map] with a callback that may throw. *)
Fixpoint map_result {A B} (f : A -> Result B) (l : list A) : Result (list B) :=
  match l with
  | [] => Returns []
  | x :: l' =>
    match f x with
    | Throws m => Throws m
    | Returns y =>
      match map_result f l' with
      | Throws m => Throws m
      | Returns ys => Returns (y :: ys)
      end
    end
  end.

Definition cannot_convert_object : jsstring :=
  js "Cannot convert object to primitive value".

(** [String(v)], which is also how a value becomes a property key.  An
    array is joined with ",", [null] and [undefined] giving the empty string
    there.  An object of JSON gives "[object Object]" through
    [Object.prototype.toString], unless a [toString] of its own, which is
    never a function, hides that one: then nothing converts it. *)
Fixpoint ToString (v : value) : Result jsstring :=
  match v with
  | VUndefined => Returns (js "undefined")
  | VNull => Returns (js "null")
  | VBool b => Returns (if b then js "true" else js "false")
  | VNum n => Returns (String_of_Z n)
  | VStr s => Returns s
  | VArr l =>
    match map_result (fun x => match x with
                               | VUndefined | VNull => Returns []
                               | _ => ToString x
                               end) l with
    | Throws m => Throws m
    | Returns parts => Returns (join (js ",") parts)
    end
  | VObj fields =>
    match lookup (js "toString") fields with
    | None => Returns (js "[object Object]")
    | Some _ => Throws cannot_convert_object
    end
  end.

(** A string or a number where a value is expected. *)
Coercion VStr : jsstring >-> value.
Coercion VNum : Z >-> value.

(** ** [Object.prototype] *)

(** The names an object created by [{}] inherits from [Object.prototype]:
    all but [__proto__] are functions, [__proto__] is an accessor. *)
Definition Object_prototype : list jsstring :=
  [ js "constructor"; js "__defineGetter__"; js "__defineSetter__";
    js "hasOwnProperty"; js "__lookupGetter__"; js "__lookupSetter__";
    js "isPrototypeOf"; js "propertyIsEnumerable"; js "toString";
    js "valueOf"; js "__proto__"; js "toLocaleString" ].

Definition inherited (k : jsstring) : bool := existsb (str_eqb k) Object_prototype.

(** ** Error normalizer (src/lib/errors.ts) *)

(** [class HelpScoutCliError extends Error]: a message and an optional
    status code. *)
Record HelpScoutCliError := {
  cli_message : jsstring;
  cli_statusCode : option Z
}.

(** The values [sanitizeApiError] and [handleHelpScoutError] receive as
    [unknown]: an instance of [HelpScoutCliError], another [Error] (one of
    the runtime, or [new Error(message)]), or any value as JSON gives it. *)
Inductive unknown :=
| CliError (e : HelpScoutCliError)
| OtherError (message : jsstring)
| Plain (v : value).

(** [typeof value === 'object' && value !== null]: arrays are objects. *)
Definition isErrorObject (error : unknown) : bool :=
  match error with
  | CliError _ | OtherError _ => true
  | Plain (VArr _) | Plain (VObj _) => true
  | Plain _ => false
  end.

(** The object whose fields the module reads: of the fields it reads, an
    [Error] has [message], a [HelpScoutCliError] has [statusCode] besides
    when it was given one. *)
Definition read_as (error : unknown) : value :=
  match error with
  | Plain v => v
  | OtherError m => VObj [(js "message", VStr m)]
  | CliError e =>
    VObj ((js "message", VStr (cli_message e))
          :: match cli_statusCode e with
             | Some n => [(js "statusCode", VNum n)]
             | None => []
             end)
  end.

(** The messages of the TypeErrors of the runtime (V8) that the module can
    raise. *)
Definition replace_is_not_a_function : jsstring :=
  js "sanitized.replace is not a function".
Definition map_is_not_a_function : jsstring :=
  js "apiError._embedded.errors.map is not a function".
Definition cannot_read_message : jsstring :=
  js "Cannot read properties of null (reading 'message')".

(** [sanitizeErrorMessage(detail)] on a value that need not be a string:
    only a string has [replace]. *)
Definition sanitize (detail : value) : Result jsstring :=
  match detail with
  | VStr s => Returns (sanitizeErrorMessage s)
  | _ => Throws replace_is_not_a_function
  end.

(** [interface HelpScoutError]; [name] is whatever [apiError.error] holds
    when that is truthy. *)
Record HelpScoutError := {
  name : value;
  detail : jsstring
}.

Definition ERROR_STATUS_CODES : list (jsstring * Z) :=
  [ (js "bad_request", 400%Z); (js "unauthorized", 401%Z);
    (js "forbidden", 403%Z); (js "not_found", 404%Z);
    (js "conflict", 409%Z); (js "too_many_requests", 429%Z);
    (js "internal_server_error", 500%Z); (js "service_unavailable", 503%Z) ].

(** [v.length] on a value that is not nullish. *)
Definition length_of (v : value) : value :=
  match v with
  | VArr l => VNum (Z.of_nat (length l))
  | VStr s => VNum (Z.of_nat (length s))
  | VObj _ => get "length" v
  | _ => VUndefined
  end.

(** [e => e.message || e.path] *)
Definition message_or_path (e : value) : Result value :=
  if nullish e then Throws cannot_read_message
  else Returns (if truthy_value (get "message" e) then get "message" e
                else get "path" e).

(** [errors.map(e => e.message || e.path).filter(Boolean).join('; ')]:
    only an array has [map]; [join] turns what is left into strings. *)
Definition embedded_details (errors : value) : Result jsstring :=
  match errors with
  | VArr l =>
    match map_result message_or_path l with
    | Throws m => Throws m
    | Returns details =>
      match map_result ToString (filter truthy_value details) with
      | Throws m => Throws m
      | Returns parts => Returns (join (js "; ") parts)
      end
    end
  | _ => Throws map_is_not_a_function
  end.

Definition sanitizeApiError (error : unknown) : Result HelpScoutError :=
  if negb (isErrorObject error) then
    Returns {| name := VStr (js "api_error"); detail := js "An error occurred" |}
  else
    let apiError := read_as error in
    let detail :=
      if truthy_value (get "error_description" apiError) then
        Returns (get "error_description" apiError)
      else if truthy_value (get "message" apiError) then
        Returns (get "message" apiError)
      else
        (* apiError._embedded?.errors?.length *)
        let embedded := get "_embedded" apiError in
        let errors := if nullish embedded then VUndefined else get "errors" embedded in
        let length := if nullish errors then VUndefined else length_of errors in
        if truthy_value length then
          match embedded_details errors with
          | Throws m => Throws m
          | Returns joined => Returns (VStr joined)
          end
        else Returns (VStr (js "An error occurred")) in
    match detail with
    | Throws m => Throws m
    | Returns detail =>
      let name := if truthy_value (get "error" apiError)
                  then get "error" apiError
                  else VStr (js "api_error") in
      match sanitize detail with
      | Throws m => Throws m
      | Returns sanitized => Returns {| name := name; detail := sanitized |}
      end
    end.

Definition enhanceRateLimitMessage (detail : jsstring) : jsstring :=
  detail ++ [10; 10] ++
  js "Help Scout API limit: 200 requests/minute. Wait a moment and retry.".

(** What is printed as [statusCode]: a value, or the member of
    [Object.prototype] that [ERROR_STATUS_CODES[name]] reads for a name the
    table does not have (a function, or [Object.prototype] itself for
    [__proto__]). *)
Inductive StatusCode :=
| Status (v : value)
| Member (k : jsstring).

Coercion Status : value >-> StatusCode.
Bind Scope Z_scope with StatusCode.

(** What the process prints before [process.exit(1)]. *)
Record CanonicalError := {
  err_name : value;
  err_detail : jsstring;
  err_statusCode : StatusCode
}.

(** [formatErrorResponse] never returns: the value is the JSON it prints. *)
Definition formatErrorResponse (name : value) (detail : jsstring)
    (statusCode : StatusCode) : CanonicalError :=
  let enhancedDetail :=
    match name with
    | VStr n =>
      if str_eqb n (js "too_many_requests")
      then enhanceRateLimitMessage detail
      else detail
    | _ => detail
    end in
  {| err_name := name; err_detail := enhancedDetail; err_statusCode := statusCode |}.

(** [a || b] on an optional number: [undefined] and [0] are falsy. *)
Definition num_or (a : option Z) (b : Z) : Z :=
  match a with
  | Some n => if (n =? 0)%Z then b else n
  | None => b
  end.

(** [ERROR_STATUS_CODES[name]]: the name is turned into a property key, and
    a key the table does not have is looked up in [Object.prototype];
    [None] is [undefined]. *)
Definition ERROR_STATUS_CODES_at (name : value) : Result (option StatusCode) :=
  match ToString name with
  | Throws m => Throws m
  | Returns key =>
    Returns match lookup key ERROR_STATUS_CODES with
            | Some code => Some (Status (VNum code))
            | None => if inherited key then Some (Member key) else None
            end
  end.

(** How [handleHelpScoutError] ends: it prints and exits, or it throws the
    TypeError that [sanitizeErrorMessage], [sanitizeApiError] or the lookup
    in [ERROR_STATUS_CODES] raised. *)
Inductive Handled :=
| Printed (e : CanonicalError)
| Rejects (message : jsstring).

Coercion Printed : CanonicalError >-> Handled.

(** Each [formatErrorResponse] call ends the process, so the first branch
    taken decides. *)
Definition handleHelpScoutError (error : unknown) : Handled :=
  if negb (isErrorObject error) then
    Printed (formatErrorResponse (VStr (js "unknown_error"))
                                 (js "An unexpected error occurred")
                                 (Status (VNum 1)))
  else
    match error with
    | CliError e =>
      let sanitized := sanitizeErrorMessage (cli_message e) in
      Printed (formatErrorResponse (VStr (js "cli_error")) sanitized
                                   (Status (VNum (num_or (cli_statusCode e) 1))))
    | _ =>
      let errorObj := read_as error in
      if truthy_value (get "error" errorObj) then
        match sanitizeApiError error with
        | Throws m => Rejects m
        | Returns hsError =>
          if truthy_value (get "statusCode" errorObj) then
            Printed (formatErrorResponse (name hsError) (detail hsError)
                                         (Status (get "statusCode" errorObj)))
          else
            match ERROR_STATUS_CODES_at (name hsError) with
            | Throws m => Rejects m
            | Returns (Some code) =>
              Printed (formatErrorResponse (name hsError) (detail hsError) code)
            | Returns None =>
              Printed (formatErrorResponse (name hsError) (detail hsError)
                                           (Status (VNum 500)))
            end
        end
      else
        match sanitize (if truthy_value (get "message" errorObj)
                        then get "message" errorObj
                        else VStr (js "An unexpected error occurred")) with
        | Throws m => Rejects m
        | Returns sanitized =>
          Printed
            (formatErrorResponse (VStr (js "unknown_error")) sanitized
               (if truthy_value (get "statusCode" errorObj)
                then Status (get "statusCode" errorObj)
                else Status (VNum 1)))
        end
    end.

(** ** Credential store *)

(** Modelled from the spec: the [auth] module ([src/lib/auth.ts]) is not
    part of the sources at hand; the spec describes it as the Credential
    Store that "persists app id/secret, access token, refresh token" and
    "exposes get/set/clear per field". *)
Record Store := {
  appId : option jsstring;
  appSecret : option jsstring;
  storedAccessToken : option jsstring;
  storedRefreshToken : option jsstring
}.

(** Modelled from the spec: [auth.setAccessToken] and
    [auth.setRefreshToken], the setters of two fields of the store. *)
Definition store_setAccessToken (t : jsstring) (s : Store) : Store :=
  {| appId := appId s; appSecret := appSecret s;
     storedAccessToken := Some t; storedRefreshToken := storedRefreshToken s |}.

Definition store_setRefreshToken (t : jsstring) (s : Store) : Store :=
  {| appId := appId s; appSecret := appSecret s;
     storedAccessToken := storedAccessToken s; storedRefreshToken := Some t |}.

(** ** The network *)

(** The form of a POST to [TOKEN_URL]. *)
Inductive Grant :=
| refresh_token (client_id client_secret token : jsstring)
| client_credentials (client_id client_secret : jsstring).

(** The two kinds of [fetch] the client issues: the token endpoint with a
    form body, and [API_BASE + path] with the query, the bearer token of the
    [Authorization] header and the JSON body, if any. *)
Inductive Call :=
| TokenCall (grant : Grant)
| ApiCall (method url_path : jsstring) (query : list (jsstring * jsstring))
          (bearer : jsstring) (body : option value).

(** What [response.json()] settles to: the parsed body, or a rejection
    with the parser's message. *)
Inductive Parsed :=
| Json (v : value)
| NotJson (message : jsstring).

(** What [fetch] settles to: a rejection, or a response with a status and
    a body. *)
Inductive Reply :=
| NetworkError (message : jsstring)
| Response (status : Z) (body : Parsed).

Definition ok (status : Z) : bool := ((200 <=? status) && (status <=? 299))%Z.

Definition is_api_call (c : Call) : bool :=
  match c with
  | ApiCall _ _ _ _ _ => true
  | TokenCall _ => false
  end.

(** ** State of a session: the client's private [accessToken], the
    credential store, and the calls issued so far. *)
Record World := {
  accessToken : option jsstring;
  store : Store;
  calls : list Call
}.

(** Values the client throws. *)
Inductive Thrown :=
| ThrowCli (e : HelpScoutCliError)     (* throw new HelpScoutCliError(...) *)
| ThrowObject (v : value)              (* throw { ...error, statusCode } *)
| ThrowError (message : jsstring).     (* an Error of the runtime: a rejected
                                          fetch or json(), a TypeError *)

(** How an asynchronous method ends: it resolves, it rejects, or the process
    has exited in [handleHelpScoutError]. *)
Inductive Outcome (A : Type) :=
| Ok (a : A)
| Throw (t : Thrown)
| Exit (e : CanonicalError).

Arguments Ok {A} a.
Arguments Throw {A} t.
Arguments Exit {A} e.

Definition M (A : Type) : Type := World -> Outcome A * World.

Definition ret {A} (a : A) : M A := fun w => (Ok a, w).

Definition bind {A B} (m : M A) (k : A -> M B) : M B :=
  fun w =>
    match m w with
    | (Ok a, w') => k a w'
    | (Throw t, w') => (Throw t, w')
    | (Exit e, w') => (Exit e, w')
    end.

Definition throw {A} (t : Thrown) : M A := fun w => (Throw t, w).

(** [try { m } catch { h }]: what [m] did to the state before it threw
    stays done. *)
Definition try_catch {A} (m : M A) (h : Thrown -> M A) : M A :=
  fun w =>
    match m w with
    | (Throw t, w') => h t w'
    | r => r
    end.

Declare Scope client_scope.
Delimit Scope client_scope with client.
Notation "x <- m ;; k" := (bind m (fun x => k))
  (at level 61, m at next level, right associativity) : client_scope.
Notation "m ;;; k" := (bind m (fun _ => k))
  (at level 61, right associativity) : client_scope.
Local Open Scope client_scope.

Definition gets {A} (f : World -> A) : M A := fun w => (Ok (f w), w).
Definition modify (f : World -> World) : M unit := fun w => (Ok tt, f w).

Definition set_accessToken (t : option jsstring) (w : World) : World :=
  {| accessToken := t; store := store w; calls := calls w |}.

Definition set_store (f : Store -> Store) (w : World) : World :=
  {| accessToken := accessToken w; store := f (store w); calls := calls w |}.

Definition record_call (c : Call) (w : World) : World :=
  {| accessToken := accessToken w; store := store w; calls := calls w ++ [c] |}.

(** A field of an object read at a declared type. *)
Definition str_field (k : string) (v : value) : option jsstring :=
  match get k v with
  | VStr s => Some s
  | _ => None
  end.

Definition num_field (k : string) (v : value) : option Z :=
  match get k v with
  | VNum n => Some n
  | _ => None
  end.

(** A thrown value as the [unknown] that [handleHelpScoutError] receives. *)
Definition unknown_of_thrown (t : Thrown) : unknown :=
  match t with
  | ThrowCli e => CliError e
  | ThrowError m => OtherError m
  | ThrowObject v => Plain v
  end.

(** ** [HelpScoutClient] (src/lib/api-client.ts) *)

(** [interface TokenResponse] (the fields the client reads). *)
Record TokenResponse := {
  access_token : jsstring;
  token_refresh_token : option jsstring
}.

(** The TypeError of the runtime (V8) for [data.access_token] when the body
    of the token response is [null]. *)
Definition cannot_read_access_token : jsstring :=
  js "Cannot read properties of null (reading 'access_token')".

(** [(await response.json()) as TokenResponse] on a body that is not
    [null]: the cast is unchecked, and the two fields are read at their
    declared types, those of the tokens the credential store holds.  A body
    whose [access_token] is not a string, or whose [refresh_token] is
    truthy and not a string, is not covered: the code keeps such a value as
    it is, and what is proved of a grant that succeeds is stated for string
    tokens. *)
Definition as_TokenResponse (v : value) : TokenResponse :=
  {| access_token := match str_field "access_token" v with Some t => t | None => [] end;
     token_refresh_token := str_field "refresh_token" v |}.

(** Values of [params]: [string | number | boolean | undefined]. *)
Inductive ParamValue :=
| PString (s : jsstring)
| PNumber (n : Z)
| PBoolean (b : bool)
| PUndefined.

(** [url.searchParams.set(key, String(value))] for every defined value. *)
Definition query_of (params : list (jsstring * ParamValue))
  : list (jsstring * jsstring) :=
  flat_map (fun kv =>
              match snd kv with
              | PString s => [(fst kv, s)]
              | PNumber n => [(fst kv, String_of_Z n)]
              | PBoolean b => [(fst kv, if b then js "true" else js "false")]
              | PUndefined => []
              end) params.

Section Client.

(** The remote side: the reply to a call, given the calls before it. *)
Variable server : list Call -> Call -> Reply.

(** [await fetch(...)] *)
Definition fetch (c : Call) : M (Z * Parsed) :=
  fun w =>
    match server (calls w) c with
    | NetworkError m => (Throw (ThrowError m), record_call c w)
    | Response status body => (Ok (status, body), record_call c w)
    end.

(** [await response.json()] *)
Definition json (body : Parsed) : M value :=
  match body with
  | Json v => ret v
  | NotJson m => throw (ThrowError m)
  end.

Definition clearToken : M unit := modify (set_accessToken None).

Definition not_configured : HelpScoutCliError :=
  {| cli_message := js "Not configured. Please run: helpscout auth login";
     cli_statusCode := Some 401%Z |}.

(** The [refresh_token] attempt of [refreshAccessToken]: [Some token] when
    it returned from inside the [try], [None] when control falls through to
    the client credentials grant. *)
Definition refresh_attempt (appId appSecret refreshToken : jsstring)
  : M (option jsstring) :=
  try_catch
    (response <- fetch (TokenCall (refresh_token appId appSecret refreshToken)) ;;
     if ok (fst response) then
       v <- json (snd response) ;;
       if nullish v then throw (ThrowError cannot_read_access_token) else
       let data := as_TokenResponse v in
       modify (set_store (store_setAccessToken (access_token data))) ;;;
       (if truthy (token_refresh_token data)
        then match token_refresh_token data with
             | Some t => modify (set_store (store_setRefreshToken t))
             | None => ret tt
             end
        else ret tt) ;;;
       modify (set_accessToken (Some (access_token data))) ;;;
       ret (Some (access_token data))
     else ret None)
    (fun _ => ret None).

Definition client_credentials_grant (appId appSecret : jsstring) : M jsstring :=
  response <- fetch (TokenCall (client_credentials appId appSecret)) ;;
  if negb (ok (fst response)) then
    error <- json (snd response) ;;
    throw (ThrowObject (with_statusCode error (fst response)))
  else
    v <- json (snd response) ;;
    if nullish v then throw (ThrowError cannot_read_access_token) else
    let data := as_TokenResponse v in
    modify (set_store (store_setAccessToken (access_token data))) ;;;
    modify (set_accessToken (Some (access_token data))) ;;;
    ret (access_token data).

Definition refreshAccessToken : M jsstring :=
  appId <- gets (fun w => appId (store w)) ;;
  appSecret <- gets (fun w => appSecret (store w)) ;;
  refreshToken <- gets (fun w => storedRefreshToken (store w)) ;;
  match appId, appSecret with
  | Some (c :: i), Some (d :: s) =>
    let appId := c :: i in
    let appSecret := d :: s in
    refreshed <-
      match refreshToken with
      | Some (e :: t) => refresh_attempt appId appSecret (e :: t)
      | _ => ret None
      end ;;
    match refreshed with
    | Some token => ret token
    | None => client_credentials_grant appId appSecret
    end
  | _, _ => throw (ThrowCli not_configured)
  end.

Definition getAccessToken : M jsstring :=
  cached <- gets accessToken ;;
  match cached with
  | Some (c :: t) => ret (c :: t)
  | _ =>
    storedToken <- gets (fun w => storedAccessToken (store w)) ;;
    match storedToken with
    | Some (c :: t) =>
      modify (set_accessToken (Some (c :: t))) ;;;
      ret (c :: t)
    | _ => refreshAccessToken
    end
  end.

(** The body of [request]; [again] is the recursive call
    [this.request(method, path, { ...options, retry: false })]. *)
Definition request_with (again : M value) (method path : jsstring)
    (params : list (jsstring * ParamValue)) (body : value) (retry : bool)
  : M value :=
  token <- getAccessToken ;;
  response <- fetch (ApiCall method path (query_of params) token
                       (if truthy_value body then Some body else None)) ;;
  if (fst response =? 401)%Z && retry then
    modify (set_accessToken None) ;;;
    _ <- refreshAccessToken ;;
    again
  else if (fst response =? 204)%Z then
    ret (VObj [])
  else if negb (ok (fst response)) then
    error <- try_catch (json (snd response)) (fun _ => ret (VObj [])) ;;
    throw (ThrowObject (with_statusCode error (fst response)))
  else
    json (snd response).

(** [request]: the recursive call passes [retry: false], and a call with
    [retry] false never recurses, so two levels are all there is. *)
Definition request (method path : jsstring)
    (params : list (jsstring * ParamValue)) (body : value) (retry : bool)
  : M value :=
  request_with
    (request_with (ret VUndefined) method path params body false)
    method path params body retry.

(** The method [withErrorHandling] of the class: a failure ends the process
    in [handleHelpScoutError], unless that throws itself, and the method
    then rejects with what it threw. *)
Definition withErrorHandling {A} (fn : M A) : M A :=
  fun w =>
    match fn w with
    | (Throw t, w') =>
      match handleHelpScoutError (unknown_of_thrown t) with
      | Printed e => (Exit e, w')
      | Rejects m => (Throw (ThrowError m), w')
      end
    | r => r
    end.

Definition getConversation (conversationId : Z) (embed : option jsstring)
  : M value :=
  withErrorHandling
    (let params :=
       match embed with
       | Some (c :: e) => [(js "embed", PString (c :: e))]
       | _ => []
       end in
     request (js "GET") (js "/conversations/" ++ String_of_Z conversationId)
             params VUndefined true).

(** The message of the TypeError of the runtime. *)
Variable type_error : jsstring.

(** [conversation?.tags?.map(t => t.name) || []] *)
Definition existing_tags (conversation : value) : M (list value) :=
  if nullish conversation then ret []
  else
    match get "tags" conversation with
    | VUndefined | VNull => ret []
    | VArr tags =>
      if existsb nullish tags then throw (ThrowError type_error)
      else ret (map (get "name") tags)
    | _ => throw (ThrowError type_error)
    end.

(** [t !== tag] *)
Definition differs (tag : jsstring) (t : value) : bool :=
  match t with
  | VStr s => negb (str_eqb s tag)
  | _ => true
  end.

Definition success : value := VObj [(js "success", VBool true)].

Definition removeConversationTag (conversationId : Z) (tag : jsstring)
  : M value :=
  withErrorHandling
    (conversation <- getConversation conversationId None ;;
     existingTags <- existing_tags conversation ;;
     let newTags := filter (differs tag) existingTags in
     request (js "PUT")
             (js "/conversations/" ++ String_of_Z conversationId ++ js "/tags")
             [] (VObj [(js "tags", VArr newTags)]) true ;;;
     ret success).

End Client.

(** ** Conversation summarizer (src/commands/conversations.ts) *)

(** [customer] and [createdBy] of a thread. *)
Record Person := {
  first : option jsstring;
  last : option jsstring;
  email : option jsstring
}.

(** [interface Thread] (the fields read here).  [createdAt] stands for
    [new Date(t.createdAt).getTime()], the only use made of the field. *)
Record Thread := {
  thread_id : Z;
  type : jsstring;
  createdAt : Z;
  thread_body : option jsstring;
  customer : option Person;
  createdBy : option Person
}.

Record ParticipantInfo := {
  p_name : option jsstring;
  p_email : option jsstring;
  messageCount : nat;
  firstMessage : option jsstring
}.

Record ThreadInfo := {
  info_customer : ParticipantInfo;
  info_user : ParticipantInfo
}.

Definition MAX_MESSAGE_LENGTH : nat := 300.

Fixpoint drop_space (s : jsstring) : jsstring :=
  match s with
  | c :: s' => if is_space c then drop_space s' else s
  | [] => []
  end.

(** [String.prototype.trim] *)
Definition trim (s : jsstring) : jsstring :=
  rev (drop_space (rev (drop_space s))).

Definition truncate (text : jsstring) : jsstring :=
  if (length text <=? MAX_MESSAGE_LENGTH)%nat then text
  else trim (firstn MAX_MESSAGE_LENGTH text) ++ js "...".

(** The comparator [(a, b) => time(a) - time(b)] puts [a] first when the
    difference is not positive; [Array.prototype.sort] is stable. *)
Fixpoint insert_thread (t : Thread) (l : list Thread) : list Thread :=
  match l with
  | [] => [t]
  | u :: l' =>
    if (createdAt t - createdAt u <=? 0)%Z then t :: u :: l'
    else u :: insert_thread t l'
  end.

Fixpoint sort_threads (l : list Thread) : list Thread :=
  match l with
  | [] => []
  | t :: l' => insert_thread t (sort_threads l')
  end.

Definition has_type (ty : string) (t : Thread) : bool := str_eqb (type t) (js ty).
Definition has_body (t : Thread) : bool := truthy (thread_body t).

(** [a || b] on optional objects. *)
Definition person_or (a b : option Person) : option Person :=
  match a with
  | Some p => Some p
  | None => b
  end.

Section Summarizer.

(** [htmlToPlainText] and [buildName] come from [src/lib/output.ts], which
    is not among the sources; they are parameters here. *)
Variable htmlToPlainText : jsstring -> jsstring.
Variable buildName : option jsstring -> option jsstring -> option jsstring.

Definition buildPersonName (info : option Person) : option jsstring :=
  match info with
  | None => None
  | Some i => buildName (first i) (last i)
  end.

Definition email_of (info : option Person) : option jsstring :=
  match info with
  | None => None
  | Some i => email i
  end.

(** [t?.body ? truncate(htmlToPlainText(t.body)) : undefined] *)
Definition first_message (t : option Thread) : option jsstring :=
  match t with
  | Some t' =>
    match thread_body t' with
    | Some (c :: b) => Some (truncate (htmlToPlainText (c :: b)))
    | _ => None
    end
  | None => None
  end.

Definition extractThreadInfo (threads : option (list Thread)) : ThreadInfo :=
  match threads with
  | None | Some [] =>
    {| info_customer := {| p_name := None; p_email := None;
                           messageCount := 0; firstMessage := None |};
       info_user := {| p_name := None; p_email := None;
                       messageCount := 0; firstMessage := None |} |}
  | Some threads =>
    let sortedThreads := sort_threads threads in
    let customerThreads := filter (has_type "customer") sortedThreads in
    let userThreads := filter (has_type "message") sortedThreads in
    let firstCustomerWithBody := find has_body customerThreads in
    let firstUserWithBody := find has_body userThreads in
    let mostRecentUserThread := nth_error userThreads (length userThreads - 1) in
    let customerSource :=
      person_or (match firstCustomerWithBody with Some t => customer t | None => None end)
                (match firstCustomerWithBody with Some t => createdBy t | None => None end) in
    let userSource :=
      match mostRecentUserThread with Some t => createdBy t | None => None end in
    {| info_customer :=
         {| p_name := buildPersonName customerSource;
            p_email := email_of customerSource;
            messageCount := length customerThreads;
            firstMessage := first_message firstCustomerWithBody |};
       info_user :=
         {| p_name := buildPersonName userSource;
            p_email := email_of userSource;
            messageCount := length userThreads;
            firstMessage := first_message firstUserWithBody |} |}
  end.

End Summarizer.

(** ** Pagination walker *)

Module Pagination.

(** Modelled from the spec: [PagedResult<T>], "{items: T[], page: {number,
    size, totalElements, totalPages}}"; [totalPages] may be absent. *)
Record PageInfo := {
  number : Z;
  size : Z;
  totalElements : Z;
  totalPages : option Z
}.

Record PagedResult (T : Type) := {
  items : list T;
  page : PageInfo
}.

Arguments items {T} _.
Arguments page {T} _.

(** What a walk has done so far: whether it has stopped, the items it
    gathered and the pages it asked for, in order. *)
Record Walk (T : Type) := {
  finished : bool;
  collected : list T;
  requested : list Z
}.

Arguments finished {T} _.
Arguments collected {T} _.
Arguments requested {T} _.

(** Modelled from the spec: the stopping test of the walker, "the returned
    page's number reaches its totalPages (or totalPages is 0/absent)". *)
Definition last_page {T} (r : PagedResult T) : bool :=
  match totalPages (page r) with
  | None => true
  | Some total => (total =? 0)%Z || (total <=? number (page r))%Z
  end.

(** Modelled from the spec: the walker ([listAllConversations] of
    [src/lib/api-client.ts]) is missing from the sources at hand, which
    only hold its callers.  "Given a listing function (page) ->
    PagedResult<T> and a starting page of 1, repeatedly invoke it with the
    page number incremented by one, concatenating items, until the returned
    page's number reaches its totalPages (or totalPages is 0/absent, meaning
    a single implicit page)."  [fuel] bounds the number of requests, since a
    listing function may never report a last page. *)
Fixpoint walk_from {T} (fuel : nat) (listing : Z -> PagedResult T) (p : Z)
  : Walk T :=
  match fuel with
  | O => {| finished := false; collected := []; requested := [] |}
  | S fuel' =>
    let r := listing p in
    if last_page r
    then {| finished := true; collected := items r; requested := [p] |}
    else
      let w := walk_from fuel' listing (p + 1)%Z in
      {| finished := finished w;
         collected := items r ++ collected w;
         requested := p :: requested w |}
  end.

Definition walk {T} (fuel : nat) (listing : Z -> PagedResult T) : Walk T :=
  walk_from fuel listing 1%Z.

End Pagination.

(** ** More methods of [HelpScoutClient] (src/lib/api-client.ts) *)

(** What [getMailboxId] reads besides its argument:
    [config.getDefaultMailbox()], the key [defaultMailbox] of the
    configuration store of [src/lib/config.ts], and
    [process.env.HELPSCOUT_MAILBOX_ID]. *)
Record Settings := {
  defaultMailbox : option jsstring;
  HELPSCOUT_MAILBOX_ID : option jsstring
}.

Definition no_mailbox : HelpScoutCliError :=
  {| cli_message :=
       js "No mailbox specified. Use --mailbox flag, set default with "
       ++ [34] ++ js "helpscout mailboxes set-default" ++ [34]
       ++ js ", or set HELPSCOUT_MAILBOX_ID environment variable";
     cli_statusCode := Some 400%Z |}.

Definition getMailboxId (settings : Settings)
    (mailboxIdOrDefault : option jsstring) : M jsstring :=
  let mailboxId :=
    or_else (or_else mailboxIdOrDefault (defaultMailbox settings))
            (HELPSCOUT_MAILBOX_ID settings) in
  match mailboxId with
  | Some (c :: m) => ret (c :: m)
  | _ => throw (ThrowCli no_mailbox)
  end.

Section ClientMethods.

Variable server : list Call -> Call -> Reply.

(** The message of the TypeError of the runtime. *)
Variable type_error : jsstring.

(** [response._embedded?.k || []]; reading a property of [null] or
    [undefined] is a TypeError. *)
Definition embedded_or_empty (k : string) (response : value) : M value :=
  if nullish response then throw (ThrowError type_error)
  else
    let embedded := get "_embedded" response in
    let found := if nullish embedded then VUndefined else get k embedded in
    ret (if truthy_value found then found else VArr []).

Definition listConversations (params : list (jsstring * ParamValue))
  : M value :=
  withErrorHandling
    (response <- request server (js "GET") (js "/conversations") params
                         VUndefined true ;;
     conversations <- embedded_or_empty "conversations" response ;;
     ret (VObj [(js "conversations", conversations);
                (js "page", get "page" response)])).

Definition getConversationThreads (conversationId : Z) : M value :=
  withErrorHandling
    (response <- request server (js "GET")
                         (js "/conversations/" ++ String_of_Z conversationId
                          ++ js "/threads")
                         [] VUndefined true ;;
     embedded_or_empty "threads" response).

Definition updateConversation (conversationId : Z) (data : value) : M value :=
  withErrorHandling
    (request server (js "PATCH")
             (js "/conversations/" ++ String_of_Z conversationId)
             [] data true ;;;
     ret success).

Definition deleteConversation (conversationId : Z) : M value :=
  withErrorHandling
    (request server (js "DELETE")
             (js "/conversations/" ++ String_of_Z conversationId)
             [] VUndefined true ;;;
     ret success).

Definition addConversationTag (conversationId : Z) (tag : jsstring)
  : M value :=
  withErrorHandling
    (request server (js "PUT")
             (js "/conversations/" ++ String_of_Z conversationId ++ js "/tags")
             [] (VObj [(js "tags", VArr [VStr tag])]) true ;;;
     ret success).

Definition createReply (conversationId : Z) (data : value) : M value :=
  withErrorHandling
    (request server (js "POST")
             (js "/conversations/" ++ String_of_Z conversationId ++ js "/reply")
             [] data true ;;;
     ret success).

Definition createNote (conversationId : Z) (data : value) : M value :=
  withErrorHandling
    (request server (js "POST")
             (js "/conversations/" ++ String_of_Z conversationId ++ js "/notes")
             [] data true ;;;
     ret success).

End ClientMethods.

(** ** [withErrorHandling] of the commands (src/lib/command-utils.ts) *)

Module CommandUtils.

(** [try { await fn(...args) } catch (error) { handleHelpScoutError(error) }]:
    the wrapped action resolves to nothing; it rejects when
    [handleHelpScoutError] throws itself. *)
Definition withErrorHandling {A} (fn : M A) : M unit :=
  fun w =>
    match fn w with
    | (Ok _, w') => (Ok tt, w')
    | (Throw t, w') =>
      match handleHelpScoutError (unknown_of_thrown t) with
      | Printed e => (Exit e, w')
      | Rejects m => (Throw (ThrowError m), w')
      end
    | (Exit e, w') => (Exit e, w')
    end.

End CommandUtils.

(** ** Objects used as counters: [Record<string, number>] *)

(** What a property of such an object holds once the loop of
    [summarizeConversations] has written it: a number or, when [+ 1] was
    applied to something that is not a number, a string (its text is not
    needed here). *)
Inductive Slot :=
| Number (n : nat)
| Text.

Definition Counter := list (jsstring * Slot).

Fixpoint decimal (s : jsstring) (acc : N) : option N :=
  match s with
  | [] => Some acc
  | c :: s' => if is_digit c then decimal s' (10 * acc + (c - 48)) else None
  end.

(** An array index: the canonical decimal form of an integer below
    2^32 - 1.  Such keys come first among the own properties, in ascending
    order; the other keys follow in order of creation. *)
Definition array_index (k : jsstring) : option N :=
  match k with
  | [] => None
  | [48] => Some 0
  | 48 :: _ => None
  | _ =>
    match decimal k 0 with
    | Some n => if n <? 4294967295 then Some n else None
    | None => None
    end
  end.

Fixpoint add_index {V} (n : N) (k : jsstring) (v : V) (o : list (jsstring * V))
  : list (jsstring * V) :=
  match o with
  | [] => [(k, v)]
  | (k', v') :: rest =>
    match array_index k' with
    | Some m => if n <? m then (k, v) :: o else (k', v') :: add_index n k v rest
    | None => (k, v) :: o
    end
  end.

Fixpoint overwrite {V} (k : jsstring) (v : V) (o : list (jsstring * V))
  : list (jsstring * V) :=
  match o with
  | [] => []
  | (k', v') :: rest =>
    if str_eqb k k' then (k, v) :: rest else (k', v') :: overwrite k v rest
  end.

(** Writing an own data property: an existing one keeps its place. *)
Definition define {V} (k : jsstring) (v : V) (o : list (jsstring * V))
  : list (jsstring * V) :=
  match lookup k o with
  | Some _ => overwrite k v o
  | None =>
    match array_index k with
    | Some n => add_index n k v o
    | None => o ++ [(k, v)]
    end
  end.

(** What [o[k]] reads. *)
Inductive Read :=
| Own (s : Slot)
| Inherited          (* a function, or [Object.prototype] for [__proto__] *)
| Missing.           (* undefined *)

Definition read (k : jsstring) (o : Counter) : Read :=
  match lookup k o with
  | Some s => Own s
  | None => if inherited k then Inherited else Missing
  end.

(** [o[k] = (o[k] || 0) + 1].  Assigning a string to [__proto__] runs the
    setter of [Object.prototype], which ignores a value that is neither an
    object nor [null]; any other name becomes, or stays, an own property. *)
Definition increment (k : jsstring) (o : Counter) : Counter :=
  let next :=
    match read k o with
    | Own (Number n) => Number (n + 1)
    | Own Text => Text
    | Inherited => Text
    | Missing => Number 1
    end in
  if str_eqb k (js "__proto__") then o else define k next o.

(** ** [summarizeConversations] (src/commands/conversations.ts) *)

Record Tag := {
  tag_name : jsstring
}.

(** [interface Conversation] (the fields read here); [conv_threads] is
    [_embedded?.threads]. *)
Record Conversation := {
  conv_id : Z;
  conv_subject : jsstring;
  conv_status : jsstring;
  conv_tags : option (list Tag);
  conv_threads : option (list Thread)
}.

(** An entry of [conversations] of the summary: the four fields and the
    spread of the thread information. *)
Record ConversationDigest := {
  digest_id : Z;
  digest_subject : jsstring;
  digest_status : jsstring;
  digest_tags : list jsstring;
  digest_customer : ParticipantInfo;
  digest_user : ParticipantInfo
}.

Record ConversationSummary := {
  total : nat;
  byStatus : Counter;
  byTag : Counter;
  conversations : list ConversationDigest
}.

(** [conv.tags || []] *)
Definition tags_or_empty (conv : Conversation) : list Tag :=
  match conv_tags conv with
  | Some tags => tags
  | None => []
  end.

(** The [for] loop over the conversations, on the pair of the two
    counters. *)
Definition count_conversations (conversations : list Conversation)
  : Counter * Counter :=
  fold_left
    (fun counters conv =>
       let byStatus := increment (conv_status conv) (fst counters) in
       let byTag :=
         fold_left (fun byTag tag => increment (tag_name tag) byTag)
                   (tags_or_empty conv) (snd counters) in
       (byStatus, byTag))
    conversations ([], []).

Section Summary.

Variable htmlToPlainText : jsstring -> jsstring.
Variable buildName : option jsstring -> option jsstring -> option jsstring.

Definition summarizeConversations (conversations : list Conversation)
  : ConversationSummary :=
  let counters := count_conversations conversations in
  {| total := length conversations;
     byStatus := fst counters;
     byTag := snd counters;
     conversations :=
       map (fun c =>
              let threadInfo :=
                extractThreadInfo htmlToPlainText buildName (conv_threads c) in
              {| digest_id := conv_id c;
                 digest_subject := conv_subject c;
                 digest_status := conv_status c;
                 digest_tags := map tag_name (tags_or_empty c);
                 digest_customer := info_customer threadInfo;
                 digest_user := info_user threadInfo |})
           conversations |}.

End Summary.

(** ** The commands [threads] and [update] (src/commands/conversations.ts) *)

(** [String.prototype.split] with a separator of one character. *)
Fixpoint split (sep : N) (s : jsstring) : list jsstring :=
  match s with
  | [] => [[]]
  | c :: s' =>
    if c =? sep then [] :: split sep s'
    else match split sep s' with
         | piece :: pieces => (c :: piece) :: pieces
         | [] => [[c]]
         end
  end.

(** The options of [threads]; [type_filter] is the option [type]. *)
Record ThreadsOptions := {
  includeNotes : bool;
  all : bool;
  type_filter : option jsstring;
  html : bool
}.

Section ThreadsCommand.

(** [String.prototype.toLowerCase], a parameter here. *)
Variable toLowerCase : jsstring -> jsstring.

(** [types.includes(t.type)] *)
Definition includes (types : list jsstring) (t : Thread) : bool :=
  existsb (str_eqb (type t)) types.

(** The threads the command [threads] prints, given those the client
    returned. *)
Definition filter_threads (options : ThreadsOptions) (threads : list Thread)
  : list Thread :=
  match type_filter options with
  | Some (c :: s) =>
    let types := map (fun t => toLowerCase (trim t)) (split 44 (c :: s)) in
    filter (includes types) threads
  | _ =>
    if negb (all options) then
      let allowedTypes :=
        if includeNotes options
        then [js "customer"; js "message"; js "note"; js "chat"; js "phone"]
        else [js "customer"; js "message"; js "chat"; js "phone"] in
      filter (includes allowedTypes) threads
    else threads
  end.

End ThreadsCommand.

(** The options of [update]. *)
Record UpdateOptions := {
  update_status : option jsstring;
  update_assignee : option jsstring;
  update_customer : option jsstring;
  update_subject : option jsstring;
  update_mailbox : option jsstring
}.

Definition operation (op path : string) (v : option value) : value :=
  VObj ([(js "op", VStr (js op)); (js "path", VStr (js path))]
        ++ match v with
           | Some x => [(js "value", x)]
           | None => []
           end).

Section UpdateCommand.

Variable server : list Call -> Call -> Reply.

(** [parseInt(s, 10)], [parseIdArg] of [src/lib/command-utils.ts] and
    [outputJson] of [src/lib/output.ts] are not among the sources; they are
    parameters here. *)
Variable parseInt : jsstring -> value.
Variable parseIdArg : jsstring -> jsstring -> M Z.
Variable outputJson : value -> M unit.

(** The [operations] array after the five tests. *)
Definition update_operations (options : UpdateOptions) : list value :=
  let operations := [] in
  let operations :=
    match update_status options with
    | Some (c :: s) =>
      operations ++ [operation "replace" "/status" (Some (VStr (c :: s)))]
    | _ => operations
    end in
  let operations :=
    match update_assignee options with
    | Some (c :: s) =>
      if str_eqb (c :: s) (js "none")
      then operations ++ [operation "remove" "/assignTo" None]
      else operations
             ++ [operation "replace" "/assignTo" (Some (parseInt (c :: s)))]
    | _ => operations
    end in
  let operations :=
    match update_customer options with
    | Some (c :: s) =>
      operations
        ++ [operation "replace" "/primaryCustomer.id" (Some (parseInt (c :: s)))]
    | _ => operations
    end in
  let operations :=
    match update_subject options with
    | Some (c :: s) =>
      operations ++ [operation "replace" "/subject" (Some (VStr (c :: s)))]
    | _ => operations
    end in
  match update_mailbox options with
  | Some (c :: s) =>
    operations ++ [operation "replace" "/mailbox" (Some (parseInt (c :: s)))]
  | _ => operations
  end.

(** The action of the command [update]. *)
Definition update (id : jsstring) (options : UpdateOptions) : M unit :=
  CommandUtils.withErrorHandling
    (let operations := update_operations options in
     match operations with
     | [] => throw (ThrowError (js "At least one update option is required"))
     | _ :: _ =>
       conversationId <- parseIdArg id (js "conversation") ;;
       updateConversation server conversationId (VArr operations) ;;;
       outputJson (VObj [(js "message", VStr (js "Conversation updated"))])
     end).

End UpdateCommand.

(** The options of [reply]. *)
Record ReplyOptions := {
  reply_text : jsstring;
  reply_user : option jsstring;
  reply_draft : option bool;
  reply_status : option jsstring
}.

(** An optional field of an object literal. *)
Definition optional {A} (f : A -> value) (o : option A) : value :=
  match o with
  | Some a => f a
  | None => VUndefined
  end.

Section ReplyCommand.

Variable server : list Call -> Call -> Reply.
Variable type_error : jsstring.

(** [parseIdArg] of [src/lib/command-utils.ts] and [outputJson] of
    [src/lib/output.ts] are parameters, as above. *)
Variable parseIdArg : jsstring -> jsstring -> M Z.
Variable outputJson : value -> M unit.

(** [conversation.primaryCustomer?.id] *)
Definition primaryCustomer_id (conversation : value) : M value :=
  if nullish conversation then throw (ThrowError type_error)
  else
    let primaryCustomer := get "primaryCustomer" conversation in
    ret (if nullish primaryCustomer then VUndefined
         else get "id" primaryCustomer).

(** The action of the command [reply]. *)
Definition reply (id : jsstring) (options : ReplyOptions) : M unit :=
  CommandUtils.withErrorHandling
    (conversationId <- parseIdArg id (js "conversation") ;;
     conversation <- getConversation server conversationId None ;;
     customerId <- primaryCustomer_id conversation ;;
     if negb (truthy_value customerId) then
       throw (ThrowError (js "Could not determine customer ID from conversation"))
     else
       user <- match reply_user options with
               | Some (c :: u) =>
                 userId <- parseIdArg (c :: u) (js "user") ;; ret (VNum userId)
               | _ => ret VUndefined
               end ;;
       createReply server conversationId
         (VObj [(js "text", VStr (reply_text options));
                (js "customer", customerId);
                (js "user", user);
                (js "draft", optional VBool (reply_draft options));
                (js "status", optional VStr (reply_status options))]) ;;;
       outputJson (VObj [(js "message", VStr (js "Reply sent"))])).

End ReplyCommand.

(** * Notions the properties are stated with *)

(** ** The language of a pattern *)

Definition quant_ok (q : quant) (n : nat) : Prop :=
  match q with
  | One => n = 1%nat
  | Opt => (n <= 1)%nat
  | Star => True
  | Plus => (1 <= n)%nat
  end.

(** [InLang r u]: the whole of [u] matches [r], each atom taking a run of
    characters of its set, as many as its quantifier allows. *)
Inductive InLang : regex -> jsstring -> Prop :=
| InLang_nil : InLang [] []
| InLang_cons a q r cs u :
    Forall (fun c => accepts a c = true) cs ->
    quant_ok q (length cs) ->
    InLang r u ->
    InLang ((a, q) :: r) (cs ++ u).

(** An occurrence of [r] somewhere in [s]. *)
Definition occurs (r : regex) (s : jsstring) : Prop :=
  exists pre u post, s = pre ++ u ++ post /\ InLang r u.

(** No occurrence of [r] starts at the head of [s]. *)
Definition no_match_here (r : regex) (s : jsstring) : Prop :=
  forall u v, s = u ++ v -> ~ InLang r u.

(** One pass of redaction, read from the left: a character where no
    occurrence starts is kept; where occurrences start, the longest of them
    is replaced by the marker and the pass resumes after it. *)
Inductive Redacts (r : regex) (marker : jsstring) : jsstring -> jsstring -> Prop :=
| Redacts_end : Redacts r marker [] []
| Redacts_keep c s t :
    no_match_here r (c :: s) ->
    Redacts r marker s t ->
    Redacts r marker (c :: s) (c :: t)
| Redacts_hit u v t :
    InLang r u -> u <> [] ->
    (forall u' v', u ++ v = u' ++ v' -> InLang r u' ->
       (length u' <= length u)%nat) ->
    Redacts r marker v t ->
    Redacts r marker (u ++ v) (marker ++ t).

(** The match the engine finds at the head of a string is the longest
    occurrence that starts there. *)
Definition longest_match (r : regex) : Prop :=
  forall s n, exec r s = Some n ->
  forall u v, s = u ++ v -> InLang r u -> (length u <= n)%nat.

(** No occurrence of [r] starts with a character of [a]. *)
Definition first_disjoint (a : cset) (r : regex) : Prop :=
  forall c u, InLang r (c :: u) -> accepts a c = false.

(** The first characters of [s] satisfy the tests of [ps], one each. *)
Fixpoint starts (ps : list (N -> bool)) (s : jsstring) : bool :=
  match ps, s with
  | [], _ => true
  | p :: ps', c :: s' => p c && starts ps' s'
  | _ :: _, [] => false
  end.

(** Somewhere in [s] characters in a row satisfy the tests of [ps]. *)
Fixpoint has_factor (ps : list (N -> bool)) (s : jsstring) : bool :=
  starts ps s ||
  match s with
  | [] => false
  | _ :: s' => has_factor ps s'
  end.

(** Tests on one character: a letter in either case, the separator of a
    pair, and what can follow it. *)
Definition letter_r : N -> bool := accepts (Chr 114).
Definition letter_n : N -> bool := accepts (Chr 110).
Definition letter_k : N -> bool := accepts (Chr 107).
Definition letter_l : N -> bool := accepts (Chr 108).
Definition letter_b : N -> bool := accepts (Chr 98).
Definition separator : N -> bool := accepts (OneOf [61; 58]).
Definition value_start (c : N) : bool := is_space c || is_token_char c.

(** A message with no sensitive pattern in it. *)
Definition secret_free (s : jsstring) : Prop :=
  forall r, In r sensitivePatterns -> ~ occurs r s.

(** [s] ends with [e]. *)
Definition ends_with (e s : jsstring) : Prop := exists p, s = p ++ e.

(** The characters some atom of [r] accepts. *)
Definition alphabet (r : regex) (c : N) : bool :=
  existsb (fun aq => accepts (fst aq) c) r.

Definition is_none {A} (o : option A) : bool :=
  match o with
  | None => true
  | Some _ => false
  end.

(** A pattern that accepts neither bracket, does not match the empty
    string and matches nowhere inside the word of the marker: replacing by
    the marker cannot make an occurrence of it. *)
Definition marker_proof (r : regex) : bool :=
  negb (alphabet r 91) && negb (alphabet r 93) && is_none (exec r [])
  && forallb (fun i => is_none (exec r (skipn i (js "REDACTED")))) (seq 0 9).

(** The reading of "every occurrence is replaced by the marker" on a
    message that is, as a whole, one occurrence of a pattern: what comes
    back is the marker. *)
Definition replaces_whole_occurrences (f : jsstring -> jsstring) : Prop :=
  forall r s, In r sensitivePatterns -> InLang r s -> f s = REDACTED.

(** ** Words of the description of [sanitizeApiError] *)

(** [_embedded.errors] of an object, [undefined] when there is none. *)
Definition embedded_errors (o : value) : value :=
  get "errors" (get "_embedded" o).

(** The message-or-path value of an entry of [_embedded.errors]: its
    [message] when that is present, its [path] otherwise. *)
Definition entry_detail (e : value) : value :=
  match get "message" e with
  | VUndefined | VNull | VBool false | VNum 0%Z | VStr [] => get "path" e
  | m => m
  end.

(** A value that is a string, or is absent or otherwise falsy: what a
    field declared [string?] holds when the object is as declared. *)
Definition string_or_absent (v : value) : bool :=
  match v with
  | VStr _ => true
  | v => negb (truthy_value v)
  end.

(** An object whose [error_description], [message] and [_embedded.errors]
    are as [ApiErrorResponse] declares them: strings or absent, no entry of
    the array being [null]. *)
Definition as_declared (o : value) : bool :=
  string_or_absent (get "error_description" o)
  && string_or_absent (get "message" o)
  && match embedded_errors o with
     | VArr entries =>
       forallb (fun e => negb (nullish e) && string_or_absent (entry_detail e))
               entries
     | VUndefined | VNull => true
     | errors => negb (truthy_value (length_of errors))
     end.

(** The non-blank strings among values. *)
Fixpoint nonblank_strings (l : list value) : list jsstring :=
  match l with
  | [] => []
  | VStr (c :: s) :: l' => (c :: s) :: nonblank_strings l'
  | _ :: l' => nonblank_strings l'
  end.

Definition default_error : HelpScoutError :=
  {| name := js "api_error"; detail := js "An error occurred" |}.

(** "For every input value" read as a promise: whatever the value, a
    result comes back. *)
Definition returns_on_every_input : Prop :=
  forall error, exists r, sanitizeApiError error = Returns r.

(** ** Words of the description of the auth session *)

(** The [refresh_token] attempt failed: the call threw, the response was
    not 2xx, or its body could not be read: it is not JSON, or it is [null],
    which has no [access_token]. *)
Definition refresh_failed (reply : Reply) : bool :=
  match reply with
  | NetworkError _ => true
  | Response _ (NotJson _) => true
  | Response status (Json v) => negb (ok status) || nullish v
  end.

(** The requests of a trace that went to the API proper, not to the token
    endpoint. *)
Definition api_calls (l : list Call) : list Call := filter is_api_call l.

(** ** Words of the description of the request executor *)

(** The error body [request] raises with: the parsed body, or the empty
    object when the body cannot be parsed. *)
Definition parsed_or_empty (body : Parsed) : value :=
  match body with
  | Json v => v
  | NotJson _ => VObj []
  end.

(** How a response that is not retried ends the request: 204 gives the
    empty result, another non-2xx status raises the error body with the
    status, a 2xx status gives the parsed body. *)
Definition settle (status : Z) (body : Parsed) : Outcome value :=
  if (status =? 204)%Z then Ok (VObj [])
  else if negb (ok status)
       then Throw (ThrowObject (with_statusCode (parsed_or_empty body) status))
       else match body with
            | Json v => Ok v
            | NotJson m => Throw (ThrowError m)
            end.

(** The trace of [w'] continues that of [w]. *)
Definition extends (w w' : World) : Prop :=
  exists rest, calls w' = calls w ++ rest.

(** ** Words of the description of the summarizer *)

(** Threads in ascending order of [createdAt]. *)
Fixpoint ascending (l : list Thread) : Prop :=
  match l with
  | a :: l' =>
    match l' with
    | b :: _ => (createdAt a <= createdAt b)%Z /\ ascending l'
    | [] => True
    end
  | [] => True
  end.

(** [t] is the first thread of [l] for which [p] holds. *)
Definition first_such (p : Thread -> bool) (t : Thread) (l : list Thread) : Prop :=
  exists pre post,
    l = pre ++ t :: post /\ p t = true /\ forall x, In x pre -> p x = false.

(** [t] is the last thread of [l] for which [p] holds. *)
Definition last_such (p : Thread -> bool) (t : Thread) (l : list Thread) : Prop :=
  exists pre post,
    l = pre ++ t :: post /\ p t = true /\ forall x, In x post -> p x = false.

Definition customer_with_body (t : Thread) : bool :=
  has_type "customer" t && has_body t.

Definition message_with_body (t : Thread) : bool :=
  has_type "message" t && has_body t.

(** ** Words of the description of the pagination walker *)

(** The [n] consecutive page numbers from [p] on. *)
Definition pages_from (p : Z) (n : nat) : list Z :=
  map (fun i => (p + Z.of_nat i)%Z) (seq 0 n).

(** Neither bracket of the marker is in [u]. *)
Definition no_bracket (u : jsstring) : Prop := ~ In 91 u /\ ~ In 93 u.

(** Two patterns with the same quantifiers over sets that accept the same
    characters. *)
Definition same_sets (r r' : regex) : Prop :=
  Forall2 (fun x y => snd x = snd y /\ forall c, accepts (fst x) c = accepts (fst y) c)
          r r'.

(** ** Words of the description of [handleHelpScoutError] *)

(** The [statusCode] a thrown value carries itself, [undefined] when it has
    none. *)
Definition explicit_status (error : unknown) : value :=
  get "statusCode" (read_as error).

(** The name under which an error without a usable [statusCode] is looked
    up in [ERROR_STATUS_CODES]: the [error] field of an API error. *)
Definition api_error_name (error : unknown) : option value :=
  if truthy_value (get "error" (read_as error))
  then Some (get "error" (read_as error))
  else None.

(** The TypeErrors of the runtime the module can raise. *)
Definition raised (m : jsstring) : Prop :=
  In m [replace_is_not_a_function; map_is_not_a_function;
        cannot_read_message; cannot_convert_object].

(** ** Words of the description of the session's invariants *)

(** What no operation of the client changes: the id and the secret of the
    application; and a persisted refresh token is only ever replaced by
    another one. *)
Definition keeps_credentials (w w' : World) : Prop :=
  appId (store w') = appId (store w) /\
  appSecret (store w') = appSecret (store w) /\
  (truthy (storedRefreshToken (store w)) = true ->
   truthy (storedRefreshToken (store w')) = true).

(** The call [request] issues for its arguments with the token [token]. *)
Definition api_call (method path : jsstring)
    (params : list (jsstring * ParamValue)) (body : value) (token : jsstring)
  : Call :=
  ApiCall method path (query_of params) token
          (if truthy_value body then Some body else None).

(** A configured session that holds the token "t1", for the examples. *)
Definition signed_in : World :=
  {| accessToken := Some (js "t1");
     store := {| appId := Some (js "app"); appSecret := Some (js "secret");
                 storedAccessToken := Some (js "t1");
                 storedRefreshToken := Some (js "r1") |};
     calls := [] |}.

(** The same application before it has any token but the refresh token. *)
Definition signed_out : World :=
  {| accessToken := None;
     store := {| appId := Some (js "app"); appSecret := Some (js "secret");
                 storedAccessToken := None;
                 storedRefreshToken := Some (js "r1") |};
     calls := [] |}.

(** ** Words of the description of [summarizeConversations] *)

(** How often [k] is among [keys]. *)
Definition occurrences (k : jsstring) (keys : list jsstring) : nat :=
  length (filter (str_eqb k) keys).

(** The statuses of the conversations, and the names of their tags, in the
    order the loop meets them. *)
Definition statuses (conversations : list Conversation) : list jsstring :=
  map conv_status conversations.

Definition tag_names (conversations : list Conversation) : list jsstring :=
  flat_map (fun c => map tag_name (tags_or_empty c)) conversations.

(** What a counter holds under a name met [n] times: nothing, or [n]. *)
Definition counted (n : nat) : option Slot :=
  match n with
  | O => None
  | S _ => Some (Number n)
  end.

(** The sum of the numbers a counter holds. *)
Fixpoint sum_counts (o : Counter) : nat :=
  match o with
  | [] => O
  | (_, Number n) :: rest => (n + sum_counts rest)%nat
  | (_, Text) :: rest => sum_counts rest
  end.

(** The loop of [summarizeConversations] over a list of names. *)
Definition count_keys (keys : list jsstring) (o : Counter) : Counter :=
  fold_left (fun o k => increment k o) keys o.

(** Every slot of the counter is a number. *)
Definition all_numbers (o : Counter) : Prop :=
  Forall (fun kv => exists n, snd kv = Number n) o.

(** ** Words of the description of the command [threads] *)

(** The thread information as [extractThreadInfo] computes it from the
    threads in chronological order. *)
Definition no_participant : ParticipantInfo :=
  {| p_name := None; p_email := None; messageCount := 0; firstMessage := None |}.

(** Threads listed out of order: a reply at 40, then the customer's
    messages at 30, 10 (without a body) and 20, and a note. *)
Definition sample_threads : list Thread :=
  let ann := {| first := Some (js "Ann"); last := None;
                email := Some (js "ann@example.com") |} in
  let bob := {| first := Some (js "Bob"); last := None;
                email := Some (js "bob@example.com") |} in
  let thread i ty at_ b who by_ :=
    {| thread_id := i; type := ty; createdAt := at_; thread_body := Some b;
       customer := who; createdBy := by_ |} in
  [ thread 4%Z (js "message") 40%Z (js "Thanks!") (Some ann) (Some bob);
    thread 3%Z (js "customer") 30%Z (js "Follow-up") (Some ann) None;
    thread 1%Z (js "customer") 10%Z [] (Some ann) None;
    thread 5%Z (js "note") 15%Z (js "internal") None (Some bob);
    thread 2%Z (js "customer") 20%Z (js "Hello") (Some ann) None ].

(** ** Words of the description of the command [update] *)

(** [1] for an option that is given (a non-empty string), [0] otherwise. *)
Definition given (o : option jsstring) : nat := if truthy o then 1 else 0.

(** * Properties *)

Unset Implicit Arguments.

(** ** Strings *)

Lemma str_eqb_eq (a b : jsstring) : str_eqb a b = true <-> a = b.
Proof.
  revert b; induction a as [|x a IH]; intros [|y b]; simpl; split; intro H;
    try reflexivity; try discriminate.
  - apply andb_true_iff in H as [Hx Hr].
    apply N.eqb_eq in Hx. apply IH in Hr. now subst.
  - injection H as -> ->. rewrite N.eqb_refl. simpl. now apply IH.
Qed.

Lemma str_eqb_refl (a : jsstring) : str_eqb a a = true.
Proof. now apply str_eqb_eq. Qed.

(** ** The matcher against the language *)

Lemma star_sound a k s n :
  star a k s = Some n ->
  exists cs rest m,
    s = cs ++ rest /\ Forall (fun c => accepts a c = true) cs /\
    k rest = Some m /\ n = (length cs + m)%nat.
Proof.
  revert n; induction s as [|c s IH]; intros n H.
  - exists [], [], n. simpl in *. auto.
  - simpl in H. destruct (accepts a c) eqn:Hc.
    + destruct (star a k s) as [n'|] eqn:Hs.
      * injection H as <-.
        destruct (IH n' eq_refl) as (cs & rest & m & -> & Hcs & Hk & ->).
        exists (c :: cs), rest, m. simpl. auto.
      * exists [], (c :: s), n. simpl. auto.
    + exists [], (c :: s), n. simpl. auto.
Qed.

Lemma exec_sound r :
  forall s n, exec r s = Some n ->
  exists u v, s = u ++ v /\ InLang r u /\ length u = n.
Proof.
  induction r as [|[a q] r IH]; intros s n H.
  - injection H as <-. exists [], s. split; [reflexivity|]. split; [constructor|reflexivity].
  - destruct q; simpl in H.
    + (* One *)
      destruct s as [|c s]; [discriminate|].
      destruct (accepts a c) eqn:Hc; [|discriminate].
      destruct (exec r s) as [n'|] eqn:Hk; [|discriminate].
      injection H as <-.
      destruct (IH _ _ Hk) as (u & v & -> & Hu & <-).
      exists ([c] ++ u), v. split; [reflexivity|]. split; [|reflexivity].
      constructor; auto. reflexivity.
    + (* Opt *)
      assert (Hzero : forall s0, exec r s0 = Some n ->
                exists u v, s0 = u ++ v /\ InLang ((a, Opt) :: r) u /\ length u = n).
      { intros s0 Hk. destruct (IH _ _ Hk) as (u & v & -> & Hu & <-).
        exists ([] ++ u), v. split; [reflexivity|]. split; [|reflexivity].
        constructor; auto. simpl. lia. }
      destruct s as [|c s]; [now apply Hzero|].
      destruct (accepts a c) eqn:Hc; [|now apply Hzero].
      destruct (exec r s) as [n'|] eqn:Hk; [|now apply Hzero].
      injection H as <-.
      destruct (IH _ _ Hk) as (u & v & -> & Hu & <-).
      exists ([c] ++ u), v. split; [reflexivity|]. split; [|reflexivity].
      constructor; auto. simpl. lia.
    + (* Star *)
      destruct (star_sound _ _ _ _ H) as (cs & rest & m & -> & Hcs & Hk & ->).
      destruct (IH _ _ Hk) as (u & v & -> & Hu & <-).
      exists (cs ++ u), v. rewrite app_assoc. split; [reflexivity|].
      split; [|now rewrite length_app]. constructor; simpl; auto.
    + (* Plus *)
      destruct s as [|c s]; [discriminate|].
      destruct (accepts a c) eqn:Hc; [|discriminate].
      destruct (star a (exec r) s) as [n'|] eqn:Hs; [|discriminate].
      injection H as <-.
      destruct (star_sound _ _ _ _ Hs) as (cs & rest & m & -> & Hcs & Hk & ->).
      destruct (IH _ _ Hk) as (u & v & -> & Hu & <-).
      exists ((c :: cs) ++ u), v. split.
      * simpl. now rewrite app_assoc.
      * split; [|simpl; now rewrite length_app].
        constructor; simpl; auto. lia.
Qed.

Lemma star_continues a k s : k s <> None -> star a k s <> None.
Proof.
  intros H. destruct s as [|c s]; simpl; auto.
  destruct (accepts a c); auto.
  destruct (star a k s); auto. discriminate.
Qed.

Lemma star_complete a k cs rest :
  Forall (fun c => accepts a c = true) cs ->
  k rest <> None ->
  star a k (cs ++ rest) <> None.
Proof.
  intros Hcs Hk. induction Hcs as [|c cs Hc _ IH]; simpl.
  - now apply star_continues.
  - rewrite Hc. destruct (star a k (cs ++ rest)); [discriminate|contradiction].
Qed.

Lemma exec_complete r u :
  InLang r u -> forall v, exec r (u ++ v) <> None.
Proof.
  induction 1 as [|a q r cs u Hcs Hq _ IH]; intros v.
  - discriminate.
  - rewrite <- app_assoc. specialize (IH v).
    destruct q; simpl in Hq |- *.
    + destruct cs as [|c [|? ?]]; try discriminate.
      inversion Hcs as [|? ? Hc _]; subst. simpl. rewrite Hc.
      destruct (exec r (u ++ v)); [discriminate|contradiction].
    + destruct cs as [|c [|? ?]]; simpl in Hq; try lia.
      * simpl. destruct (u ++ v) as [|c s] eqn:E; auto.
        destruct (accepts a c); auto.
        destruct (exec r s); [discriminate|auto].
      * inversion Hcs as [|? ? Hc _]; subst. simpl. rewrite Hc.
        destruct (exec r (u ++ v)); [discriminate|contradiction].
    + now apply star_complete.
    + destruct cs as [|c cs]; simpl in Hq; [lia|].
      inversion Hcs as [|? ? Hc Hcs']; subst. simpl. rewrite Hc.
      pose proof (star_complete a (exec r) cs (u ++ v) Hcs' IH) as Hs.
      destruct (star a (exec r) (cs ++ u ++ v)); [discriminate|contradiction].
Qed.

Lemma exec_le r s n : exec r s = Some n -> (n <= length s)%nat.
Proof.
  intros H. destruct (exec_sound _ _ _ H) as (u & v & -> & _ & <-).
  rewrite length_app. lia.
Qed.

Lemma exec_none_no_match r s : exec r s = None -> no_match_here r s.
Proof.
  intros H u v -> Hu. now apply (exec_complete _ _ Hu v).
Qed.

Lemma no_match_exec_none r s : no_match_here r s -> exec r s = None.
Proof.
  intros H. destruct (exec r s) as [n|] eqn:E; [|reflexivity].
  destruct (exec_sound _ _ _ E) as (u & v & -> & Hu & _).
  now destruct (H u v eq_refl).
Qed.

(** ** The match that is found is the longest *)

Lemma longest_nil : longest_match [].
Proof.
  intros s n H u v -> Hu. inversion Hu. cbn. lia.
Qed.

Lemma longest_One a r : longest_match r -> longest_match ((a, One) :: r).
Proof.
  intros Hr s n H u v -> Hu.
  inversion Hu as [|a' q' r' cs u0 Hcs Hq Hu0]; subst.
  cbn in Hq. destruct cs as [|c [|? ?]]; try discriminate Hq.
  cbn in H. destruct (accepts a c); [|discriminate H].
  destruct (exec r (u0 ++ v)) as [n'|] eqn:E; [|discriminate H].
  injection H as <-. cbn. apply le_n_S.
  exact (Hr _ _ E u0 v eq_refl Hu0).
Qed.

(** After a run of [a], an occurrence of [r] in front of which no more of
    [a] can stand: the greedy loop does not stop short of it. *)
Lemma star_longest a r :
  longest_match r -> first_disjoint a r ->
  forall cs u v n,
    Forall (fun c => accepts a c = true) cs -> InLang r u ->
    star a (exec r) (cs ++ u ++ v) = Some n ->
    (length cs + length u <= n)%nat.
Proof.
  intros Hr Hd cs u v n Hcs Hu. revert n.
  induction Hcs as [|c cs Hc Hcs IH]; intros n H.
  - cbn [app length] in *.
    destruct u as [|c u].
    + cbn. lia.
    + cbn [app] in H. cbn [star] in H.
      rewrite (Hd c u Hu) in H.
      exact (Hr _ _ H (c :: u) v eq_refl Hu).
  - cbn [app star] in H. rewrite Hc in H.
    pose proof (star_complete a (exec r) cs (u ++ v) Hcs (exec_complete r u Hu v)) as Hs.
    destruct (star a (exec r) (cs ++ u ++ v)) as [n'|]; [|contradiction].
    injection H as <-. cbn [length]. specialize (IH n' eq_refl). lia.
Qed.

Lemma longest_Star a r :
  longest_match r -> first_disjoint a r -> longest_match ((a, Star) :: r).
Proof.
  intros Hr Hd s n H u v -> Hu.
  inversion Hu as [|a' q' r' cs u0 Hcs Hq Hu0]; subst.
  rewrite <- app_assoc in H. cbn [exec] in H.
  rewrite length_app. exact (star_longest a r Hr Hd cs u0 v n Hcs Hu0 H).
Qed.

Lemma longest_Plus a r :
  longest_match r -> first_disjoint a r -> longest_match ((a, Plus) :: r).
Proof.
  intros Hr Hd s n H u v -> Hu.
  inversion Hu as [|a' q' r' cs u0 Hcs Hq Hu0]; subst.
  cbn in Hq. destruct cs as [|c cs]; [cbn in Hq; lia|].
  inversion Hcs as [|? ? Hc Hcs']; subst.
  rewrite <- app_assoc in H. cbn [app exec] in H. rewrite Hc in H.
  destruct (star a (exec r) (cs ++ u0 ++ v)) as [n'|] eqn:E; [|discriminate H].
  injection H as <-. rewrite length_app. cbn [length].
  pose proof (star_longest a r Hr Hd cs u0 v n' Hcs' Hu0 E). lia.
Qed.

Lemma longest_Opt a r :
  longest_match r -> first_disjoint a r -> longest_match ((a, Opt) :: r).
Proof.
  intros Hr Hd s n H u v -> Hu.
  inversion Hu as [|a' q' r' cs u0 Hcs Hq Hu0]; subst.
  cbn in Hq. rewrite <- app_assoc in H. rewrite length_app.
  destruct cs as [|c [|? ?]]; [| |cbn in Hq; lia].
  - cbn [app length] in *. cbn [exec] in H.
    destruct u0 as [|c u0].
    + cbn. lia.
    + cbn [app] in H. rewrite (Hd c u0 Hu0) in H.
      exact (Hr _ _ H (c :: u0) v eq_refl Hu0).
  - inversion Hcs as [|? ? Hc _]; subst.
    cbn [app exec] in H. rewrite Hc in H.
    pose proof (exec_complete r u0 Hu0 v) as Hk.
    destruct (exec r (u0 ++ v)) as [n'|] eqn:E; [|contradiction].
    injection H as <-. cbn [length].
    pose proof (Hr _ _ E u0 v eq_refl Hu0). lia.
Qed.

Lemma first_disjoint_nil a : first_disjoint a [].
Proof. intros c u H. inversion H. Qed.

Lemma InLang_cons_inv a q r w :
  InLang ((a, q) :: r) w ->
  exists cs u,
    w = cs ++ u /\ Forall (fun c => accepts a c = true) cs /\
    quant_ok q (length cs) /\ InLang r u.
Proof.
  intros H. inversion H as [|a' q' r' cs u Hcs Hq Hu]; subst.
  exists cs, u. auto.
Qed.

Lemma InLang_nil_inv w : InLang [] w -> w = [].
Proof. intros H. now inversion H. Qed.

Lemma first_disjoint_One a b r :
  (forall c, accepts b c = true -> accepts a c = false) ->
  first_disjoint a ((b, One) :: r).
Proof.
  intros Hab c u H.
  destruct (InLang_cons_inv _ _ _ _ H) as (cs & u0 & E & Hcs & Hq & Hu0).
  cbn in Hq. destruct cs as [|x [|? ?]]; try discriminate Hq.
  cbn in E. injection E as -> _.
  inversion Hcs as [|? ? Hc _]; subst. now apply Hab.
Qed.

Lemma first_disjoint_Plus a b r :
  (forall c, accepts b c = true -> accepts a c = false) ->
  first_disjoint a ((b, Plus) :: r).
Proof.
  intros Hab c u H.
  destruct (InLang_cons_inv _ _ _ _ H) as (cs & u0 & E & Hcs & Hq & Hu0).
  cbn in Hq. destruct cs as [|x cs]; [cbn in Hq; lia|].
  cbn in E. injection E as -> _.
  inversion Hcs as [|? ? Hc _]; subst. now apply Hab.
Qed.

Lemma first_disjoint_last a b :
  (forall c, accepts b c = true -> accepts a c = false) ->
  first_disjoint a [(b, Star)].
Proof.
  intros Hab c u H.
  destruct (InLang_cons_inv _ _ _ _ H) as (cs & u0 & E & Hcs & Hq & Hu0).
  apply InLang_nil_inv in Hu0. subst u0. rewrite app_nil_r in E. subst cs.
  inversion Hcs as [|? ? Hc _]; subst. now apply Hab.
Qed.

(** What a letter of a pattern accepts: the letter in either case. *)
Lemma accepts_Chr p c :
  accepts (Chr p) c = true ->
  c = canonicalize p \/ (c = canonicalize p + 32 /\ is_lower c = true).
Proof.
  cbn [accepts]. intros H. apply N.eqb_eq in H.
  unfold canonicalize at 1 in H.
  destruct (is_lower c) eqn:L; [right|left; exact H].
  split; [|reflexivity].
  unfold is_lower in L. apply andb_true_iff in L as [L1 L2].
  apply N.leb_le in L1. lia.
Qed.

Lemma token_char_not_space c : is_token_char c = true -> is_space c = false.
Proof.
  intros H. apply not_true_iff_false. intros S. revert H S.
  unfold is_token_char, is_word, is_upper, is_lower, is_digit, is_space.
  rewrite !orb_true_iff, !andb_true_iff, !N.leb_le, !N.eqb_eq. lia.
Qed.

Lemma space_not_token_char c : accepts TokenChar c = true -> accepts Space c = false.
Proof. apply token_char_not_space. Qed.

Lemma equals_not_token_char c :
  accepts (Chr 61) c = true -> accepts TokenChar c = false.
Proof.
  intros H. destruct (accepts_Chr _ _ H) as [->|[-> L]]; [reflexivity|].
  discriminate L.
Qed.

Lemma s_not_separator c :
  accepts (Chr 115) c = true -> accepts (OneOf [95; 45]) c = false.
Proof.
  intros H. destruct (accepts_Chr _ _ H) as [->|[-> _]]; reflexivity.
Qed.

Lemma b_not_space c : accepts (Chr 98) c = true -> accepts Space c = false.
Proof.
  intros H. destruct (accepts_Chr _ _ H) as [->|[-> _]]; reflexivity.
Qed.

Lemma sensitivePatterns_longest r :
  In r sensitivePatterns -> longest_match r.
Proof.
  assert (Tail : longest_match [(TokenChar, Plus); (Chr 61, Star)]).
  { apply longest_Plus.
    - apply longest_Star; [apply longest_nil|apply first_disjoint_nil].
    - apply first_disjoint_last. exact equals_not_token_char. }
  assert (Value : longest_match [(Space, Star); (TokenChar, Plus); (Chr 61, Star)]).
  { apply longest_Star; [exact Tail|].
    apply first_disjoint_Plus. exact space_not_token_char. }
  assert (Bearer : longest_match [(Space, Plus); (TokenChar, Plus); (Chr 61, Star)]).
  { apply longest_Plus; [exact Tail|].
    apply first_disjoint_Plus. exact space_not_token_char. }
  intros [<-|[<-|[<-|[<-|[]]]]].
  - unfold bearer_pattern, lit. cbn [js map app].
    repeat apply longest_One. exact Bearer.
  - unfold token_pattern, lit. cbn [js map app].
    repeat apply longest_One. exact Value.
  - unfold client_secret_pattern, lit. cbn [js map app].
    do 6 apply longest_One. apply longest_Opt.
    + repeat apply longest_One. exact Value.
    + apply first_disjoint_One. exact s_not_separator.
  - unfold authorization_pattern, lit. cbn [js map app].
    do 14 apply longest_One. apply longest_Star.
    + repeat apply longest_One. exact Bearer.
    + apply first_disjoint_One. exact b_not_space.
Qed.

(** ** One pass of [replace] *)

Lemma replace_from_skip r m s k :
  (k <= length s)%nat ->
  replace_from r m s k = replace_from r m (skipn k s) O.
Proof.
  revert k; induction s as [|c s IH]; intros [|k] Hk; simpl in *;
    try reflexivity; try lia.
  apply IH. lia.
Qed.

Lemma replace_nil r m : exec r [] = None -> replace r m [] = [].
Proof. unfold replace. simpl. now intros ->. Qed.

Lemma replace_keep r m c s :
  exec r (c :: s) = None -> replace r m (c :: s) = c :: replace r m s.
Proof. unfold replace. simpl replace_from. now intros ->. Qed.

Lemma replace_hit r m c s n :
  exec r (c :: s) = Some (S n) ->
  replace r m (c :: s) = m ++ replace r m (skipn (S n) (c :: s)).
Proof.
  intros H. unfold replace. simpl replace_from. rewrite H.
  rewrite replace_from_skip; [reflexivity|].
  apply exec_le in H. simpl in H. lia.
Qed.

Lemma not_nullable_exec r s : ~ InLang r [] -> exec r s <> Some O.
Proof.
  intros Hr H. destruct (exec_sound _ _ _ H) as (u & v & _ & Hu & Hlen).
  destruct u; [auto|discriminate].
Qed.

Lemma replace_Redacts r m :
  ~ InLang r [] -> longest_match r -> forall s, Redacts r m s (replace r m s).
Proof.
  intros Hr Hlong s.
  remember (length s) as len eqn:Hlen.
  revert s Hlen. induction len as [len IH] using lt_wf_ind. intros s Hlen.
  destruct s as [|c s].
  - rewrite replace_nil; [constructor|].
    destruct (exec r []) as [[|n]|] eqn:E; auto.
    + now destruct (not_nullable_exec r [] Hr).
    + apply exec_le in E. simpl in E. lia.
  - destruct (exec r (c :: s)) as [[|n]|] eqn:E.
    + now destruct (not_nullable_exec r (c :: s) Hr).
    + rewrite (replace_hit _ _ _ _ _ E).
      destruct (exec_sound _ _ _ E) as (u & v & Huv & Hu & Hl).
      rewrite Huv. rewrite <- Hl. rewrite skipn_app, skipn_all, Nat.sub_diag.
      simpl skipn. simpl app at 3.
      constructor; auto.
      * intros ->. discriminate.
      * intros u' v' E' Hu'. rewrite Hl.
        rewrite <- Huv in E'. exact (Hlong _ _ E u' v' E' Hu').
      * apply (IH (length v)); [|reflexivity].
        subst len. rewrite Huv, length_app. lia.
    + rewrite (replace_keep _ _ _ _ E). constructor.
      * now apply exec_none_no_match.
      * apply (IH (length s)); [|reflexivity]. subst len. simpl. lia.
Qed.

Lemma replace_unchanged r m s :
  ~ occurs r s -> replace r m s = s.
Proof.
  induction s as [|c s IH]; intros H.
  - apply replace_nil. apply no_match_exec_none.
    intros u v E Hu. apply H. exists [], u, v. now rewrite <- E.
  - rewrite replace_keep.
    + f_equal. apply IH. intros (pre & u & post & -> & Hu).
      apply H. now exists (c :: pre), u, post.
    + apply no_match_exec_none. intros u v E Hu.
      apply H. exists [], u, v. now rewrite <- E.
Qed.

(** ** One pass is a function of the message *)

Lemma Redacts_inv r m s t :
  Redacts r m s t ->
  (s = [] /\ t = []) \/
  (exists c s0 t0,
     s = c :: s0 /\ t = c :: t0 /\ no_match_here r (c :: s0) /\
     Redacts r m s0 t0) \/
  (exists u v t0,
     s = u ++ v /\ t = m ++ t0 /\ InLang r u /\ u <> [] /\
     (forall u' v', u ++ v = u' ++ v' -> InLang r u' ->
        (length u' <= length u)%nat) /\
     Redacts r m v t0).
Proof.
  destruct 1 as [|c s t Hno H|u v t Hu Hne Hlong H].
  - left. split; reflexivity.
  - right. left. exists c, s, t. auto.
  - right. right. exists u, v, t. auto 6.
Qed.

Lemma app_same_length (u u' v v' : jsstring) :
  u ++ v = u' ++ v' -> length u = length u' -> u = u' /\ v = v'.
Proof.
  revert u'. induction u as [|c u IH]; intros [|c' u'] E L;
    try discriminate L.
  - split; [reflexivity|exact E].
  - cbn in E. injection E as -> E. injection L as L.
    destruct (IH u' E L) as [-> ->]. split; reflexivity.
Qed.

Lemma Redacts_functional r m s t :
  Redacts r m s t -> forall t', Redacts r m s t' -> t = t'.
Proof.
  induction 1 as [|c s t Hno _ IH|u v t Hu Hne Hlong _ IH]; intros t' H'.
  - destruct (Redacts_inv _ _ _ _ H')
      as [[_ ->]|[(c & s0 & t0 & E & _)|(u & v & t0 & E & _ & _ & Hne & _)]].
    + reflexivity.
    + discriminate E.
    + destruct u; [contradiction|discriminate E].
  - destruct (Redacts_inv _ _ _ _ H')
      as [[E _]|[(c' & s0 & t0 & E & -> & _ & H0)
                |(u & v & t0 & E & _ & Hu & _)]].
    + discriminate E.
    + injection E as <- <-. f_equal. now apply IH.
    + exfalso. exact (Hno u v E Hu).
  - destruct (Redacts_inv _ _ _ _ H')
      as [[E _]|[(c' & s0 & t0 & E & _ & Hno & _)
                |(u' & v' & t0 & E & -> & Hu' & Hne' & Hlong' & H0)]].
    + destruct u; [contradiction|discriminate E].
    + exfalso. exact (Hno u v (eq_sym E) Hu).
    + assert (L : length u = length u').
      { apply Nat.le_antisymm.
        - apply (Hlong' u v); [now symmetry|exact Hu].
        - apply (Hlong u' v'); [exact E|exact Hu']. }
      destruct (app_same_length _ _ _ _ E L) as [-> ->].
      f_equal. now apply IH.
Qed.

(** A message that is as a whole an occurrence is replaced by the marker. *)
Lemma replace_whole r m s :
  ~ InLang r [] -> longest_match r -> InLang r s -> replace r m s = m.
Proof.
  intros Hr Hlong Hs.
  assert (H : Redacts r m (s ++ []) (m ++ [])).
  { constructor.
    - exact Hs.
    - intros ->. contradiction.
    - intros u' v' E _. apply (f_equal (@length N)) in E.
      rewrite !length_app in E. cbn in E. lia.
    - constructor. }
  rewrite !app_nil_r in H.
  exact (Redacts_functional _ _ _ _ (replace_Redacts r m Hr Hlong s) _ H).
Qed.

(** ** Characters that stand next to each other *)

Lemma starts_app ps s post :
  starts ps s = true -> starts ps (s ++ post) = true.
Proof.
  revert s. induction ps as [|p ps IH]; intros s H; [destruct s; reflexivity|].
  destruct s as [|c s]; [discriminate H|].
  cbn [app starts] in *. apply andb_true_iff in H as [H1 H2].
  now rewrite H1, IH.
Qed.

Lemma has_factor_app_r ps a b :
  has_factor ps b = true -> has_factor ps (a ++ b) = true.
Proof.
  intros H. induction a as [|c a IH]; [exact H|].
  cbn [app has_factor]. rewrite IH. apply orb_true_r.
Qed.

Lemma has_factor_app_l ps a b :
  has_factor ps a = true -> has_factor ps (a ++ b) = true.
Proof.
  induction a as [|c a IH]; intros H.
  - cbn [has_factor] in H. rewrite orb_false_r in H.
    destruct ps; [destruct b; reflexivity|discriminate H].
  - cbn [has_factor] in H. apply orb_true_iff in H as [H|H].
    + change ((c :: a) ++ b) with (c :: a ++ b). cbn [has_factor].
      change (c :: a ++ b) with ((c :: a) ++ b).
      now rewrite (starts_app ps (c :: a) b H).
    + cbn [app has_factor]. rewrite IH by exact H. apply orb_true_r.
Qed.

Lemma has_factor_inside ps pre u post :
  has_factor ps u = true -> has_factor ps (pre ++ u ++ post) = true.
Proof.
  intros H. apply has_factor_app_r. now apply has_factor_app_l.
Qed.

(** A run of characters none of which can begin the factor is skipped. *)
Lemma has_factor_skip p ps a b :
  Forall (fun c => p c = false) a ->
  has_factor (p :: ps) (a ++ b) = has_factor (p :: ps) b.
Proof.
  induction 1 as [|c a Hc _ IH]; [reflexivity|].
  cbn [app has_factor starts]. now rewrite Hc, IH.
Qed.

Lemma has_factor_second p q ps s :
  Forall (fun c => q c = false) s -> has_factor (p :: q :: ps) s = false.
Proof.
  induction 1 as [|c s Hc Hs IH]; [reflexivity|].
  cbn [has_factor starts]. rewrite IH, orb_false_r.
  destruct Hs as [|d s Hd _]; [apply andb_false_r|].
  cbn [starts]. rewrite Hd. cbn. apply andb_false_r.
Qed.

Lemma has_factor_step p q ps c d s :
  q d = false ->
  has_factor (p :: q :: ps) (c :: d :: s) = has_factor (p :: q :: ps) (d :: s).
Proof.
  intros H.
  change (has_factor (p :: q :: ps) (c :: d :: s))
    with (p c && (q d && starts ps s) || has_factor (p :: q :: ps) (d :: s)).
  now rewrite H, andb_false_r.
Qed.

(** In a run without the second character followed by a run without the
    third, the three never stand in a row. *)
Lemma has_factor_third p q r a b :
  Forall (fun c => q c = false) a -> Forall (fun c => r c = false) b ->
  has_factor [p; q; r] (a ++ b) = false.
Proof.
  intros Ha Hb.
  assert (Hb' : has_factor [p; q; r] b = false).
  { clear Ha. induction Hb as [|c b Hc Hb IH]; [reflexivity|].
    cbn [has_factor starts]. rewrite IH, orb_false_r.
    destruct Hb as [|d b Hd Hb]; [apply andb_false_r|].
    cbn [starts].
    destruct Hb as [|e b He _]; [cbn; now rewrite !andb_false_r|].
    cbn [starts]. rewrite He. cbn. now rewrite !andb_false_r. }
  induction Ha as [|c a Hc Ha IH]; [exact Hb'|].
  cbn [app has_factor starts]. rewrite IH, orb_false_r.
  destruct Ha as [|d a Hd _].
  - cbn [app]. destruct Hb as [|e b He Hb]; [apply andb_false_r|].
    cbn [starts]. destruct Hb as [|f b Hf _]; [cbn; now rewrite !andb_false_r|].
    cbn [starts]. rewrite Hf. cbn. now rewrite !andb_false_r.
  - cbn [app starts]. rewrite Hd. cbn. apply andb_false_r.
Qed.

(** ** The words of the patterns *)

Lemma InLang_One_inv a r w :
  InLang ((a, One) :: r) w ->
  exists c u, w = c :: u /\ accepts a c = true /\ InLang r u.
Proof.
  intros H. destruct (InLang_cons_inv _ _ _ _ H) as (cs & u & -> & Hcs & Hq & Hu).
  cbn in Hq. destruct cs as [|c [|? ?]]; try discriminate Hq.
  inversion Hcs as [|? ? Hc _]; subst. exists c, u. auto.
Qed.

Lemma InLang_Plus_inv a r w :
  InLang ((a, Plus) :: r) w ->
  exists c cs u,
    w = c :: cs ++ u /\ Forall (fun c => accepts a c = true) (c :: cs) /\
    InLang r u.
Proof.
  intros H. destruct (InLang_cons_inv _ _ _ _ H) as (cs & u & -> & Hcs & Hq & Hu).
  cbn in Hq. destruct cs as [|c cs]; [cbn in Hq; lia|].
  exists c, cs, u. auto.
Qed.

Lemma InLang_Star_inv a r w :
  InLang ((a, Star) :: r) w ->
  exists cs u,
    w = cs ++ u /\ Forall (fun c => accepts a c = true) cs /\ InLang r u.
Proof.
  intros H. destruct (InLang_cons_inv _ _ _ _ H) as (cs & u & -> & Hcs & _ & Hu).
  exists cs, u. auto.
Qed.

Lemma InLang_Opt_inv a r w :
  InLang ((a, Opt) :: r) w ->
  exists cs u,
    w = cs ++ u /\ Forall (fun c => accepts a c = true) cs /\ InLang r u.
Proof.
  intros H. destruct (InLang_cons_inv _ _ _ _ H) as (cs & u & -> & Hcs & _ & Hu).
  exists cs, u. auto.
Qed.

(** A character one letter accepts is accepted by another letter only when
    the two are the same letter. *)
Lemma accepts_Chr_other p q c :
  accepts (Chr p) c = true ->
  accepts (Chr q) c = (canonicalize p =? canonicalize q).
Proof.
  cbn [accepts]. intros H. apply N.eqb_eq in H. now rewrite H.
Qed.

Lemma accepts_OneOf_other l q c :
  accepts (OneOf l) c = true ->
  forallb (fun p => negb (canonicalize p =? canonicalize q)) l = true ->
  accepts (Chr q) c = false.
Proof.
  cbn [accepts]. intros H Hl.
  apply existsb_exists in H as (p & Hp & E). apply N.eqb_eq in E.
  rewrite forallb_forall in Hl. specialize (Hl p Hp).
  rewrite E. now apply negb_true_iff in Hl.
Qed.

Lemma space_not_letter q c :
  accepts Space c = true ->
  is_space (canonicalize q) = false -> is_space (canonicalize q + 32) = false ->
  accepts (Chr q) c = false.
Proof.
  intros Hs H1 H2. apply not_true_iff_false. intros H.
  destruct (accepts_Chr _ _ H) as [->|[-> _]]; cbn [accepts] in Hs; congruence.
Qed.

Lemma token_char_not_letter q c :
  accepts TokenChar c = true ->
  is_token_char (canonicalize q) = false ->
  is_token_char (canonicalize q + 32) = false ->
  accepts (Chr q) c = false.
Proof.
  intros Hs H1 H2. apply not_true_iff_false. intros H.
  destruct (accepts_Chr _ _ H) as [->|[-> _]]; cbn [accepts] in Hs; congruence.
Qed.

Lemma equals_not_space c : accepts (Chr 61) c = true -> is_space c = false.
Proof.
  intros H. destruct (accepts_Chr _ _ H) as [->|[-> _]]; reflexivity.
Qed.

Lemma separator_cases c :
  accepts (OneOf [61; 58]) c = true -> c = 61 \/ c = 58.
Proof.
  cbn [accepts existsb]. rewrite orb_false_r. intros H.
  apply orb_true_iff in H as [H|H]; apply N.eqb_eq in H;
    unfold canonicalize at 1 in H; destruct (is_lower c) eqn:L;
    try (left; exact H); try (right; exact H);
    exfalso; unfold is_lower in L; apply andb_true_iff in L as [L1 L2];
    apply N.leb_le in L1; cbn in H; lia.
Qed.

(** ** Replacing by the marker makes no new occurrence *)

Lemma prefix_before a (u post A B : jsstring) :
  u ++ post = A ++ a :: B -> ~ In a u -> exists post', A = u ++ post'.
Proof.
  revert A; induction u as [|c u IH]; intros A E H.
  - now exists A.
  - destruct A as [|x A]; simpl in E; injection E as -> E.
    + destruct H. now left.
    + destruct (IH A E) as [post' ->].
      * intros Hin. apply H. now right.
      * now exists post'.
Qed.

Lemma factor_split a (pre u post A B : jsstring) :
  pre ++ u ++ post = A ++ a :: B -> ~ In a u ->
  (exists post', A = pre ++ u ++ post') \/ (exists pre', B = pre' ++ u ++ post).
Proof.
  revert A; induction pre as [|y pre IH]; intros A E H.
  - left. simpl in *. now apply (prefix_before _ _ _ _ _ E).
  - destruct A as [|x A]; simpl in E; injection E as -> E.
    + right. now exists pre.
    + destruct (IH A E H) as [[post' ->]|[pre' ->]].
      * left. now exists post'.
      * right. now exists pre'.
Qed.

Lemma Redacts_prefix r s t :
  Redacts r REDACTED s t ->
  forall u post, ~ In 91 u -> t = u ++ post -> exists b, s = u ++ b.
Proof.
  induction 1 as [|c s t Hno _ IH|u0 v t Hu0 Hne _ _ IH]; intros u post Hu E.
  - destruct u; [now exists []|discriminate].
  - destruct u as [|x u]; [now exists (c :: s)|].
    simpl in E. injection E as <- E.
    destruct (IH u post) as [b ->]; auto.
    + intros Hin. apply Hu. now right.
    + now exists b.
  - destruct u as [|x u]; [now exists (u0 ++ v)|].
    simpl in E. injection E as <- E. destruct Hu. now left.
Qed.

Lemma Redacts_factor r s t :
  Redacts r REDACTED s t ->
  forall pre u post,
    no_bracket u -> u <> [] -> t = pre ++ u ++ post ->
    (exists a b, js "REDACTED" = a ++ u ++ b) \/
    (exists a b, s = a ++ u ++ b /\ no_match_here r (u ++ b)).
Proof.
  induction 1 as [|c s t Hno Hst IH|u0 v t Hu0 Hne _ Hst IH];
    intros pre u post Hu Hnil E.
  - destruct pre; destruct u; try discriminate. now destruct Hnil.
  - destruct pre as [|y pre].
    + destruct u as [|x u]; [now destruct Hnil|].
      simpl in E. injection E as <- E.
      destruct (Redacts_prefix _ _ _ Hst u post) as [b ->]; auto.
      * intros Hin. apply (proj1 Hu). now right.
      * right. exists [], b. split; [reflexivity|exact Hno].
    + simpl in E. injection E as <- E.
      destruct (IH pre u post Hu Hnil E) as [L|(a & b & -> & Hb)]; [now left|].
      right. exists (c :: a), b. split; [reflexivity|exact Hb].
  - change REDACTED with (91 :: js "REDACTED" ++ [93]) in E.
    destruct pre as [|y pre].
    + destruct u as [|x u]; [now destruct Hnil|].
      simpl in E. injection E as <- _. destruct (proj1 Hu). now left.
    + simpl in E. injection E as <- E.
      symmetry in E.
      change (pre ++ u ++ post = js "REDACTED" ++ 93 :: t) in E.
      destruct (factor_split _ _ _ _ _ _ E (proj2 Hu)) as [[post' Hm]|[pre' Ht]].
      * left. now exists pre, post'.
      * destruct (IH pre' u post Hu Hnil Ht) as [L|(a & b & -> & Hb)]; [now left|].
        right. exists (u0 ++ a), b. split; [now rewrite <- app_assoc|exact Hb].
Qed.

Lemma InLang_alphabet r u :
  InLang r u -> Forall (fun c => alphabet r c = true) u.
Proof.
  induction 1 as [|a q r cs u Hcs _ _ IH]; [constructor|].
  apply Forall_app. split.
  - eapply Forall_impl; [|exact Hcs]. intros c Hc.
    unfold alphabet. simpl. now rewrite Hc.
  - eapply Forall_impl; [|exact IH]. intros c Hc.
    unfold alphabet in *. simpl. rewrite Hc. apply orb_true_r.
Qed.

Lemma marker_proof_spec r :
  marker_proof r = true ->
  (forall u, InLang r u -> no_bracket u /\ u <> []) /\
  (forall a u b, InLang r u -> js "REDACTED" <> a ++ u ++ b).
Proof.
  unfold marker_proof. intros H.
  apply andb_true_iff in H as [H Hmid].
  apply andb_true_iff in H as [H Hnil].
  apply andb_true_iff in H as [H91 H93].
  apply negb_true_iff in H91, H93.
  split.
  - intros u Hu. split.
    + pose proof (InLang_alphabet _ _ Hu) as Ha. rewrite Forall_forall in Ha.
      split; intros Hin; apply Ha in Hin; congruence.
    + intros ->. pose proof (exec_complete _ _ Hu []) as Hx. simpl in Hx.
      destruct (exec r []); [discriminate|contradiction].
  - intros a u b Hu E.
    pose proof (exec_complete _ _ Hu b) as Hx.
    assert (Hs : u ++ b = skipn (length a) (js "REDACTED")).
    { rewrite E, skipn_app, skipn_all, Nat.sub_diag. reflexivity. }
    assert (Hl : (length a < 9)%nat).
    { apply (f_equal (@length N)) in E. rewrite length_app in E.
      change (length (js "REDACTED")) with 8%nat in E. lia. }
    rewrite forallb_forall in Hmid.
    specialize (Hmid (length a)). rewrite <- Hs in Hmid.
    destruct (exec r (u ++ b)); [|contradiction].
    assert (Hin : In (length a) (seq 0 9)) by (apply in_seq; lia).
    apply Hmid in Hin. discriminate.
Qed.

Lemma Redacts_no_occurrence r s t :
  marker_proof r = true ->
  Redacts r REDACTED s t -> ~ occurs r t.
Proof.
  intros Hr Hst (pre & u & post & E & Hu).
  destruct (marker_proof_spec _ Hr) as [Hshape Hmid].
  destruct (Hshape u Hu) as [Hnb Hne].
  destruct (Redacts_factor _ _ _ Hst _ _ _ Hnb Hne E) as [(a & b & Em)|(a & b & _ & Hno)].
  - now apply (Hmid a u b Hu).
  - now apply (Hno u b eq_refl).
Qed.

Lemma Redacts_preserves r q s t :
  marker_proof q = true ->
  Redacts r REDACTED s t -> ~ occurs q s -> ~ occurs q t.
Proof.
  intros Hq Hst Hs (pre & u & post & E & Hu).
  destruct (marker_proof_spec _ Hq) as [Hshape Hmid].
  destruct (Hshape u Hu) as [Hnb Hne].
  destruct (Redacts_factor _ _ _ Hst _ _ _ Hnb Hne E) as [(a & b & Em)|(a & b & Es & _)].
  - now apply (Hmid a u b Hu).
  - apply Hs. now exists a, u, b.
Qed.

Lemma sensitivePatterns_marker_proof r :
  In r sensitivePatterns -> marker_proof r = true.
Proof.
  intros [<-|[<-|[<-|[<-|[]]]]]; vm_compute; reflexivity.
Qed.

Lemma sensitivePatterns_not_nullable r :
  In r sensitivePatterns -> ~ InLang r [].
Proof.
  intros Hr Hu.
  destruct (marker_proof_spec _ (sensitivePatterns_marker_proof _ Hr)) as [Hshape _].
  now destruct (Hshape [] Hu) as [_ Hne].
Qed.

(** ** [sanitizeErrorMessage] *)

Lemma redact_passes message :
  redact message =
  replace authorization_pattern REDACTED
    (replace client_secret_pattern REDACTED
       (replace token_pattern REDACTED
          (replace bearer_pattern REDACTED message))).
Proof. reflexivity. Qed.

Lemma redact_secret_free message : secret_free (redact message).
Proof.
  rewrite redact_passes.
  set (s1 := replace bearer_pattern REDACTED message).
  set (s2 := replace token_pattern REDACTED s1).
  set (s3 := replace client_secret_pattern REDACTED s2).
  set (s4 := replace authorization_pattern REDACTED s3).
  assert (P : forall r, In r sensitivePatterns ->
                forall s, Redacts r REDACTED s (replace r REDACTED s)).
  { intros r Hr. apply replace_Redacts;
      [now apply sensitivePatterns_not_nullable|now apply sensitivePatterns_longest]. }
  assert (B : In bearer_pattern sensitivePatterns) by (simpl; auto).
  assert (T : In token_pattern sensitivePatterns) by (simpl; auto).
  assert (C : In client_secret_pattern sensitivePatterns) by (simpl; auto).
  assert (A : In authorization_pattern sensitivePatterns) by (simpl; tauto).
  pose proof (P _ B message) as R1. pose proof (P _ T s1) as R2.
  pose proof (P _ C s2) as R3. pose proof (P _ A s3) as R4.
  fold s1 in R1. fold s2 in R2. fold s3 in R3. fold s4 in R4.
  pose proof sensitivePatterns_marker_proof as Hm.
  intros r [<-|[<-|[<-|[<-|[]]]]].
  - apply (Redacts_preserves _ _ _ _ (Hm _ B) R4).
    apply (Redacts_preserves _ _ _ _ (Hm _ B) R3).
    apply (Redacts_preserves _ _ _ _ (Hm _ B) R2).
    apply (Redacts_no_occurrence _ _ _ (Hm _ B) R1).
  - apply (Redacts_preserves _ _ _ _ (Hm _ T) R4).
    apply (Redacts_preserves _ _ _ _ (Hm _ T) R3).
    apply (Redacts_no_occurrence _ _ _ (Hm _ T) R2).
  - apply (Redacts_preserves _ _ _ _ (Hm _ C) R4).
    apply (Redacts_no_occurrence _ _ _ (Hm _ C) R3).
  - apply (Redacts_no_occurrence _ _ _ (Hm _ A) R4).
Qed.

Lemma redact_unchanged message : secret_free message -> redact message = message.
Proof.
  intros H. rewrite redact_passes.
  rewrite (replace_unchanged bearer_pattern) by (apply H; simpl; auto).
  rewrite (replace_unchanged token_pattern) by (apply H; simpl; auto).
  rewrite (replace_unchanged client_secret_pattern) by (apply H; simpl; auto).
  apply replace_unchanged. apply H. simpl; tauto.
Qed.

(** ** The fourth pass never finds anything *)

Lemma InLang_app_inv r1 r2 : forall u,
  InLang (r1 ++ r2) u ->
  exists u1 u2, u = u1 ++ u2 /\ InLang r1 u1 /\ InLang r2 u2.
Proof.
  induction r1 as [|[a q] r1 IH]; intros u H.
  - exists [], u. split; [reflexivity|]. split; [constructor|exact H].
  - simpl in H. inversion H as [|a' q' r' cs u' Hcs Hq Hu']; subst.
    destruct (IH _ Hu') as (u1 & u2 & -> & H1 & H2).
    exists (cs ++ u1), u2. rewrite app_assoc. split; [reflexivity|].
    split; [now constructor|exact H2].
Qed.

Lemma InLang_same_sets r r' :
  same_sets r r' -> forall u, InLang r u -> InLang r' u.
Proof.
  induction 1 as [|[a q] [a' q'] r r' [Hq Ha] _ IH]; intros u H.
  - exact H.
  - simpl in Hq, Ha. subst q'.
    inversion H as [|a0 q0 r0 cs u' Hcs Hn Hu']; subst.
    constructor; auto.
    eapply Forall_impl; [|exact Hcs]. intros c Hc. now rewrite <- Ha.
Qed.

(** An authorization header holds a bearer token. *)
Lemma authorization_holds_bearer u :
  InLang authorization_pattern u -> occurs bearer_pattern u.
Proof.
  intros H.
  change authorization_pattern
    with ((lit "authorization:" ++ [(Space, Star)]) ++
          (lit "bearer" ++ [(Space, Plus); (TokenChar, Plus); (Chr 61, Star)])) in H.
  destruct (InLang_app_inv _ _ _ H) as (u1 & u2 & -> & _ & H2).
  exists u1, u2, []. rewrite app_nil_r. split; [reflexivity|].
  revert H2. apply InLang_same_sets.
  unfold bearer_pattern, lit. simpl.
  repeat (constructor; [split; [reflexivity|intros c; reflexivity]|]).
  constructor.
Qed.

Lemma occurs_inside r u pre post : occurs r u -> occurs r (pre ++ u ++ post).
Proof.
  intros (a & v & b & -> & Hv).
  exists (pre ++ a), v, (b ++ post). split; [|exact Hv].
  now rewrite <- !app_assoc.
Qed.

Lemma authorization_pass_idle message :
  redact message =
  replace client_secret_pattern REDACTED
    (replace token_pattern REDACTED
       (replace bearer_pattern REDACTED message)).
Proof.
  rewrite redact_passes.
  set (s1 := replace bearer_pattern REDACTED message).
  set (s2 := replace token_pattern REDACTED s1).
  set (s3 := replace client_secret_pattern REDACTED s2).
  apply replace_unchanged.
  assert (P : forall r, In r sensitivePatterns ->
                forall s, Redacts r REDACTED s (replace r REDACTED s)).
  { intros r Hr. apply replace_Redacts;
      [now apply sensitivePatterns_not_nullable|now apply sensitivePatterns_longest]. }
  assert (B : In bearer_pattern sensitivePatterns) by (simpl; auto).
  assert (N : ~ occurs bearer_pattern s3).
  { apply (Redacts_preserves client_secret_pattern _ s2 _
             (sensitivePatterns_marker_proof _ B)); [apply P; simpl; auto|].
    apply (Redacts_preserves token_pattern _ s1 _
             (sensitivePatterns_marker_proof _ B)); [apply P; simpl; auto|].
    apply (Redacts_no_occurrence _ message _ (sensitivePatterns_marker_proof _ B)).
    apply P; exact B. }
  intros (pre & u & post & E & Hu). apply N. rewrite E.
  apply occurs_inside. now apply authorization_holds_bearer.
Qed.

Lemma sanitizeErrorMessage_long message :
  (500 < length (redact message))%nat ->
  sanitizeErrorMessage message = firstn 500 (redact message) ++ ELLIPSIS /\
  length (sanitizeErrorMessage message) = 503%nat.
Proof.
  intros H. unfold sanitizeErrorMessage.
  apply Nat.ltb_lt in H. rewrite H. split; [reflexivity|].
  apply Nat.ltb_lt in H.
  rewrite length_app, firstn_length_le by lia. reflexivity.
Qed.

Lemma sanitizeErrorMessage_short message :
  (length (redact message) <= 500)%nat ->
  sanitizeErrorMessage message = redact message.
Proof.
  intros H. unfold sanitizeErrorMessage.
  apply Nat.ltb_ge in H. now rewrite H.
Qed.

(** ** What the words of one pattern hold of another *)

Ltac normal_pattern H :=
  match type of H with
  | InLang ?r _ => let r' := eval vm_compute in r in change r with r' in H
  end.

Ltac open_One H :=
  let c := fresh "c" in
  let u := fresh "u" in
  let A := fresh "A" in
  let H' := fresh "H" in
  destruct (InLang_One_inv _ _ _ H) as (c & u & -> & A & H');
  clear H; rename H' into H.

Ltac other_letter :=
  match goal with
  | A : accepts (Chr ?p) ?c = true |- accepts (Chr ?q) ?c = false =>
    rewrite (accepts_Chr_other p q c A); reflexivity
  | A : accepts (OneOf ?l) ?c = true |- accepts (Chr ?q) ?c = false =>
    apply (accepts_OneOf_other l q c A); reflexivity
  end.

(** A bearer token has an "r" followed by whitespace. *)
Lemma bearer_has_factor u :
  InLang bearer_pattern u -> has_factor [letter_r; is_space] u = true.
Proof.
  intros H. normal_pattern H.
  do 5 open_One H.
  destruct (InLang_One_inv _ _ _ H) as (r & z' & -> & Ar & H').
  destruct (InLang_Plus_inv _ _ _ H') as (sp & sps & z'' & -> & Hsp & _).
  inversion Hsp as [|? ? Hsp' _]; subst.
  match goal with
  | |- has_factor _ (?c1 :: ?c2 :: ?c3 :: ?c4 :: ?c5 :: ?rest) = true =>
    change (has_factor [letter_r; is_space] ([c1; c2; c3; c4; c5] ++ rest) = true)
  end.
  apply has_factor_app_r. cbn [has_factor starts]. unfold letter_r.
  rewrite Ar. cbn [accepts] in Hsp'. rewrite Hsp'. reflexivity.
Qed.

(** A [token] pair has an "n", then "=" or ":", then whitespace or a
    character of the value. *)
Lemma token_has_factor u :
  InLang token_pattern u ->
  has_factor [letter_n; separator; value_start] u = true.
Proof.
  intros H. normal_pattern H.
  do 4 open_One H.
  destruct (InLang_One_inv _ _ _ H) as (n & z1 & -> & An & H1).
  destruct (InLang_One_inv _ _ _ H1) as (x & z2 & -> & Ax & H2).
  destruct (InLang_Star_inv _ _ _ H2) as (ws & z3 & -> & Hws & H3).
  destruct (InLang_Plus_inv _ _ _ H3) as (tk & tks & z4 & -> & Htk & _).
  inversion Htk as [|? ? Htk' _]; subst.
  match goal with
  | |- has_factor _ (?c1 :: ?c2 :: ?c3 :: ?c4 :: ?rest) = true =>
    change (has_factor [letter_n; separator; value_start]
                       ([c1; c2; c3; c4] ++ rest) = true)
  end.
  apply has_factor_app_r. cbn [has_factor starts]. unfold letter_n, separator.
  rewrite An, Ax. cbn [andb].
  destruct Hws as [|w ws Hw _]; cbn [app starts]; unfold value_start.
  - cbn [accepts] in Htk'. rewrite Htk'. now rewrite orb_true_r.
  - cbn [accepts] in Hw. rewrite Hw. reflexivity.
Qed.

Lemma not_space_value tk tks eqs :
  Forall (fun c => accepts TokenChar c = true) (tk :: tks) ->
  Forall (fun c => accepts (Chr 61) c = true) eqs ->
  Forall (fun c => is_space c = false) ((tk :: tks) ++ eqs).
Proof.
  intros Htk Heq. apply Forall_app. split.
  - eapply Forall_impl; [|exact Htk]. exact token_char_not_space.
  - eapply Forall_impl; [|exact Heq]. exact equals_not_space.
Qed.

Lemma spaces_not_letter q ws :
  is_space (canonicalize q) = false -> is_space (canonicalize q + 32) = false ->
  Forall (fun c => accepts Space c = true) ws ->
  Forall (fun c => accepts (Chr q) c = false) ws.
Proof.
  intros H1 H2 Hws. eapply Forall_impl; [|exact Hws].
  intros c Hc. now apply space_not_letter.
Qed.

(** The value of a pair and the "=" after it: no "n", separator and value
    start stand in a row there. *)
Lemma value_no_token_factor tk tks eqs :
  Forall (fun c => accepts TokenChar c = true) (tk :: tks) ->
  Forall (fun c => accepts (Chr 61) c = true) eqs ->
  has_factor [letter_n; separator; value_start] ((tk :: tks) ++ eqs) = false.
Proof.
  intros Htk Heq. apply has_factor_third.
  - eapply Forall_impl; [|exact Htk]. intros c Hc.
    apply not_true_iff_false. intros Hs.
    destruct (separator_cases c Hs) as [-> | ->]; discriminate Hc.
  - eapply Forall_impl; [|exact Heq]. intros c Hc.
    destruct (accepts_Chr _ _ Hc) as [->|[-> _]]; reflexivity.
Qed.

(** The words of the [token] pattern hold no bearer token. *)
Lemma token_word_no_bearer s :
  InLang token_pattern s -> ~ occurs bearer_pattern s.
Proof.
  intros H (pre & u & post & E & Hu).
  assert (F : has_factor [letter_r; is_space] s = true).
  { rewrite E. apply has_factor_inside. now apply bearer_has_factor. }
  clear E Hu. revert F. normal_pattern H.
  do 6 open_One H.
  destruct (InLang_Star_inv _ _ _ H) as (ws & z1 & -> & Hws & H1).
  destruct (InLang_Plus_inv _ _ _ H1) as (tk & tks & z2 & -> & Htk & H2).
  destruct (InLang_Star_inv _ _ _ H2) as (eqs & z3 & -> & Heq & H3).
  apply InLang_nil_inv in H3. subst z3. rewrite app_nil_r.
  match goal with
  | |- has_factor _ (?c1 :: ?c2 :: ?c3 :: ?c4 :: ?c5 :: ?c6 :: ws ++ ?rest) = true -> _ =>
    change (has_factor [letter_r; is_space]
              (([c1; c2; c3; c4; c5; c6] ++ ws) ++ ((tk :: tks) ++ eqs)) = true
            -> False)
  end.
  rewrite has_factor_skip.
  - rewrite has_factor_second; [discriminate|].
    now apply not_space_value.
  - apply Forall_app. split.
    + unfold letter_r. repeat (constructor; [other_letter|]). constructor.
    + now apply spaces_not_letter.
Qed.

(** Nor do the words of the [client_secret] pattern. *)
Lemma client_secret_word_no_bearer s :
  InLang client_secret_pattern s -> ~ occurs bearer_pattern s.
Proof.
  intros H (pre & u & post & E & Hu).
  assert (F : has_factor [letter_r; is_space] s = true).
  { rewrite E. apply has_factor_inside. now apply bearer_has_factor. }
  clear E Hu. revert F. normal_pattern H.
  do 6 open_One H.
  destruct (InLang_Opt_inv _ _ _ H) as (opt & z0 & -> & Hopt & H0).
  clear H. rename H0 into H.
  do 7 open_One H.
  destruct (InLang_Star_inv _ _ _ H) as (ws & z1 & -> & Hws & H1).
  destruct (InLang_Plus_inv _ _ _ H1) as (tk & tks & z2 & -> & Htk & H2).
  destruct (InLang_Star_inv _ _ _ H2) as (eqs & z3 & -> & Heq & H3).
  apply InLang_nil_inv in H3. subst z3. rewrite app_nil_r.
  match goal with
  | |- has_factor _ (?c1 :: ?c2 :: ?c3 :: ?c4 :: ?c5 :: ?c6 ::
                     opt ++ ?s1 :: ?s2 :: ?s3 :: ?r :: ?e :: ?rest) = true -> _ =>
    change (has_factor [letter_r; is_space]
              ([c1; c2; c3; c4; c5; c6] ++ opt ++ [s1; s2; s3]
               ++ r :: e :: rest) = true -> False)
  end.
  rewrite has_factor_skip
    by (unfold letter_r; repeat (constructor; [other_letter|]); constructor).
  rewrite has_factor_skip.
  2:{ unfold letter_r. eapply Forall_impl; [|exact Hopt]. intros o Ho.
      apply (accepts_OneOf_other _ _ _ Ho). reflexivity. }
  rewrite has_factor_skip
    by (unfold letter_r; repeat (constructor; [other_letter|]); constructor).
  match goal with
  | |- has_factor _ (?r :: ?e :: ?t :: ?x :: ws ++ ?rest) = true -> _ =>
    assert (Se : is_space e = false);
    [|rewrite (has_factor_step letter_r is_space [] r e _ Se);
      change (e :: t :: x :: ws ++ rest) with (([e; t; x] ++ ws) ++ rest)]
  end.
  { match goal with
    | A : accepts (Chr 101) ?e = true |- is_space ?e = false =>
      destruct (accepts_Chr _ _ A) as [->|[-> _]]; reflexivity
    end. }
  rewrite has_factor_skip.
  2:{ unfold letter_r. apply Forall_app. split.
      - repeat (constructor; [other_letter|]). constructor.
      - now apply spaces_not_letter. }
  change (tk :: tks ++ eqs) with ((tk :: tks) ++ eqs).
  rewrite (has_factor_second letter_r is_space [] ((tk :: tks) ++ eqs))
    by now apply not_space_value.
  discriminate.
Qed.

(** Nor do they hold a [token] pair: the value may end in "token=", but
    nothing of a value comes after that. *)
Lemma client_secret_word_no_token s :
  InLang client_secret_pattern s -> ~ occurs token_pattern s.
Proof.
  intros H (pre & u & post & E & Hu).
  assert (F : has_factor [letter_n; separator; value_start] s = true).
  { rewrite E. apply has_factor_inside. now apply token_has_factor. }
  clear E Hu. revert F. normal_pattern H.
  do 4 open_One H.
  destruct (InLang_One_inv _ _ _ H) as (n & y0 & -> & An & H').
  clear H. rename H' into H.
  destruct (InLang_One_inv _ _ _ H) as (t & y1 & -> & At & H').
  clear H. rename H' into H.
  destruct (InLang_Opt_inv _ _ _ H) as (opt & z0 & -> & Hopt & H0).
  clear H. rename H0 into H.
  do 7 open_One H.
  destruct (InLang_Star_inv _ _ _ H) as (ws & z1 & -> & Hws & H1).
  destruct (InLang_Plus_inv _ _ _ H1) as (tk & tks & z2 & -> & Htk & H2).
  destruct (InLang_Star_inv _ _ _ H2) as (eqs & z3 & -> & Heq & H3).
  apply InLang_nil_inv in H3. subst z3. rewrite app_nil_r.
  match goal with
  | |- has_factor _ (?c1 :: ?c2 :: ?c3 :: ?c4 :: n :: t :: ?rest) = true -> _ =>
    change (has_factor [letter_n; separator; value_start]
              ([c1; c2; c3; c4] ++ n :: t :: rest) = true -> False)
  end.
  rewrite has_factor_skip
    by (unfold letter_n; repeat (constructor; [other_letter|]); constructor).
  cbn [has_factor starts].
  assert (St : separator t = false).
  { apply not_true_iff_false. intros Hs.
    destruct (separator_cases t Hs) as [-> | ->]; discriminate At. }
  rewrite St, andb_false_r. cbn [andb orb].
  match goal with
  | |- (_ && _ || has_factor _ (opt ++ ?s1 :: ?s2 :: ?s3 :: ?s4 :: ?s5 :: ?s6 ::
                                ?x :: ws ++ ?rest)) = true -> _ =>
    change (opt ++ s1 :: s2 :: s3 :: s4 :: s5 :: s6 :: x :: ws ++ rest)
      with (opt ++ ([s1; s2; s3; s4; s5; s6; x] ++ ws) ++ rest)
  end.
  assert (Nt : letter_n t = false) by (unfold letter_n; other_letter).
  rewrite Nt. cbn [andb orb].
  rewrite has_factor_skip.
  2:{ unfold letter_n. eapply Forall_impl; [|exact Hopt]. intros o Ho.
      apply (accepts_OneOf_other _ _ _ Ho). reflexivity. }
  rewrite has_factor_skip.
  2:{ unfold letter_n. apply Forall_app. split.
      - repeat (constructor; [other_letter|]). constructor.
      - now apply spaces_not_letter. }
  change (tk :: tks ++ eqs) with ((tk :: tks) ++ eqs).
  now rewrite (value_no_token_factor tk tks eqs Htk Heq).
Qed.

Lemma REDACTED_passes :
  replace token_pattern REDACTED REDACTED = REDACTED /\
  replace client_secret_pattern REDACTED REDACTED = REDACTED /\
  replace authorization_pattern REDACTED REDACTED = REDACTED.
Proof. vm_compute. repeat split. Qed.

(** A message that is as a whole an occurrence of one of the first three
    patterns comes back as the marker. *)
Lemma sanitizeErrorMessage_whole r s :
  In r [bearer_pattern; token_pattern; client_secret_pattern] ->
  InLang r s -> sanitizeErrorMessage s = REDACTED.
Proof.
  intros Hr Hs.
  destruct REDACTED_passes as (P2 & P3 & P4).
  assert (W : forall q, In q sensitivePatterns -> InLang q s ->
                        replace q REDACTED s = REDACTED).
  { intros q Hq. apply replace_whole;
      [now apply sensitivePatterns_not_nullable|now apply sensitivePatterns_longest]. }
  assert (R : redact s = REDACTED).
  { rewrite redact_passes.
    destruct Hr as [<-|[<-|[<-|[]]]].
    - rewrite (W bearer_pattern) by (cbn; auto). now rewrite P2, P3, P4.
    - rewrite (replace_unchanged bearer_pattern)
        by now apply token_word_no_bearer.
      rewrite (W token_pattern) by (cbn; auto). now rewrite P3, P4.
    - rewrite (replace_unchanged bearer_pattern)
        by now apply client_secret_word_no_bearer.
      rewrite (replace_unchanged token_pattern)
        by now apply client_secret_word_no_token.
      rewrite (W client_secret_pattern) by (cbn; auto). now rewrite P4. }
  rewrite sanitizeErrorMessage_short; rewrite R; [reflexivity|].
  vm_compute. lia.
Qed.

(** ** An authorization header as a whole *)

Lemma Redacts_keep_prefix r m h s t :
  Forall (fun c => forall s', exec r (c :: s') = None) h ->
  Redacts r m s t -> Redacts r m (h ++ s) (h ++ t).
Proof.
  intros Hh Hst. induction Hh as [|c h Hc _ IH]; [exact Hst|].
  cbn [app]. constructor; [|exact IH].
  apply exec_none_no_match. apply Hc.
Qed.

Lemma bearer_needs_b c s : letter_b c = false -> exec bearer_pattern (c :: s) = None.
Proof.
  intros H. unfold letter_b in H.
  change (exec bearer_pattern (c :: s))
    with (if accepts (Chr 66) c
          then option_map S (exec (tl bearer_pattern) s) else None).
  change (accepts (Chr 66) c) with (accepts (Chr 98) c).
  now rewrite H.
Qed.

Lemma token_has_k u : InLang token_pattern u -> has_factor [letter_k] u = true.
Proof.
  intros H. normal_pattern H.
  do 2 open_One H.
  destruct (InLang_One_inv _ _ _ H) as (k & z1 & -> & Ak & _).
  match goal with
  | |- has_factor _ (?c1 :: ?c2 :: ?rest) = true =>
    change (has_factor [letter_k] ([c1; c2] ++ rest) = true)
  end.
  apply has_factor_app_r. cbn [has_factor starts]. unfold letter_k.
  now rewrite Ak.
Qed.

Lemma client_secret_has_l u :
  InLang client_secret_pattern u -> has_factor [letter_l] u = true.
Proof.
  intros H. normal_pattern H.
  do 1 open_One H.
  destruct (InLang_One_inv _ _ _ H) as (l & z1 & -> & Al & _).
  match goal with
  | |- has_factor _ (?c1 :: ?rest) = true =>
    change (has_factor [letter_l] ([c1] ++ rest) = true)
  end.
  apply has_factor_app_r. cbn [has_factor starts]. unfold letter_l.
  now rewrite Al.
Qed.

(** The name of the header and the whitespace after it: no "b", no "k" and
    no "l". *)
Lemma header_name_letters h :
  InLang (lit "authorization:" ++ [(Space, Star)]) h ->
  Forall (fun c => letter_b c = false) h /\
  Forall (fun c => letter_k c = false) h /\
  Forall (fun c => letter_l c = false) h.
Proof.
  intros H. normal_pattern H.
  do 14 open_One H.
  destruct (InLang_Star_inv _ _ _ H) as (ws & z1 & -> & Hws & H1).
  apply InLang_nil_inv in H1. subst z1. rewrite app_nil_r.
  unfold letter_b, letter_k, letter_l.
  split; [|split];
    repeat (constructor; [other_letter|]);
    now apply spaces_not_letter.
Qed.

(** In a message that is as a whole an authorization header, the bearer
    token, and nothing else, is replaced by the marker. *)
Lemma redact_authorization s :
  InLang authorization_pattern s ->
  exists h b,
    s = h ++ b /\
    InLang (lit "authorization:" ++ [(Space, Star)]) h /\
    InLang bearer_pattern b /\
    redact s = h ++ REDACTED.
Proof.
  intros H.
  change authorization_pattern
    with ((lit "authorization:" ++ [(Space, Star)]) ++
          (lit "bearer" ++ [(Space, Plus); (TokenChar, Plus); (Chr 61, Star)])) in H.
  destruct (InLang_app_inv _ _ _ H) as (h & b & -> & Hh & Hb).
  assert (Hb' : InLang bearer_pattern b).
  { revert Hb. apply InLang_same_sets.
    unfold bearer_pattern, lit. simpl.
    repeat (constructor; [split; [reflexivity|intros c; reflexivity]|]).
    constructor. }
  exists h, b. split; [reflexivity|]. split; [exact Hh|]. split; [exact Hb'|].
  destruct (header_name_letters h Hh) as (Nb & Nk & Nl).
  assert (B : In bearer_pattern sensitivePatterns) by (cbn; auto).
  assert (P1 : replace bearer_pattern REDACTED (h ++ b) = h ++ REDACTED).
  { symmetry.
    apply (Redacts_functional bearer_pattern REDACTED (h ++ b)).
    - replace (h ++ REDACTED) with (h ++ REDACTED ++ []) by now rewrite app_nil_r.
      replace (h ++ b) with (h ++ b ++ []) by now rewrite app_nil_r.
      apply Redacts_keep_prefix.
      + eapply Forall_impl; [|exact Nb]. intros c Hc s'.
        now apply bearer_needs_b.
      + constructor.
        * exact Hb'.
        * intros ->. exact (sensitivePatterns_not_nullable _ B Hb').
        * intros u' v' E _. apply (f_equal (@length N)) in E.
          rewrite !length_app in E. cbn in E. lia.
        * constructor.
    - apply replace_Redacts;
        [now apply sensitivePatterns_not_nullable|now apply sensitivePatterns_longest]. }
  rewrite authorization_pass_idle, P1.
  rewrite (replace_unchanged token_pattern).
  2:{ intros (pre & u & post & E & Hu).
      pose proof (has_factor_inside [letter_k] pre u post (token_has_k u Hu)) as F.
      rewrite <- E, (has_factor_skip letter_k [] h REDACTED Nk) in F.
      vm_compute in F. discriminate F. }
  apply replace_unchanged.
  intros (pre & u & post & E & Hu).
  pose proof (has_factor_inside [letter_l] pre u post (client_secret_has_l u Hu)) as F.
  rewrite <- E, (has_factor_skip letter_l [] h REDACTED Nl) in F.
  vm_compute in F. discriminate F.
Qed.

(** C3, as amended.  The four patterns are applied one after the other, in
    the order bearer token, token=/token:, client_secret/client-secret,
    authorization header.  Each pass reads the string the pass before left
    from the left: a character at which no occurrence starts is kept, and
    where occurrences start the longest of them is replaced by the marker,
    the pass resuming after it; this determines the outcome of each pass.
    The last pass finds nothing, the first having taken the bearer token out
    of every authorization header, and no occurrence of any of the four
    patterns is left in the redacted string.
    A message that is as a whole an occurrence of one of the first three
    patterns comes back as the marker alone; one that is as a whole an
    authorization header keeps the name of the header and the whitespace
    after it, and has its bearer token replaced by the marker.
    A redacted string longer than 500 characters is cut to its first 500
    characters followed by the ellipsis, so a 600-character message with
    no sensitive pattern gives 503 characters ending in the ellipsis, and
    a message of at most 500 characters with no sensitive pattern comes
    back unchanged. *)
Theorem sanitizeErrorMessage_spec (message : jsstring) :
  (exists s1 s2 s3 s4,
     Redacts bearer_pattern REDACTED message s1 /\
     Redacts token_pattern REDACTED s1 s2 /\
     Redacts client_secret_pattern REDACTED s2 s3 /\
     Redacts authorization_pattern REDACTED s3 s4 /\
     s4 = s3 /\
     secret_free s4 /\
     sanitizeErrorMessage message =
       (if (500 <? length s4)%nat then firstn 500 s4 ++ ELLIPSIS else s4)) /\
  (forall s1 s2 s3 s4,
     Redacts bearer_pattern REDACTED message s1 ->
     Redacts token_pattern REDACTED s1 s2 ->
     Redacts client_secret_pattern REDACTED s2 s3 ->
     Redacts authorization_pattern REDACTED s3 s4 ->
     sanitizeErrorMessage message =
       (if (500 <? length s4)%nat then firstn 500 s4 ++ ELLIPSIS else s4)) /\
  (forall r, In r [bearer_pattern; token_pattern; client_secret_pattern] ->
     InLang r message -> sanitizeErrorMessage message = REDACTED) /\
  (InLang authorization_pattern message ->
     exists h b,
       message = h ++ b /\
       InLang (lit "authorization:" ++ [(Space, Star)]) h /\
       InLang bearer_pattern b /\
       ((length h <= 490)%nat -> sanitizeErrorMessage message = h ++ REDACTED)) /\
  (secret_free message -> length message = 600%nat ->
   length (sanitizeErrorMessage message) = 503%nat /\
   ends_with ELLIPSIS (sanitizeErrorMessage message) /\
   firstn 500 (sanitizeErrorMessage message) = firstn 500 message) /\
  (secret_free message -> (length message <= 500)%nat ->
   sanitizeErrorMessage message = message).
Proof.
  assert (P : forall r, In r sensitivePatterns ->
                forall s, Redacts r REDACTED s (replace r REDACTED s)).
  { intros r Hr. apply replace_Redacts;
      [now apply sensitivePatterns_not_nullable|now apply sensitivePatterns_longest]. }
  split; [|split; [|split; [|split; [|split]]]].
  - exists (replace bearer_pattern REDACTED message).
    exists (replace token_pattern REDACTED (replace bearer_pattern REDACTED message)).
    exists (replace client_secret_pattern REDACTED
              (replace token_pattern REDACTED
                 (replace bearer_pattern REDACTED message))).
    exists (redact message).
    split; [apply P; simpl; auto|].
    split; [apply P; simpl; auto|].
    split; [apply P; simpl; auto|].
    split; [rewrite redact_passes; apply P; simpl; tauto|].
    split; [apply authorization_pass_idle|].
    split; [apply redact_secret_free|].
    reflexivity.
  - intros s1 s2 s3 s4 R1 R2 R3 R4.
    assert (E1 : replace bearer_pattern REDACTED message = s1).
    { apply (Redacts_functional _ _ _ _ (P bearer_pattern ltac:(simpl; auto) message) _ R1). }
    assert (E2 : replace token_pattern REDACTED s1 = s2).
    { apply (Redacts_functional _ _ _ _ (P token_pattern ltac:(simpl; auto) s1) _ R2). }
    assert (E3 : replace client_secret_pattern REDACTED s2 = s3).
    { apply (Redacts_functional _ _ _ _ (P client_secret_pattern ltac:(simpl; auto) s2) _ R3). }
    assert (E4 : replace authorization_pattern REDACTED s3 = s4).
    { apply (Redacts_functional _ _ _ _ (P authorization_pattern ltac:(simpl; tauto) s3) _ R4). }
    unfold sanitizeErrorMessage. cbv zeta.
    rewrite redact_passes, E1, E2, E3, E4. reflexivity.
  - intros r. apply sanitizeErrorMessage_whole.
  - intros H. destruct (redact_authorization message H) as (h & b & E & Hh & Hb & R).
    exists h, b. split; [exact E|]. split; [exact Hh|]. split; [exact Hb|].
    intros Hlen. rewrite sanitizeErrorMessage_short; rewrite R; [reflexivity|].
    rewrite length_app. change (length REDACTED) with 10%nat. lia.
  - intros H Hlen.
    destruct (sanitizeErrorMessage_long message) as [L1 L2].
    { rewrite (redact_unchanged _ H). lia. }
    split; [exact L2|]. split.
    + exists (firstn 500 (redact message)). exact L1.
    + rewrite L1, (redact_unchanged _ H).
      rewrite firstn_app, firstn_firstn, length_firstn.
      replace (500 - Nat.min 500 (length message))%nat with O by lia.
      rewrite Nat.min_id. simpl. apply app_nil_r.
  - intros H Hlen.
    rewrite sanitizeErrorMessage_short; rewrite (redact_unchanged _ H); auto.
Qed.

(** Whether an occurrence starts at some position is decided by running
    the matcher at every position. *)
Lemma no_occurrence_check r s :
  forallb (fun i => is_none (exec r (skipn i s))) (seq 0 (S (length s))) = true ->
  ~ occurs r s.
Proof.
  intros H (pre & u & post & -> & Hu).
  rewrite forallb_forall in H.
  specialize (H (length pre)).
  rewrite skipn_app, skipn_all, Nat.sub_diag in H. simpl in H.
  pose proof (exec_complete _ _ Hu post) as Hx.
  destruct (exec r (u ++ post)); [|contradiction].
  assert (Hin : In (length pre) (seq 0 (S (length (pre ++ u ++ post))))).
  { apply in_seq. rewrite length_app. lia. }
  apply H in Hin. discriminate.
Qed.

Lemma secret_free_check s :
  forallb (fun r => forallb (fun i => is_none (exec r (skipn i s)))
                            (seq 0 (S (length s)))) sensitivePatterns = true ->
  secret_free s.
Proof.
  intros H r Hr. apply no_occurrence_check.
  rewrite forallb_forall in H. now apply H.
Qed.

Lemma exec_whole r s : exec r s = Some (length s) -> InLang r s.
Proof.
  intros H. destruct (exec_sound _ _ _ H) as (u & v & -> & Hu & Hl).
  rewrite length_app in Hl. destruct v; [|simpl in Hl; lia].
  now rewrite app_nil_r.
Qed.

(** The theorem at the 600-character message of the test suite, at a
    bearer token and at the authorization header of the test suite. *)
Lemma sanitizeErrorMessage_spec_witness :
  secret_free (repeat 120 600) /\
  length (repeat 120 600) = 600%nat /\
  length (sanitizeErrorMessage (repeat 120 600)) = 503%nat /\
  sanitizeErrorMessage (js "Bearer abc") = js "[REDACTED]" /\
  (exists h b,
     js "Authorization: Bearer abc123token456" = h ++ b /\
     InLang bearer_pattern b /\
     sanitizeErrorMessage (js "Authorization: Bearer abc123token456")
     = h ++ js "[REDACTED]").
Proof.
  assert (F : secret_free (repeat 120 600)).
  { apply secret_free_check. vm_compute. reflexivity. }
  split; [exact F|]. split; [reflexivity|].
  destruct (sanitizeErrorMessage_spec (repeat 120 600))
    as (_ & _ & _ & _ & L & _).
  split; [exact (proj1 (L F eq_refl))|].
  destruct (sanitizeErrorMessage_spec (js "Bearer abc")) as (_ & _ & W & _).
  split.
  { apply (W bearer_pattern); [left; reflexivity|].
    apply exec_whole. vm_compute. reflexivity. }
  destruct (sanitizeErrorMessage_spec (js "Authorization: Bearer abc123token456"))
    as (_ & _ & _ & A & _).
  destruct A as (h & b & E & Hh & Hb & R).
  { apply exec_whole. vm_compute. reflexivity. }
  exists h, b. split; [exact E|]. split; [exact Hb|].
  apply R. apply (f_equal (@length N)) in E.
  rewrite length_app in E.
  change (length (js "Authorization: Bearer abc123token456")) with 36%nat in E.
  lia.
Defined.

(** C3, counterexample.  The message "Authorization: Bearer abc123token456"
    is, as a whole, an occurrence of the authorization header pattern, but
    it is not replaced by the marker: the bearer pattern runs first and
    takes "Bearer abc123token456" out of it, after which the authorization
    pattern matches nothing. *)
Lemma sanitizeErrorMessage_whole_occurrence_kept :
  ~ replaces_whole_occurrences sanitizeErrorMessage.
Proof.
  intros H.
  specialize (H authorization_pattern (js "Authorization: Bearer abc123token456")).
  assert (E : sanitizeErrorMessage (js "Authorization: Bearer abc123token456")
              = js "Authorization: [REDACTED]") by (vm_compute; reflexivity).
  rewrite E in H.
  assert (D : js "Authorization: [REDACTED]" <> REDACTED) by (vm_compute; discriminate).
  apply D, H.
  - simpl; tauto.
  - apply exec_whole. vm_compute. reflexivity.
Qed.

(** The same order of passes lets the value of a [token:] pair through when
    the word before it is "bearer". *)
Example sanitizeErrorMessage_overlap :
  sanitizeErrorMessage (js "invalid bearer token: s3cr3t")
  = js "invalid [REDACTED]: s3cr3t".
Proof. vm_compute. reflexivity. Qed.

Example sanitizeErrorMessage_tests :
  sanitizeErrorMessage (js "Authorization: Bearer abc123token456")
    = js "Authorization: [REDACTED]" /\
  sanitizeErrorMessage (js "Error: token=my-secret-token-value")
    = js "Error: [REDACTED]" /\
  sanitizeErrorMessage (js "Failed: client_secret=super-secret-key")
    = js "Failed: [REDACTED]" /\
  sanitizeErrorMessage (js "Auth failed: Bearer token123 with client_secret=secret")
    = js "Auth failed: [REDACTED] with [REDACTED]".
Proof. vm_compute. repeat split. Qed.

(** ** [sanitizeApiError] *)

Lemma sanitize_default : sanitizeErrorMessage (js "An error occurred") = js "An error occurred".
Proof. vm_compute. reflexivity. Qed.

Lemma entry_detail_eq e :
  (if truthy_value (get "message" e) then get "message" e else get "path" e)
  = entry_detail e.
Proof.
  unfold entry_detail.
  destruct (get "message" e) as [| |[|]|n|[|c s]|l|f]; try reflexivity.
  destruct n; reflexivity.
Qed.

Lemma map_result_message_or_path entries :
  (forall e, In e entries -> nullish e = false) ->
  map_result message_or_path entries = Returns (map entry_detail entries).
Proof.
  induction entries as [|e entries IH]; intros H; [reflexivity|].
  cbn [map_result map]. unfold message_or_path at 1.
  rewrite (H e (or_introl eq_refl)), entry_detail_eq.
  rewrite IH; [reflexivity|]. intros x Hx. apply H. now right.
Qed.

Lemma map_result_null entries :
  (exists e, In e entries /\ nullish e = true) ->
  map_result message_or_path entries = Throws cannot_read_message.
Proof.
  induction entries as [|e entries IH]; intros (x & Hin & Hx); [destruct Hin|].
  cbn [map_result]. unfold message_or_path at 1.
  destruct (nullish e) eqn:E; [reflexivity|].
  rewrite IH; [reflexivity|].
  exists x. split; [|exact Hx].
  destruct Hin as [<-|Hin]; [congruence|exact Hin].
Qed.

Lemma ToString_strings l :
  (forall v, In v l -> string_or_absent v = true) ->
  map_result ToString (filter truthy_value l) = Returns (nonblank_strings l).
Proof.
  induction l as [|v l IH]; intros H; [reflexivity|].
  assert (IH' : map_result ToString (filter truthy_value l)
                = Returns (nonblank_strings l)).
  { apply IH. intros x Hx. apply H. now right. }
  pose proof (H v (or_introl eq_refl)) as Hv.
  destruct v as [| |b|z|[|c s]|l0|f]; cbn [filter truthy_value nonblank_strings];
    try exact IH'.
  - destruct b; [discriminate Hv|exact IH'].
  - cbn in Hv. destruct (negb (z =? 0)%Z); [discriminate Hv|exact IH'].
  - cbn [map_result ToString]. now rewrite IH'.
  - discriminate Hv.
  - discriminate Hv.
Qed.

Lemma sanitize_string s : sanitize (VStr s) = Returns (sanitizeErrorMessage s).
Proof. reflexivity. Qed.

Lemma sanitize_not_a_string v :
  truthy_value v = true -> string_or_absent v = false ->
  sanitize v = Throws replace_is_not_a_function.
Proof.
  destruct v; cbn; intros H1 H2; try reflexivity; try discriminate.
Qed.

Lemma truthy_string v :
  truthy_value v = true -> string_or_absent v = true -> exists s, v = VStr s.
Proof.
  destruct v as [| |b|z|s|l|f]; cbn; intros H1 H2;
    try discriminate; try (rewrite H1 in H2; discriminate H2).
  exists s. reflexivity.
Qed.

Lemma get_undefined k : get k VUndefined = VUndefined.
Proof. reflexivity. Qed.

(** The length that decides whether [_embedded.errors] is used. *)
Lemma embedded_length o :
  (let embedded := get "_embedded" o in
   let errors := if nullish embedded then VUndefined else get "errors" embedded in
   if nullish errors then VUndefined else length_of errors)
  = if nullish (embedded_errors o) then VUndefined else length_of (embedded_errors o).
Proof.
  cbv zeta. unfold embedded_errors.
  destruct (get "_embedded" o); reflexivity.
Qed.

Lemma embedded_errors_eq o :
  (if nullish (get "_embedded" o) then VUndefined else get "errors" (get "_embedded" o))
  = embedded_errors o.
Proof. unfold embedded_errors. destruct (get "_embedded" o); reflexivity. Qed.

(** [sanitizeApiError] on an object, with the words of its description. *)
Lemma sanitizeApiError_object error :
  isErrorObject error = true ->
  sanitizeApiError error =
  let o := read_as error in
  let name := if truthy_value (get "error" o) then get "error" o
              else VStr (js "api_error") in
  let finish detail :=
    match sanitize detail with
    | Throws m => Throws m
    | Returns s => Returns {| name := name; detail := s |}
    end in
  if truthy_value (get "error_description" o) then
    finish (get "error_description" o)
  else if truthy_value (get "message" o) then finish (get "message" o)
  else if truthy_value (if nullish (embedded_errors o) then VUndefined
                        else length_of (embedded_errors o)) then
    match embedded_details (embedded_errors o) with
    | Throws m => Throws m
    | Returns joined => finish (VStr joined)
    end
  else finish (VStr (js "An error occurred")).
Proof.
  intros H. unfold sanitizeApiError. rewrite H. cbn [negb]. cbv zeta.
  destruct (truthy_value (get "error_description" (read_as error)));
    [reflexivity|].
  destruct (truthy_value (get "message" (read_as error))); [reflexivity|].
  rewrite !embedded_errors_eq.
  destruct (truthy_value _); [|reflexivity].
  destruct (embedded_details (embedded_errors (read_as error))); reflexivity.
Qed.

(** A result comes back whenever the fields are as declared. *)
Lemma sanitizeApiError_declared error :
  isErrorObject error = true -> as_declared (read_as error) = true ->
  exists r, sanitizeApiError error = Returns r.
Proof.
  intros H. rewrite (sanitizeApiError_object error H). cbv zeta.
  set (o := read_as error).
  generalize (if truthy_value (get "error" o) then get "error" o
              else VStr (js "api_error")).
  intros n.
  unfold as_declared. intros Hd.
      apply andb_true_iff in Hd as [Hd Hemb].
      apply andb_true_iff in Hd as [Hed Hm].
      destruct (truthy_value (get "error_description" o)) eqn:Ted.
      { destruct (truthy_string _ Ted Hed) as [s ->].
        cbn [sanitize]. eexists; reflexivity. }
      destruct (truthy_value (get "message" o)) eqn:Tm.
      { destruct (truthy_string _ Tm Hm) as [s ->].
        cbn [sanitize]. eexists; reflexivity. }
      destruct (embedded_errors o) as [| |b|z|s|entries|f] eqn:Ee;
        cbn [nullish length_of truthy_value];
        try (cbn [sanitize]; eexists; reflexivity);
        try (apply negb_true_iff in Hemb;
             cbn [length_of truthy_value] in Hemb;
             rewrite Hemb; cbn [sanitize]; eexists; reflexivity).
      destruct (negb (Z.of_nat (length entries) =? 0)%Z);
        [|cbn [sanitize]; eexists; reflexivity].
      unfold embedded_details. rewrite forallb_forall in Hemb.
      rewrite (map_result_message_or_path entries).
      * rewrite ToString_strings; [cbn [sanitize]; eexists; reflexivity|].
        intros v Hv. apply in_map_iff in Hv as (x & <- & Hx).
        apply Hemb in Hx. now apply andb_true_iff in Hx.
      * intros e He. apply Hemb in He. apply andb_true_iff in He as [He _].
        now apply negb_true_iff.
Qed.

(** C4, as amended.  On a value that is not an object [sanitizeApiError]
    gives the name "api_error" and the detail "An error occurred".  On an
    object the name of a result is the [error] field when that is present
    (truthy, of whatever type) and "api_error" otherwise, and the detail
    goes through [sanitizeErrorMessage]: it is taken from
    [error_description] when that is a non-empty string, else from
    [message] when that is one, else from the message-or-path values of the
    entries of [_embedded.errors], those that are present, turned into
    strings and joined with "; " (for entries whose values are strings or
    absent: the non-blank strings, joined), else it is "An error occurred".
    A result comes back whenever the fields are as [ApiErrorResponse]
    declares them; a present [error_description] or [message] that is not a
    string, and an entry of [_embedded.errors] that is [null], make the
    function throw. *)
Theorem sanitizeApiError_spec :
  (forall error, isErrorObject error = false ->
     sanitizeApiError error = Returns default_error) /\
  (forall error, isErrorObject error = true ->
     let o := read_as error in
     (forall r, sanitizeApiError error = Returns r ->
        name r = if truthy_value (get "error" o) then get "error" o
                 else VStr (js "api_error")) /\
     (forall d, get "error_description" o = VStr d -> d <> [] ->
        exists r, sanitizeApiError error = Returns r /\
                  detail r = sanitizeErrorMessage d) /\
     (truthy_value (get "error_description" o) = false ->
      forall m, get "message" o = VStr m -> m <> [] ->
        exists r, sanitizeApiError error = Returns r /\
                  detail r = sanitizeErrorMessage m) /\
     (truthy_value (get "error_description" o) = false ->
      truthy_value (get "message" o) = false ->
      forall entries, embedded_errors o = VArr entries -> entries <> [] ->
        (forall e, In e entries -> nullish e = false) ->
        (forall parts,
           map_result ToString (filter truthy_value (map entry_detail entries))
           = Returns parts ->
           exists r, sanitizeApiError error = Returns r /\
                     detail r = sanitizeErrorMessage (join (js "; ") parts)) /\
        ((forall e, In e entries -> string_or_absent (entry_detail e) = true) ->
           exists r, sanitizeApiError error = Returns r /\
                     detail r =
                     sanitizeErrorMessage
                       (join (js "; ")
                             (nonblank_strings (map entry_detail entries))))) /\
     (truthy_value (get "error_description" o) = false ->
      truthy_value (get "message" o) = false ->
      embedded_errors o = VUndefined \/ embedded_errors o = VNull \/
      embedded_errors o = VArr [] ->
        exists r, sanitizeApiError error = Returns r /\
                  detail r = js "An error occurred") /\
     (truthy_value (get "error_description" o) = true ->
      string_or_absent (get "error_description" o) = false ->
        sanitizeApiError error = Throws replace_is_not_a_function) /\
     (truthy_value (get "error_description" o) = false ->
      truthy_value (get "message" o) = true ->
      string_or_absent (get "message" o) = false ->
        sanitizeApiError error = Throws replace_is_not_a_function) /\
     (truthy_value (get "error_description" o) = false ->
      truthy_value (get "message" o) = false ->
      forall entries, embedded_errors o = VArr entries ->
        (exists e, In e entries /\ nullish e = true) ->
        sanitizeApiError error = Throws cannot_read_message) /\
     (as_declared o = true -> exists r, sanitizeApiError error = Returns r)) /\
  sanitizeApiError (Plain (VObj [])) = Returns default_error.
Proof.
  split; [|split].
  - intros error H. unfold sanitizeApiError. now rewrite H.
  - intros error H o. subst o.
    pose proof (sanitizeApiError_declared error H) as Hdecl.
    rewrite (sanitizeApiError_object error H) in Hdecl |- *.
    cbv zeta in Hdecl |- *. revert Hdecl.
    set (o := read_as error).
    generalize (if truthy_value (get "error" o) then get "error" o
                else VStr (js "api_error")).
    intros n Hdecl.
    split; [|split; [|split; [|split; [|split; [|split; [|split; [|split]]]]]]].
    + intros r.
      destruct (truthy_value (get "error_description" o)).
      { destruct (sanitize _); intros E; inversion E. reflexivity. }
      destruct (truthy_value (get "message" o)).
      { destruct (sanitize _); intros E; inversion E. reflexivity. }
      destruct (truthy_value _).
      { destruct (embedded_details _) as [joined|m];
          [|intros E; discriminate E].
        cbn [sanitize]. intros E; inversion E. reflexivity. }
      cbn [sanitize]. intros E; inversion E. reflexivity.
    + intros d -> Hd. destruct d; [contradiction|].
      cbn [truthy_value sanitize]. eexists. split; reflexivity.
    + intros -> m -> Hm. destruct m; [contradiction|].
      cbn [truthy_value sanitize]. eexists. split; reflexivity.
    + intros -> -> entries -> Hne Hnull.
      destruct entries as [|e entries]; [contradiction|].
      cbn [nullish length_of length truthy_value].
      rewrite Nat2Z.inj_succ.
      destruct (Z.succ (Z.of_nat (length entries)) =? 0)%Z eqn:E;
        [apply Z.eqb_eq in E; lia|].
      cbn [negb]. unfold embedded_details.
      rewrite (map_result_message_or_path (e :: entries) Hnull).
      split.
      * intros parts ->. cbn [sanitize]. eexists. split; reflexivity.
      * intros Hstr. rewrite ToString_strings.
        { cbn [sanitize]. eexists. split; reflexivity. }
        intros v Hv. apply in_map_iff in Hv as (x & <- & Hx). now apply Hstr.
    + intros -> -> [-> | [-> | ->]]; cbn; eexists; (split; [reflexivity|]);
        apply sanitize_default.
    + intros Ht Hs. rewrite Ht. now rewrite sanitize_not_a_string.
    + intros -> Ht Hs. rewrite Ht. now rewrite sanitize_not_a_string.
    + intros -> -> entries -> Hnull.
      destruct entries as [|e entries]; [now destruct Hnull as (x & [] & _)|].
      cbn [nullish length_of length truthy_value].
      rewrite Nat2Z.inj_succ.
      destruct (Z.succ (Z.of_nat (length entries)) =? 0)%Z eqn:E;
        [apply Z.eqb_eq in E; lia|].
      cbn [negb]. unfold embedded_details.
      now rewrite (map_result_null (e :: entries) Hnull).
    + exact Hdecl.
  - vm_compute. reflexivity.
Qed.

(** The theorem at the objects of the test suite. *)
Lemma sanitizeApiError_spec_witness :
  let unauthorized :=
    Plain (VObj [(js "error_description", VStr (js "Invalid client credentials"));
                 (js "error", VStr (js "unauthorized"))]) in
  let entry p m := VObj [(js "path", VStr p); (js "message", VStr m)] in
  let validation :=
    Plain (VObj [(js "_embedded",
                  VObj [(js "errors",
                         VArr [entry (js "subject") (js "Subject is required");
                               entry (js "body") (js "Body is required")])])]) in
  sanitizeApiError unauthorized =
    Returns {| name := js "unauthorized";
               detail := js "Invalid client credentials" |} /\
  sanitizeApiError validation =
    Returns {| name := js "api_error";
               detail := js "Subject is required; Body is required" |} /\
  sanitizeApiError (Plain (VStr (js "boom"))) = Returns default_error.
Proof.
  intros unauthorized entry validation.
  destruct sanitizeApiError_spec as (Hnot & Hobj & _).
  destruct (Hobj unauthorized eq_refl) as (Hname & Hdesc & _).
  destruct (Hobj validation eq_refl) as (Hname' & _ & _ & Hemb & _).
  split; [|split; [|apply Hnot; reflexivity]].
  - destruct (Hdesc (js "Invalid client credentials") eq_refl)
      as (r & Hr & Hd); [discriminate|].
    rewrite Hr. f_equal.
    pose proof (Hname r Hr) as Hn. destruct r as [n d]. cbn in Hn, Hd.
    rewrite Hn, Hd. vm_compute. reflexivity.
  - destruct (Hemb eq_refl eq_refl
                   [entry (js "subject") (js "Subject is required");
                    entry (js "body") (js "Body is required")] eq_refl)
      as (_ & Hstr); [discriminate| |].
    + intros e [<-|[<-|[]]]; reflexivity.
    + destruct Hstr as (r & Hr & Hd).
      { intros e [<-|[<-|[]]]; reflexivity. }
      rewrite Hr. f_equal.
      pose proof (Hname' r Hr) as Hn. destruct r as [n d]. cbn in Hn, Hd.
      rewrite Hn, Hd. vm_compute. reflexivity.
Defined.

(** C4, counterexample.  Not every input value gives a result: on an
    object whose [error_description] is the number 42 the function throws,
    [sanitizeErrorMessage] calling [replace] on what is not a string. *)
Lemma sanitizeApiError_throws_on_a_number : ~ returns_on_every_input.
Proof.
  intros H.
  destruct (H (Plain (VObj [(js "error_description", VNum 42)]))) as [r Hr].
  vm_compute in Hr. discriminate Hr.
Qed.

(** ** The auth session *)

Section AuthSession.

Variable server : list Call -> Call -> Reply.

Lemma refreshAccessToken_unconfigured (w : World) :
  truthy (appId (store w)) = false \/ truthy (appSecret (store w)) = false ->
  refreshAccessToken server w = (Throw (ThrowCli not_configured), w).
Proof.
  intros H. unfold refreshAccessToken, bind, gets. simpl.
  destruct (appId (store w)) as [[|c i]|];
    destruct (appSecret (store w)) as [[|d s]|];
    simpl in H; try reflexivity; destruct H; discriminate.
Qed.

Lemma getAccessToken_cached (w : World) t :
  accessToken w = Some t -> t <> [] -> getAccessToken server w = (Ok t, w).
Proof.
  intros Ht Hne. unfold getAccessToken, bind, gets. simpl. rewrite Ht.
  destruct t; [contradiction|reflexivity].
Qed.

Lemma getAccessToken_stored (w : World) t :
  truthy (accessToken w) = false ->
  storedAccessToken (store w) = Some t -> t <> [] ->
  getAccessToken server w = (Ok t, set_accessToken (Some t) w).
Proof.
  intros Hc Ht Hne. unfold getAccessToken, bind, gets. simpl.
  destruct t as [|d u]; [contradiction|].
  destruct (accessToken w) as [[|c t]|]; try discriminate;
    simpl; rewrite Ht; reflexivity.
Qed.

Lemma getAccessToken_authenticates (w : World) :
  truthy (accessToken w) = false ->
  truthy (storedAccessToken (store w)) = false ->
  getAccessToken server w = refreshAccessToken server w.
Proof.
  intros Hc Hs. unfold getAccessToken, bind, gets. simpl.
  destruct (accessToken w) as [[|c t]|]; try discriminate;
    destruct (storedAccessToken (store w)) as [[|d u]|]; try discriminate;
    reflexivity.
Qed.

(** C7.  When [appId] or [appSecret] is absent (or empty),
    [refreshAccessToken] throws the "Not configured" [HelpScoutCliError]
    with status code 401 and leaves the session as it was: no call has been
    issued.  [handleHelpScoutError] reports that error under the name
    [cli_error], with status code 401 and the instruction to run
    [helpscout auth login]. *)
Theorem refreshAccessToken_not_configured (w : World) :
  truthy (appId (store w)) = false \/ truthy (appSecret (store w)) = false ->
  refreshAccessToken server w = (Throw (ThrowCli not_configured), w) /\
  calls (snd (refreshAccessToken server w)) = calls w /\
  handleHelpScoutError (unknown_of_thrown (ThrowCli not_configured)) =
    {| err_name := js "cli_error";
       err_detail := js "Not configured. Please run: helpscout auth login";
       err_statusCode := 401 |}.
Proof.
  intros H. pose proof (refreshAccessToken_unconfigured w H) as E.
  split; [exact E|]. split; [now rewrite E|].
  vm_compute. reflexivity.
Qed.

End AuthSession.

(** The theorem on a store that holds a refresh token but no app secret,
    against a server that would answer any call. *)
Lemma refreshAccessToken_not_configured_witness :
  let server := fun (_ : list Call) (_ : Call) => Response 200 (Json VNull) in
  let w := {| accessToken := None;
              store := {| appId := Some (js "app"); appSecret := None;
                          storedAccessToken := None;
                          storedRefreshToken := Some (js "r1") |};
              calls := [] |} in
  refreshAccessToken server w = (Throw (ThrowCli not_configured), w).
Proof.
  intros server w.
  apply (refreshAccessToken_not_configured server w).
  right. reflexivity.
Defined.

Section AuthSessionCache.

Variable server : list Call -> Call -> Reply.

Lemma client_credentials_grant_run id sec (w : World) :
  client_credentials_grant server id sec w =
  let c := TokenCall (client_credentials id sec) in
  let w1 := record_call c w in
  match server (calls w) c with
  | NetworkError m => (Throw (ThrowError m), w1)
  | Response status (NotJson m) => (Throw (ThrowError m), w1)
  | Response status (Json v) =>
    if ok status
    then if nullish v then (Throw (ThrowError cannot_read_access_token), w1)
         else let t := access_token (as_TokenResponse v) in
              (Ok t, set_accessToken (Some t)
                       (set_store (store_setAccessToken t) w1))
    else (Throw (ThrowObject (with_statusCode v status)), w1)
  end.
Proof.
  unfold client_credentials_grant, bind, fetch. simpl.
  destruct (server (calls w) (TokenCall (client_credentials id sec)))
    as [m|status [v|m]]; simpl; try reflexivity;
    destruct (ok status); try reflexivity.
  simpl. destruct (nullish v); reflexivity.
Qed.

Lemma str_field_not_nullish k v t : str_field k v = Some t -> nullish v = false.
Proof. destruct v; try reflexivity; discriminate. Qed.

Lemma str_field_access_token v t :
  str_field "access_token" v = Some t -> access_token (as_TokenResponse v) = t.
Proof. intros H. unfold as_TokenResponse. cbn [access_token]. now rewrite H. Qed.

Lemma refreshAccessToken_without_refresh_token id sec (w : World) :
  appId (store w) = Some id -> id <> [] ->
  appSecret (store w) = Some sec -> sec <> [] ->
  truthy (storedRefreshToken (store w)) = false ->
  refreshAccessToken server w = client_credentials_grant server id sec w.
Proof.
  intros Hid Hid' Hsec Hsec' Hrt.
  unfold refreshAccessToken, bind, gets. simpl. rewrite Hid, Hsec.
  destruct id as [|c i]; [contradiction|].
  destruct sec as [|d s]; [contradiction|].
  destruct (storedRefreshToken (store w)) as [[|e t]|]; try discriminate; reflexivity.
Qed.

(** C8.  [getAccessToken] returns the token cached in memory without any
    call; failing that, it caches and returns the persisted access token,
    again without any call; only when neither is there does it
    authenticate.  With [appId] and [appSecret] present and no token at
    all, the call issues exactly one request, a [client_credentials]
    grant; when the endpoint answers it with a body that holds an
    [access_token] string, that token is returned, cached and persisted,
    and the next call in the session returns it without issuing anything;
    when the endpoint answers 2xx with the body [null], the call rejects
    with the TypeError of reading [access_token], and nothing is cached or
    persisted. *)
Theorem getAccessToken_spec (w : World) :
  (forall t, accessToken w = Some t -> t <> [] ->
     getAccessToken server w = (Ok t, w)) /\
  (truthy (accessToken w) = false ->
   forall t, storedAccessToken (store w) = Some t -> t <> [] ->
     getAccessToken server w = (Ok t, set_accessToken (Some t) w)) /\
  (truthy (accessToken w) = false ->
   truthy (storedAccessToken (store w)) = false ->
     getAccessToken server w = refreshAccessToken server w) /\
  (forall id sec,
     appId (store w) = Some id -> id <> [] ->
     appSecret (store w) = Some sec -> sec <> [] ->
     truthy (accessToken w) = false ->
     truthy (storedAccessToken (store w)) = false ->
     truthy (storedRefreshToken (store w)) = false ->
     let c := TokenCall (client_credentials id sec) in
     let w' := snd (getAccessToken server w) in
     calls w' = calls w ++ [c] /\
     (forall status v t,
        server (calls w) c = Response status (Json v) -> ok status = true ->
        str_field "access_token" v = Some t ->
        fst (getAccessToken server w) = Ok t /\
        accessToken w' = Some t /\
        storedAccessToken (store w') = Some t /\
        (t <> [] -> getAccessToken server w' = (Ok t, w'))) /\
     (forall status,
        server (calls w) c = Response status (Json VNull) -> ok status = true ->
        fst (getAccessToken server w)
          = Throw (ThrowError cannot_read_access_token) /\
        accessToken w' = accessToken w /\
        store w' = store w)).
Proof.
  split; [apply getAccessToken_cached|].
  split; [intros Hc t; now apply getAccessToken_stored|].
  split; [apply getAccessToken_authenticates|].
  - intros id sec Hid Hid' Hsec Hsec' Hc Hs Hr c w'.
    subst w'. rewrite (getAccessToken_authenticates server w Hc Hs).
    rewrite (refreshAccessToken_without_refresh_token id sec w Hid Hid' Hsec Hsec' Hr).
    rewrite client_credentials_grant_run. cbv zeta. fold c.
    split; [|split].
    + destruct (server (calls w) c) as [m|status [v|m]]; try reflexivity.
      destruct (ok status); [|reflexivity].
      destruct (nullish v); reflexivity.
    + intros status v t Hreply Hok Ht. rewrite Hreply, Hok.
      rewrite (str_field_not_nullish _ _ _ Ht), (str_field_access_token v t Ht).
      repeat split. intros Hne. now apply getAccessToken_cached.
    + intros status Hreply Hok. rewrite Hreply, Hok.
      repeat split.
Qed.

End AuthSessionCache.

(** The theorem for a configured store without tokens, against a token
    endpoint that hands out the token "t1". *)
Lemma getAccessToken_spec_witness :
  let server := fun (_ : list Call) (_ : Call) =>
    Response 200 (Json (VObj [(js "access_token", VStr (js "t1"))])) in
  let w := {| accessToken := None;
              store := {| appId := Some (js "app"); appSecret := Some (js "secret");
                          storedAccessToken := None; storedRefreshToken := None |};
              calls := [] |} in
  let w' := snd (getAccessToken server w) in
  calls w' = [TokenCall (client_credentials (js "app") (js "secret"))] /\
  getAccessToken server w' = (Ok (js "t1"), w').
Proof.
  intros server w w'.
  destruct (getAccessToken_spec server w) as (_ & _ & _ & H).
  destruct (H (js "app") (js "secret") eq_refl ltac:(discriminate) eq_refl
              ltac:(discriminate) eq_refl eq_refl eq_refl) as [Hcalls Hnext].
  split; [exact Hcalls|].
  destruct Hnext as [Hnext _].
  destruct (Hnext 200%Z _ (js "t1") eq_refl eq_refl eq_refl)
    as (_ & _ & _ & Hzero).
  apply Hzero. discriminate.
Defined.

Section Authenticate.

Variable server : list Call -> Call -> Reply.

Lemma refresh_attempt_run id sec rt (w : World) :
  refresh_attempt server id sec rt w =
  match server (calls w) (TokenCall (refresh_token id sec rt)) with
  | Response status (Json v) =>
    if ok status && negb (nullish v)
    then (Ok (Some (access_token (as_TokenResponse v))),
          set_accessToken (Some (access_token (as_TokenResponse v)))
            (match token_refresh_token (as_TokenResponse v) with
             | Some (x :: t) => set_store (store_setRefreshToken (x :: t))
             | _ => fun w0 => w0
             end
               (set_store (store_setAccessToken (access_token (as_TokenResponse v)))
                          (record_call (TokenCall (refresh_token id sec rt)) w))))
    else (Ok None, record_call (TokenCall (refresh_token id sec rt)) w)
  | _ => (Ok None, record_call (TokenCall (refresh_token id sec rt)) w)
  end.
Proof.
  unfold refresh_attempt, try_catch, bind, fetch. simpl.
  destruct (server (calls w) (TokenCall (refresh_token id sec rt)))
    as [m|status [v|m]]; simpl; try reflexivity.
  - destruct (ok status); simpl; [|reflexivity].
    destruct (nullish v); simpl; [reflexivity|].
    destruct (str_field "refresh_token" v) as [[|x t]|]; reflexivity.
  - destruct (ok status); reflexivity.
Qed.

Lemma refreshAccessToken_with_refresh_token id sec rt (w : World) :
  appId (store w) = Some id -> id <> [] ->
  appSecret (store w) = Some sec -> sec <> [] ->
  storedRefreshToken (store w) = Some rt -> rt <> [] ->
  refreshAccessToken server w =
  match refresh_attempt server id sec rt w with
  | (Ok (Some token), w1) => (Ok token, w1)
  | (Ok None, w1) => client_credentials_grant server id sec w1
  | (Throw t, w1) => (Throw t, w1)
  | (Exit e, w1) => (Exit e, w1)
  end.
Proof.
  intros Hid Hid' Hsec Hsec' Hrt Hrt'.
  unfold refreshAccessToken. unfold bind at 1 2 3. unfold gets. simpl.
  rewrite Hid, Hsec, Hrt.
  destruct id as [|c i]; [contradiction|].
  destruct sec as [|d s]; [contradiction|].
  destruct rt as [|e t]; [contradiction|].
  unfold bind.
  destruct (refresh_attempt server (c :: i) (d :: s) (e :: t) w) as [[[tok|]|thrown|ex] w1];
    reflexivity.
Qed.

(** C2.  With [appId], [appSecret] and a persisted refresh token, the first
    call [refreshAccessToken] issues is the [refresh_token] grant.  When
    that attempt fails (the call throws, the response is not 2xx, or its
    body cannot be read: it is not JSON, or it is [null]), nothing of the
    failure is kept: the outcome is that of the [client_credentials] grant
    issued next, the session having changed by the logged call only.  When
    that grant is answered by a non-2xx response with a JSON body, the body
    is thrown with [statusCode] set to the status of the response; when it
    is answered by a 2xx response with an [access_token] string, that
    token is returned.  When the refresh attempt does not fail, no second
    call is made, and the [access_token] string of its response is what is
    returned. *)
Theorem refreshAccessToken_refresh_then_fallback (w : World) id sec rt :
  appId (store w) = Some id -> id <> [] ->
  appSecret (store w) = Some sec -> sec <> [] ->
  storedRefreshToken (store w) = Some rt -> rt <> [] ->
  let c1 := TokenCall (refresh_token id sec rt) in
  let c2 := TokenCall (client_credentials id sec) in
  let w1 := record_call c1 w in
  (exists rest, calls (snd (refreshAccessToken server w)) = calls w ++ c1 :: rest) /\
  (refresh_failed (server (calls w) c1) = true ->
     refreshAccessToken server w = client_credentials_grant server id sec w1 /\
     calls (snd (refreshAccessToken server w)) = calls w ++ [c1; c2] /\
     (forall status error,
        server (calls w1) c2 = Response status (Json error) ->
        ok status = false ->
        refreshAccessToken server w =
        (Throw (ThrowObject (with_statusCode error status)), record_call c2 w1)) /\
     (forall status v t,
        server (calls w1) c2 = Response status (Json v) ->
        ok status = true ->
        str_field "access_token" v = Some t ->
        fst (refreshAccessToken server w) = Ok t)) /\
  (refresh_failed (server (calls w) c1) = false ->
     exists status v,
       server (calls w) c1 = Response status (Json v) /\
       ok status = true /\ nullish v = false /\
       calls (snd (refreshAccessToken server w)) = calls w ++ [c1] /\
       (forall t, str_field "access_token" v = Some t ->
          fst (refreshAccessToken server w) = Ok t)).
Proof.
  intros Hid Hid' Hsec Hsec' Hrt Hrt' c1 c2 w1.
  rewrite (refreshAccessToken_with_refresh_token id sec rt w Hid Hid' Hsec Hsec' Hrt Hrt').
  rewrite refresh_attempt_run. fold c1. fold w1.
  assert (Hcc : calls (snd (client_credentials_grant server id sec w1))
                = calls w ++ [c1; c2]).
  { rewrite client_credentials_grant_run. cbv zeta. fold c2.
    assert (E : calls (record_call c2 w1) = calls w ++ [c1; c2]).
    { simpl. now rewrite <- app_assoc. }
    destruct (server (calls w1) c2) as [m|status [v|m]]; try exact E.
    destruct (ok status); [|exact E]. destruct (nullish v); exact E. }
  assert (Hfail : forall status error,
             server (calls w1) c2 = Response status (Json error) ->
             ok status = false ->
             client_credentials_grant server id sec w1 =
             (Throw (ThrowObject (with_statusCode error status)), record_call c2 w1)).
  { intros status error Hreply Hok.
    rewrite client_credentials_grant_run. cbv zeta. fold c2.
    now rewrite Hreply, Hok. }
  assert (Hgood : forall status v t,
             server (calls w1) c2 = Response status (Json v) ->
             ok status = true ->
             str_field "access_token" v = Some t ->
             fst (client_credentials_grant server id sec w1) = Ok t).
  { intros status v t Hreply Hok Ht.
    rewrite client_credentials_grant_run. cbv zeta. fold c2.
    rewrite Hreply, Hok, (str_field_not_nullish _ _ _ Ht).
    cbn [fst]. now rewrite (str_field_access_token v t Ht). }
  destruct (server (calls w) c1) as [m|status [v|m]] eqn:Hreply;
    cbn [refresh_failed].
  - split; [exists [c2]; exact Hcc|]. split; [|discriminate].
    intros _. repeat split; auto.
  - destruct (ok status) eqn:Hok; cbn [negb andb orb].
    + destruct (nullish v) eqn:Hnull; cbn [negb].
      * split; [exists [c2]; exact Hcc|]. split; [|discriminate].
        intros _. repeat split; auto.
      * assert (E : calls
                      (match token_refresh_token (as_TokenResponse v) with
                       | Some (x :: t) => set_store (store_setRefreshToken (x :: t))
                       | _ => fun w0 : World => w0
                       end
                         (set_store
                            (store_setAccessToken (access_token (as_TokenResponse v)))
                            w1)) = calls w ++ [c1]).
        { destruct (token_refresh_token (as_TokenResponse v)) as [[|x t]|];
            reflexivity. }
        split; [exists []; exact E|]. split; [discriminate|].
        intros _. exists status, v.
        split; [reflexivity|]. split; [exact Hok|]. split; [exact Hnull|].
        split; [exact E|].
        intros t Ht. cbn [fst]. now rewrite (str_field_access_token v t Ht).
    + split; [exists [c2]; exact Hcc|]. split; [|discriminate].
      intros _. repeat split; auto.
  - split; [exists [c2]; exact Hcc|]. split; [|discriminate].
    intros _. repeat split; auto.
Qed.

End Authenticate.

(** The theorem against an endpoint that answers the refresh grant with
    200 and the body [null], and refuses the client credentials grant with
    a 400: the refresh failure is dropped and the failure of the client
    credentials grant is what is thrown. *)
Lemma refreshAccessToken_refresh_then_fallback_witness :
  let invalid := VObj [(js "error", VStr (js "invalid_grant"))] in
  let server := fun (_ : list Call) (c : Call) =>
    match c with
    | TokenCall (refresh_token _ _ _) => Response 200 (Json VNull)
    | _ => Response 400 (Json invalid)
    end in
  let w := {| accessToken := None;
              store := {| appId := Some (js "app"); appSecret := Some (js "secret");
                          storedAccessToken := None;
                          storedRefreshToken := Some (js "r1") |};
              calls := [] |} in
  calls (snd (refreshAccessToken server w)) =
    [TokenCall (refresh_token (js "app") (js "secret") (js "r1"));
     TokenCall (client_credentials (js "app") (js "secret"))] /\
  fst (refreshAccessToken server w) =
    Throw (ThrowObject (VObj [(js "error", VStr (js "invalid_grant"));
                              (js "statusCode", VNum 400)])).
Proof.
  intros invalid server w.
  destruct (refreshAccessToken_refresh_then_fallback server w
              (js "app") (js "secret") (js "r1")
              eq_refl ltac:(discriminate) eq_refl ltac:(discriminate)
              eq_refl ltac:(discriminate)) as (_ & Hfail & _).
  destruct (Hfail eq_refl) as (_ & Hcalls & Hthrown & _).
  split; [exact Hcalls|].
  rewrite (Hthrown 400%Z invalid eq_refl eq_refl). reflexivity.
Defined.

(** ** The request executor *)

Section RequestExecutor.

Variable server : list Call -> Call -> Reply.

Lemma api_calls_app l l' : api_calls (l ++ l') = api_calls l ++ api_calls l'.
Proof. apply filter_app. Qed.

Lemma api_calls_token l g : api_calls (l ++ [TokenCall g]) = api_calls l.
Proof. unfold api_calls. rewrite filter_app. simpl. apply app_nil_r. Qed.

Lemma client_credentials_grant_effect id sec (w : World) :
  api_calls (calls (snd (client_credentials_grant server id sec w)))
    = api_calls (calls w) /\
  (forall t, fst (client_credentials_grant server id sec w) = Ok t ->
     accessToken (snd (client_credentials_grant server id sec w)) = Some t).
Proof.
  rewrite client_credentials_grant_run. cbv zeta.
  destruct (server (calls w) (TokenCall (client_credentials id sec)))
    as [m|status [v|m]]; simpl;
    try (split; [apply api_calls_token|discriminate]).
  destruct (ok status); [destruct (nullish v)|]; simpl;
    (split; [apply api_calls_token|]).
  - discriminate.
  - intros t [= <-]. reflexivity.
  - discriminate.
Qed.

Lemma refresh_attempt_effect id sec rt (w : World) :
  api_calls (calls (snd (refresh_attempt server id sec rt w)))
    = api_calls (calls w) /\
  (forall t, fst (refresh_attempt server id sec rt w) = Ok (Some t) ->
     accessToken (snd (refresh_attempt server id sec rt w)) = Some t) /\
  (exists r, fst (refresh_attempt server id sec rt w) = Ok r).
Proof.
  rewrite refresh_attempt_run.
  destruct (server (calls w) (TokenCall (refresh_token id sec rt)))
    as [m|status [v|m]]; simpl;
    try (split; [apply api_calls_token|split; [discriminate|now exists None]]).
  destruct (ok status && negb (nullish v)); simpl.
  - split; [|split].
    + destruct (str_field "refresh_token" v) as [[|x t]|];
        apply api_calls_token.
    + intros t [= <-]. reflexivity.
    + now eexists.
  - split; [apply api_calls_token|split; [discriminate|now exists None]].
Qed.

Lemma refreshAccessToken_effect (w : World) :
  api_calls (calls (snd (refreshAccessToken server w))) = api_calls (calls w) /\
  (forall t, fst (refreshAccessToken server w) = Ok t ->
     accessToken (snd (refreshAccessToken server w)) = Some t).
Proof.
  destruct (truthy (appId (store w)) && truthy (appSecret (store w))) eqn:Hconf.
  - apply andb_true_iff in Hconf as [Hid Hsec].
    destruct (appId (store w)) as [[|c i]|] eqn:Eid; try discriminate.
    destruct (appSecret (store w)) as [[|d s]|] eqn:Esec; try discriminate.
    destruct (truthy (storedRefreshToken (store w))) eqn:Hrt.
    + destruct (storedRefreshToken (store w)) as [[|e t]|] eqn:Ert; try discriminate.
      rewrite (refreshAccessToken_with_refresh_token server (c :: i) (d :: s) (e :: t) w);
        auto; try discriminate.
      destruct (refresh_attempt_effect (c :: i) (d :: s) (e :: t) w)
        as (Hcalls & Htok & r & Hr).
      destruct (refresh_attempt server (c :: i) (d :: s) (e :: t) w)
        as [[[tok|]|thrown|ex] w1]; simpl in *; try discriminate.
      * split; [exact Hcalls|]. intros t0 [= <-]. now apply Htok.
      * destruct (client_credentials_grant_effect (c :: i) (d :: s) w1) as [H1 H2].
        split; [now rewrite H1|exact H2].
    + rewrite (refreshAccessToken_without_refresh_token server (c :: i) (d :: s) w);
        auto; try discriminate.
      apply client_credentials_grant_effect.
  - rewrite (refreshAccessToken_unconfigured server w).
    + simpl. split; [reflexivity|discriminate].
    + apply andb_false_iff in Hconf. exact Hconf.
Qed.

Lemma getAccessToken_effect (w : World) :
  api_calls (calls (snd (getAccessToken server w))) = api_calls (calls w).
Proof.
  pose proof (getAccessToken_cached server w) as Hc.
  pose proof (fun H => getAccessToken_stored server w H) as Hs.
  pose proof (getAccessToken_authenticates server w) as Ha.
  destruct (accessToken w) as [[|c t]|] eqn:Ec.
  - destruct (storedAccessToken (store w)) as [[|d u]|] eqn:Es.
    + rewrite Ha by reflexivity. apply refreshAccessToken_effect.
    + rewrite (Hs (d :: u) eq_refl eq_refl) by discriminate. reflexivity.
    + rewrite Ha by reflexivity. apply refreshAccessToken_effect.
  - rewrite (Hc (c :: t) eq_refl) by discriminate. reflexivity.
  - destruct (storedAccessToken (store w)) as [[|d u]|] eqn:Es.
    + rewrite Ha by reflexivity. apply refreshAccessToken_effect.
    + rewrite (Hs (d :: u) eq_refl eq_refl) by discriminate. reflexivity.
    + rewrite Ha by reflexivity. apply refreshAccessToken_effect.
Qed.

Lemma request_with_false again1 again2 method path params body (w : World) :
  request_with server again1 method path params body false w =
  request_with server again2 method path params body false w.
Proof.
  unfold request_with, bind.
  destruct (getAccessToken server w) as [[token|t|e] w1]; try reflexivity.
  destruct (fetch server _ w1) as [[response|t|e] w2]; try reflexivity.
  now rewrite andb_false_r.
Qed.

(** A request with [retry] false: one token, at most one call, no second
    attempt whatever the status. *)
Lemma request_without_retry method path params body (w : World) :
  request server method path params body false w =
  match getAccessToken server w with
  | (Ok token, w1) =>
    match server (calls w1)
                 (ApiCall method path (query_of params) token
                          (if truthy_value body then Some body else None)) with
    | NetworkError m =>
      (Throw (ThrowError m),
       record_call (ApiCall method path (query_of params) token
                            (if truthy_value body then Some body else None)) w1)
    | Response status b =>
      (settle status b,
       record_call (ApiCall method path (query_of params) token
                            (if truthy_value body then Some body else None)) w1)
    end
  | (Throw t, w1) => (Throw t, w1)
  | (Exit e, w1) => (Exit e, w1)
  end.
Proof.
  unfold request, request_with. unfold bind at 1.
  destruct (getAccessToken server w) as [[token|t|e] w1]; try reflexivity.
  unfold bind at 1. unfold fetch.
  destruct (server (calls w1) _) as [m|status b]; [reflexivity|].
  cbn [fst snd]. rewrite andb_false_r. unfold settle.
  destruct (status =? 204)%Z; [reflexivity|].
  destruct (ok status); cbn [negb].
  - destruct b; reflexivity.
  - unfold bind, try_catch. destruct b; reflexivity.
Qed.

(** A request with [retry] true: a first response other than 401 ends it;
    a 401 clears the cached token, authenticates again and runs the request
    once more with [retry] false. *)
Lemma request_with_retry method path params body (w : World) :
  request server method path params body true w =
  match getAccessToken server w with
  | (Ok token, w1) =>
    match server (calls w1)
                 (ApiCall method path (query_of params) token
                          (if truthy_value body then Some body else None)) with
    | NetworkError m =>
      (Throw (ThrowError m),
       record_call (ApiCall method path (query_of params) token
                            (if truthy_value body then Some body else None)) w1)
    | Response status b =>
      if (status =? 401)%Z
      then (clearToken ;;;
            _ <- refreshAccessToken server ;;
            request server method path params body false)
             (record_call (ApiCall method path (query_of params) token
                                   (if truthy_value body then Some body else None)) w1)
      else (settle status b,
            record_call (ApiCall method path (query_of params) token
                                 (if truthy_value body then Some body else None)) w1)
    end
  | (Throw t, w1) => (Throw t, w1)
  | (Exit e, w1) => (Exit e, w1)
  end.
Proof.
  unfold request at 1. unfold request_with at 1. unfold bind at 1.
  destruct (getAccessToken server w) as [[token|t|e] w1]; try reflexivity.
  unfold bind at 1. unfold fetch.
  destruct (server (calls w1) _) as [m|status b]; [reflexivity|].
  cbn [fst snd]. rewrite andb_true_r.
  destruct (status =? 401)%Z eqn:E401.
  { unfold clearToken, bind, modify.
    destruct (refreshAccessToken server _) as [[fresh|t|e] w2]; try reflexivity.
    apply request_with_false. }
  unfold settle.
  destruct (status =? 204)%Z; [reflexivity|].
  destruct (ok status); cbn [negb].
  - destruct b; reflexivity.
  - unfold bind, try_catch. destruct b; reflexivity.
Qed.

End RequestExecutor.

Section Retry.

Variable server : list Call -> Call -> Reply.

(** C1.  A request with [retry] true whose first response is a 401 clears
    the cached token, runs [refreshAccessToken], and then runs the same
    request (same method, path, query and body) once more with [retry]
    false; at most one API call follows the first, whatever happens.  If
    the authentication throws, that is what the request throws, with no
    second API call.  If it yields a fresh token, exactly one more API call
    goes out, carrying that token; whatever its status it ends the request,
    and when it is a 401 again the request throws the parsed body (the
    empty object when it does not parse) with [statusCode] 401: the API has
    been called twice, never a third time. *)
Theorem request_retries_once_on_401
    method path params body (w : World) token (w1 : World) b1 :
  getAccessToken server w = (Ok token, w1) ->
  let payload := if truthy_value body then Some body else None in
  let c1 := ApiCall method path (query_of params) token payload in
  server (calls w1) c1 = Response 401 b1 ->
  let w2 := snd (clearToken (record_call c1 w1)) in
  let outcome := request server method path params body true w in
  accessToken w2 = None /\
  outcome =
    (_ <- refreshAccessToken server ;;
     request server method path params body false) w2 /\
  (exists again,
     api_calls (calls (snd outcome)) = api_calls (calls w) ++ c1 :: again /\
     (length again <= 1)%nat /\
     forall c, In c again ->
       exists bearer, c = ApiCall method path (query_of params) bearer payload) /\
  (forall t w3,
     refreshAccessToken server w2 = (Throw t, w3) ->
     outcome = (Throw t, w3) /\
     api_calls (calls (snd outcome)) = api_calls (calls w) ++ [c1]) /\
  (forall fresh w3,
     refreshAccessToken server w2 = (Ok fresh, w3) -> fresh <> [] ->
     let c2 := ApiCall method path (query_of params) fresh payload in
     calls (snd outcome) = calls w3 ++ [c2] /\
     api_calls (calls (snd outcome)) = api_calls (calls w) ++ [c1; c2] /\
     (forall m, server (calls w3) c2 = NetworkError m ->
        fst outcome = Throw (ThrowError m)) /\
     (forall status b2, server (calls w3) c2 = Response status b2 ->
        fst outcome = settle status b2) /\
     (forall b2, server (calls w3) c2 = Response 401 b2 ->
        fst outcome =
        Throw (ThrowObject (with_statusCode (parsed_or_empty b2) 401)))).
Proof.
  intros Hget payload c1 Hreply w2 outcome.
  assert (Hout : outcome =
            (_ <- refreshAccessToken server ;;
             request server method path params body false) w2).
  { subst outcome. rewrite request_with_retry, Hget. fold payload. fold c1.
    rewrite Hreply. reflexivity. }
  assert (Hapi1 : api_calls (calls w2) = api_calls (calls w) ++ [c1]).
  { pose proof (getAccessToken_effect server w) as G.
    rewrite Hget in G. simpl in G. rewrite <- G.
    subst w2. change (calls (snd (clearToken (record_call c1 w1))))
      with (calls w1 ++ [c1]).
    now rewrite api_calls_app. }
  split; [reflexivity|]. split; [exact Hout|]. split; [|split].
  - rewrite Hout. unfold bind.
    destruct (refreshAccessToken_effect server w2) as [Hcalls _].
    destruct (refreshAccessToken server w2) as [[fresh|t|e] w3];
      cbn [fst snd] in Hcalls;
      try (exists []; cbn [snd]; rewrite Hcalls, Hapi1;
           split; [reflexivity|]; split; [simpl; lia|intros c []]).
    rewrite request_without_retry.
    pose proof (getAccessToken_effect server w3) as Hget3.
    destruct (getAccessToken server w3) as [[bearer|t|e] w4];
      cbn [fst snd] in Hget3;
      try (exists []; cbn [snd]; rewrite Hget3, Hcalls, Hapi1;
           split; [reflexivity|]; split; [simpl; lia|intros c []]).
    exists [ApiCall method path (query_of params) bearer payload].
    split; [|split; [simpl; lia|]].
    + assert (E : api_calls (calls (record_call
                     (ApiCall method path (query_of params) bearer payload) w4))
                  = api_calls (calls w) ++
                    [c1; ApiCall method path (query_of params) bearer payload]).
      { change (calls (record_call ?c w4)) with (calls w4 ++ [c]).
        rewrite api_calls_app, Hget3, Hcalls, Hapi1. now rewrite <- app_assoc. }
      fold payload. destruct (server (calls w4) _); exact E.
    + intros c [<-|[]]. now exists bearer.
  - intros t w3 Hauth. rewrite Hout. unfold bind. rewrite Hauth.
    split; [reflexivity|]. simpl.
    destruct (refreshAccessToken_effect server w2) as [Hcalls _].
    rewrite Hauth in Hcalls. cbn [fst snd] in Hcalls. now rewrite Hcalls.
  - intros fresh w3 Hauth Hfresh c2.
    destruct (refreshAccessToken_effect server w2) as [Hcalls Hcache].
    rewrite Hauth in Hcalls, Hcache. cbn [fst snd] in Hcalls, Hcache.
    specialize (Hcache fresh eq_refl).
    assert (Hget3 : getAccessToken server w3 = (Ok fresh, w3)).
    { now apply getAccessToken_cached. }
    assert (Hrun : outcome =
              match server (calls w3) c2 with
              | NetworkError m => (Throw (ThrowError m), record_call c2 w3)
              | Response status b => (settle status b, record_call c2 w3)
              end).
    { rewrite Hout. unfold bind. rewrite Hauth.
      rewrite request_without_retry, Hget3. reflexivity. }
    assert (Hw : snd outcome = record_call c2 w3).
    { rewrite Hrun. destruct (server (calls w3) c2); reflexivity. }
    split; [now rewrite Hw|]. split.
    + rewrite Hw. change (calls (record_call c2 w3)) with (calls w3 ++ [c2]).
      rewrite api_calls_app, Hcalls, Hapi1.
      now rewrite <- app_assoc.
    + split; [|split].
      * intros m Hm. rewrite Hrun, Hm. reflexivity.
      * intros status b2 Hb. rewrite Hrun, Hb. reflexivity.
      * intros b2 Hb. rewrite Hrun, Hb. reflexivity.
Qed.

End Retry.

(** The theorem for a session holding a stale token, against an API that
    answers 401 to everything and a token endpoint that hands out "t2":
    two API calls, the second with the fresh token, then the failure. *)
Lemma request_retries_once_on_401_witness :
  let unauthorized := VObj [(js "error", VStr (js "unauthorized"))] in
  let server := fun (_ : list Call) (c : Call) =>
    match c with
    | TokenCall _ =>
      Response 200 (Json (VObj [(js "access_token", VStr (js "t2"))]))
    | ApiCall _ _ _ _ _ => Response 401 (Json unauthorized)
    end in
  let w := {| accessToken := Some (js "t1");
              store := {| appId := Some (js "app"); appSecret := Some (js "secret");
                          storedAccessToken := Some (js "t1");
                          storedRefreshToken := None |};
              calls := [] |} in
  let outcome := request server (js "GET") (js "/tags") [] VUndefined true w in
  api_calls (calls (snd outcome)) =
    [ApiCall (js "GET") (js "/tags") [] (js "t1") None;
     ApiCall (js "GET") (js "/tags") [] (js "t2") None] /\
  fst outcome =
    Throw (ThrowObject (VObj [(js "error", VStr (js "unauthorized"));
                              (js "statusCode", VNum 401)])).
Proof.
  intros unauthorized server w outcome.
  destruct (request_retries_once_on_401 server (js "GET") (js "/tags") [] VUndefined
              w (js "t1") w (Json unauthorized) eq_refl eq_refl)
    as (_ & _ & _ & _ & Hfresh).
  destruct (Hfresh (js "t2") _ eq_refl ltac:(discriminate))
    as (_ & Hapi & _ & _ & H401).
  split; [exact Hapi|].
  exact (H401 (Json unauthorized) eq_refl).
Defined.

Section Invalidate.

Variable server : list Call -> Call -> Reply.

(** C9.  [clearToken] sets the cached token to null and nothing else: the
    credential store (app id, app secret, persisted access token,
    persisted refresh token) and the trace of calls are as before.  The
    401 path of [request] does the same before it authenticates again: the
    state it hands to [refreshAccessToken] is [clearToken]'s, with the
    store as it was when the 401 arrived. *)
Theorem clearToken_frame (w : World) :
  (fst (clearToken w) = Ok tt /\
   accessToken (snd (clearToken w)) = None /\
   store (snd (clearToken w)) = store w /\
   storedRefreshToken (store (snd (clearToken w))) = storedRefreshToken (store w) /\
   calls (snd (clearToken w)) = calls w) /\
  (forall method path params body token (w1 : World) b1,
     getAccessToken server w = (Ok token, w1) ->
     let c1 := ApiCall method path (query_of params) token
                       (if truthy_value body then Some body else None) in
     server (calls w1) c1 = Response 401 b1 ->
     request server method path params body true w =
       (_ <- refreshAccessToken server ;;
        request server method path params body false)
         (snd (clearToken (record_call c1 w1))) /\
     store (snd (clearToken (record_call c1 w1))) = store w1).
Proof.
  split.
  - repeat split.
  - intros method path params body token w1 b1 Hget c1 Hreply.
    split; [|reflexivity].
    rewrite request_with_retry, Hget. fold c1. rewrite Hreply. reflexivity.
Qed.

End Invalidate.

(** The theorem on a session whose store holds a refresh token. *)
Lemma clearToken_frame_witness :
  let server := fun (_ : list Call) (_ : Call) => Response 401 (Json VNull) in
  let w := {| accessToken := Some (js "t1");
              store := {| appId := Some (js "app"); appSecret := Some (js "secret");
                          storedAccessToken := Some (js "t1");
                          storedRefreshToken := Some (js "r1") |};
              calls := [] |} in
  storedRefreshToken (store (snd (clearToken w))) = Some (js "r1") /\
  store (snd (clearToken
                (record_call (ApiCall (js "GET") (js "/tags") [] (js "t1") None) w)))
  = store w.
Proof.
  intros server w.
  destruct (clearToken_frame server w) as ((_ & _ & _ & Hrt & _) & Hpath).
  split; [exact Hrt|].
  exact (proj2 (Hpath (js "GET") (js "/tags") [] VUndefined (js "t1") w (Json VNull)
                      eq_refl eq_refl)).
Defined.

(** ** Removing a tag *)

Section Tags.

Variable server : list Call -> Call -> Reply.
Variable type_error : jsstring.



Lemma extends_trans w1 w2 w3 : extends w1 w2 -> extends w2 w3 -> extends w1 w3.
Proof.
  intros [r1 H1] [r2 H2]. exists (r1 ++ r2). now rewrite H2, H1, app_assoc.
Qed.

Lemma extends_record c w w' : extends (record_call c w) w' -> extends w w'.
Proof.
  apply extends_trans. now exists [c].
Qed.







(** With a usable cached token, a request answered by a 2xx response with a
    JSON body returns that body, having sent one call. *)
Lemma request_ok method path params body w token status v :
  accessToken w = Some token -> token <> [] ->
  server (calls w)
         (ApiCall method path (query_of params) token
                  (if truthy_value body then Some body else None))
    = Response status (Json v) ->
  ok status = true -> status <> 204%Z ->
  request server method path params body true w =
  (Ok v, record_call (ApiCall method path (query_of params) token
                              (if truthy_value body then Some body else None)) w).
Proof.
  intros Ht Hne Hreply Hok H204. rewrite request_with_retry.
  rewrite (getAccessToken_cached server w token Ht Hne), Hreply.
  assert (E401 : (status =? 401)%Z = false).
  { apply Z.eqb_neq. intros ->. discriminate. }
  rewrite E401. unfold settle.
  apply Z.eqb_neq in H204. now rewrite H204, Hok.
Qed.

End Tags.

Section RemoveTag.

Variable server : list Call -> Call -> Reply.
Variable type_error : jsstring.





End RemoveTag.


(** ** The conversation summarizer *)

Lemma insert_thread_head t l :
  ascending (t :: l) -> insert_thread t l = t :: l.
Proof.
  destruct l as [|u l]; [reflexivity|].
  intros [H _]. simpl.
  replace (createdAt t - createdAt u <=? 0)%Z with true; [reflexivity|].
  symmetry. apply Z.leb_le. lia.
Qed.

Lemma ascending_tail t l : ascending (t :: l) -> ascending l.
Proof. destruct l as [|u l]; [trivial|]. now intros [_ H]. Qed.

Lemma sort_threads_ascending l : ascending l -> sort_threads l = l.
Proof.
  induction l as [|t l IH]; intros H; [reflexivity|].
  simpl. rewrite IH by (eapply ascending_tail; exact H).
  now apply insert_thread_head.
Qed.

Lemma find_filter_first (p q : Thread -> bool) t l :
  first_such (fun x => p x && q x) t l ->
  find q (filter p l) = Some t.
Proof.
  intros (pre & post & -> & Ht & Hpre).
  apply andb_true_iff in Ht as [Hp Hq].
  induction pre as [|x pre IH]; simpl.
  - now rewrite Hp; simpl; rewrite Hq.
  - assert (Hx : p x && q x = false) by (apply Hpre; now left).
    destruct (p x) eqn:Epx; simpl.
    + simpl in Hx. rewrite Hx. apply IH. intros y Hy. apply Hpre. now right.
    + apply IH. intros y Hy. apply Hpre. now right.
Qed.

Lemma filter_none (p : Thread -> bool) l :
  (forall x, In x l -> p x = false) -> filter p l = [].
Proof.
  induction l as [|x l IH]; intros H; [reflexivity|].
  simpl. rewrite (H x) by now left. apply IH. intros y Hy. apply H. now right.
Qed.

Lemma last_of_filter (p : Thread -> bool) t l :
  last_such p t l ->
  nth_error (filter p l) (length (filter p l) - 1) = Some t.
Proof.
  intros (pre & post & -> & Ht & Hpost).
  rewrite filter_app. simpl. rewrite Ht, (filter_none p post Hpost).
  rewrite length_app. simpl.
  replace (length (filter p pre) + 1 - 1)%nat with (length (filter p pre)) by lia.
  rewrite nth_error_app2 by lia. now rewrite Nat.sub_diag.
Qed.

Lemma truncate_short text :
  (length text <= 300)%nat -> truncate text = text.
Proof.
  intros H. unfold truncate, MAX_MESSAGE_LENGTH.
  apply Nat.leb_le in H. now rewrite H.
Qed.

Lemma truncate_long text :
  (300 < length text)%nat -> truncate text = trim (firstn 300 text) ++ js "...".
Proof.
  intros H. unfold truncate, MAX_MESSAGE_LENGTH.
  apply Nat.leb_gt in H. now rewrite H.
Qed.

(** What [drop_space] drops is whitespace, and what it leaves does not
    start with any. *)
Lemma drop_space_split s :
  exists lead,
    s = lead ++ drop_space s /\
    Forall (fun c => is_space c = true) lead /\
    (forall c r, drop_space s = c :: r -> is_space c = false).
Proof.
  induction s as [|c s (lead & E & Hlead & Hhead)].
  - exists []. split; [reflexivity|]. split; [constructor|discriminate].
  - cbn [drop_space]. destruct (is_space c) eqn:Ec.
    + exists (c :: lead). split; [cbn; now rewrite <- E|].
      split; [now constructor|exact Hhead].
    + exists []. split; [reflexivity|]. split; [constructor|].
      intros c' r [= <- _]. exact Ec.
Qed.

(** [trim] removes the whitespace at both ends, and nothing else. *)
Lemma trim_spec s :
  exists lead trail,
    s = lead ++ trim s ++ trail /\
    Forall (fun c => is_space c = true) lead /\
    Forall (fun c => is_space c = true) trail /\
    (forall c r, trim s = c :: r -> is_space c = false) /\
    (forall r c, trim s = r ++ [c] -> is_space c = false).
Proof.
  destruct (drop_space_split s) as (lead & E1 & Hlead & Hhead).
  destruct (drop_space_split (rev (drop_space s))) as (tail & E2 & Htail & Hlast).
  assert (E3 : drop_space s = trim s ++ rev tail).
  { unfold trim. rewrite <- rev_app_distr, <- E2. now rewrite rev_involutive. }
  exists lead, (rev tail). split; [now rewrite <- E3|].
  split; [exact Hlead|]. split; [|split].
  - apply Forall_forall. intros c Hc. apply in_rev in Hc.
    rewrite Forall_forall in Htail. now apply Htail.
  - intros c r Hc. rewrite Hc in E3. exact (Hhead c _ E3).
  - intros r c Hc. apply (Hlast c (rev r)).
    unfold trim in Hc. apply (f_equal (@rev N)) in Hc.
    rewrite rev_involutive, rev_app_distr in Hc. exact Hc.
Qed.

Section SummarizerProperties.

Variable htmlToPlainText : jsstring -> jsstring.
Variable buildName : option jsstring -> option jsstring -> option jsstring.

(** On threads already in ascending order the sort changes nothing, and
    the empty list needs no case of its own. *)
Lemma extractThreadInfo_ascending threads :
  ascending threads ->
  extractThreadInfo htmlToPlainText buildName (Some threads) =
  let customerThreads := filter (has_type "customer") threads in
  let userThreads := filter (has_type "message") threads in
  let firstCustomerWithBody := find has_body customerThreads in
  let customerSource :=
    person_or (match firstCustomerWithBody with Some t => customer t | None => None end)
              (match firstCustomerWithBody with Some t => createdBy t | None => None end) in
  let userSource :=
    match nth_error userThreads (length userThreads - 1) with
    | Some t => createdBy t
    | None => None
    end in
  {| info_customer :=
       {| p_name := buildPersonName buildName customerSource;
          p_email := email_of customerSource;
          messageCount := length customerThreads;
          firstMessage := first_message htmlToPlainText firstCustomerWithBody |};
     info_user :=
       {| p_name := buildPersonName buildName userSource;
          p_email := email_of userSource;
          messageCount := length userThreads;
          firstMessage := first_message htmlToPlainText (find has_body userThreads) |} |}.
Proof.
  intros H. destruct threads as [|t l]; [reflexivity|].
  unfold extractThreadInfo. now rewrite (sort_threads_ascending _ H).
Qed.

(** C5.  For threads in ascending order of [createdAt]: the customer's name
    is built from the [first] and [last], and the customer's email is the
    [email], of the [customer] of the first customer thread with a
    non-empty body, of its [createdBy] when it has no [customer], and both
    are absent when it has neither; the customer's first message is that
    body made plain text and truncated.  The staff name and email are in
    the same way those of the [createdBy] of the last message thread, and
    the staff first message is the body of the first message thread with a
    non-empty body, made plain text and truncated; each count is the number
    of threads of the type, with or without a body.  [truncate] keeps a
    text of at most 300 characters; of a longer one it keeps the first 300
    characters without the whitespace at their two ends, and nothing but
    that whitespace is dropped, followed by "...".  So with customer
    threads of bodies empty, "Hello" and "Follow-up" and one message thread
    "Thanks!", the customer's first message is the plain text of "Hello"
    and the count 3, and the staff identity is that of the message thread's
    author with count 1. *)
Theorem extractThreadInfo_spec :
  (forall threads, ascending threads ->
     let info := extractThreadInfo htmlToPlainText buildName (Some threads) in
     messageCount (info_customer info)
       = length (filter (has_type "customer") threads) /\
     messageCount (info_user info)
       = length (filter (has_type "message") threads) /\
     (forall t, first_such customer_with_body t threads ->
        (forall p, customer t = Some p ->
           p_name (info_customer info) = buildName (first p) (last p) /\
           p_email (info_customer info) = email p) /\
        (customer t = None -> forall p, createdBy t = Some p ->
           p_name (info_customer info) = buildName (first p) (last p) /\
           p_email (info_customer info) = email p) /\
        (customer t = None -> createdBy t = None ->
           p_name (info_customer info) = None /\
           p_email (info_customer info) = None) /\
        exists body, thread_body t = Some body /\ body <> [] /\
          firstMessage (info_customer info) = Some (truncate (htmlToPlainText body))) /\
     (forall t, last_such (has_type "message") t threads ->
        (forall p, createdBy t = Some p ->
           p_name (info_user info) = buildName (first p) (last p) /\
           p_email (info_user info) = email p) /\
        (createdBy t = None ->
           p_name (info_user info) = None /\ p_email (info_user info) = None)) /\
     (forall t, first_such message_with_body t threads ->
        exists body, thread_body t = Some body /\ body <> [] /\
          firstMessage (info_user info) = Some (truncate (htmlToPlainText body)))) /\
  (forall text, (length text <= 300)%nat -> truncate text = text) /\
  (forall text, (300 < length text)%nat ->
     exists lead kept trail,
       firstn 300 text = lead ++ kept ++ trail /\
       Forall (fun c => is_space c = true) lead /\
       Forall (fun c => is_space c = true) trail /\
       (forall c r, kept = c :: r -> is_space c = false) /\
       (forall r c, kept = r ++ [c] -> is_space c = false) /\
       truncate text = kept ++ js "...") /\
  (forall threads c1 c2 c3 s,
     ascending threads ->
     filter (has_type "customer") threads = [c1; c2; c3] ->
     filter (has_type "message") threads = [s] ->
     thread_body c1 = Some [] -> thread_body c2 = Some (js "Hello") ->
     thread_body c3 = Some (js "Follow-up") -> thread_body s = Some (js "Thanks!") ->
     let info := extractThreadInfo htmlToPlainText buildName (Some threads) in
     firstMessage (info_customer info) = Some (truncate (htmlToPlainText (js "Hello"))) /\
     messageCount (info_customer info) = 3%nat /\
     (forall p, createdBy s = Some p ->
        p_name (info_user info) = buildName (first p) (last p) /\
        p_email (info_user info) = email p) /\
     (createdBy s = None ->
        p_name (info_user info) = None /\ p_email (info_user info) = None) /\
     messageCount (info_user info) = 1%nat).
Proof.
  split; [|split; [exact truncate_short|split]].
  - intros threads H info. subst info.
    rewrite (extractThreadInfo_ascending _ H). cbv zeta. simpl.
    split; [reflexivity|]. split; [reflexivity|]. split; [|split].
    + intros t Ht. rewrite (find_filter_first (has_type "customer") has_body t threads Ht).
      destruct Ht as (_ & _ & _ & Hb & _).
      apply andb_true_iff in Hb as [_ Hb]. unfold has_body in Hb.
      split; [|split; [|split]].
      * intros p ->. split; reflexivity.
      * intros -> p ->. split; reflexivity.
      * intros -> ->. split; reflexivity.
      * simpl. destruct (thread_body t) as [[|c b]|]; try discriminate.
        exists (c :: b). split; [reflexivity|]. split; [discriminate|reflexivity].
    + intros t Ht. rewrite (last_of_filter (has_type "message") t threads Ht).
      split.
      * intros p ->. split; reflexivity.
      * intros ->. split; reflexivity.
    + intros t Ht. rewrite (find_filter_first (has_type "message") has_body t threads Ht).
      destruct Ht as (_ & _ & _ & Hb & _).
      apply andb_true_iff in Hb as [_ Hb]. unfold has_body in Hb.
      simpl. destruct (thread_body t) as [[|c b]|]; try discriminate.
      exists (c :: b). split; [reflexivity|]. split; [discriminate|reflexivity].
  - intros text Hlong. rewrite (truncate_long text Hlong).
    destruct (trim_spec (firstn 300 text))
      as (lead & trail & E & Hlead & Htrail & Hhead & Hlast).
    exists lead, (trim (firstn 300 text)), trail.
    split; [exact E|]. split; [exact Hlead|]. split; [exact Htrail|].
    split; [exact Hhead|]. split; [exact Hlast|reflexivity].
  - intros threads c1 c2 c3 s H Hc Hs B1 B2 B3 B4 info. subst info.
    rewrite (extractThreadInfo_ascending _ H). cbv zeta. rewrite Hc, Hs.
    simpl. unfold has_body. rewrite B1, B2. simpl.
    rewrite B2.
    split; [reflexivity|]. split; [reflexivity|]. split; [|split; [|reflexivity]].
    + intros p ->. split; reflexivity.
    + intros ->. split; reflexivity.
Qed.

End SummarizerProperties.

(** The theorem on the conversation of the specification: three customer
    threads with bodies empty, "Hello" and "Follow-up", then a reply "Thanks!"
    by an agent, with the identity for plain text and, for [buildName], the
    first and the last name with a space between them.  The customer of
    the second thread is found under [createdBy]; and a body of 299 "x", a
    space and 20 "y" is cut to the 299 "x", the space being trimmed. *)
Lemma extractThreadInfo_spec_witness :
  let full_name (f l : option jsstring) :=
    match f, l with
    | Some a, Some b => Some (a ++ js " " ++ b)
    | Some a, None => Some a
    | None, b => b
    end in
  let ann := {| first := Some (js "Ann"); last := Some (js "Lee");
                email := Some (js "ann@example.com") |} in
  let bob := {| first := Some (js "Bob"); last := None;
                email := Some (js "bob@example.com") |} in
  let thread i ty at_ b who by_ :=
    {| thread_id := i; type := ty; createdAt := at_; thread_body := Some b;
       customer := who; createdBy := by_ |} in
  let threads :=
    [ thread 1%Z (js "customer") 10%Z [] None None;
      thread 2%Z (js "customer") 20%Z (js "Hello") None (Some ann);
      thread 3%Z (js "customer") 30%Z (js "Follow-up") (Some bob) None;
      thread 4%Z (js "message") 40%Z (js "Thanks!") (Some ann) (Some bob) ] in
  let info := extractThreadInfo (fun s => s) full_name (Some threads) in
  let long := repeat 120 299 ++ js " " ++ repeat 121 20 in
  ascending threads /\
  p_name (info_customer info) = Some (js "Ann Lee") /\
  p_email (info_customer info) = Some (js "ann@example.com") /\
  firstMessage (info_customer info) = Some (js "Hello") /\
  messageCount (info_customer info) = 3%nat /\
  p_name (info_user info) = Some (js "Bob") /\
  p_email (info_user info) = Some (js "bob@example.com") /\
  messageCount (info_user info) = 1%nat /\
  truncate long = repeat 120 299 ++ js "...".
Proof.
  intros full_name ann bob thread threads info long.
  assert (A : ascending threads) by (simpl; lia).
  split; [exact A|].
  destruct (extractThreadInfo_spec (fun s => s) full_name)
    as (Hinfo & _ & Hcut & Hex).
  destruct (Hinfo threads A) as (_ & _ & Hcustomer & _).
  destruct (Hcustomer (thread 2%Z (js "customer") 20%Z (js "Hello") None (Some ann)))
    as (_ & Hfallback & _).
  { exists [thread 1%Z (js "customer") 10%Z [] None None],
           [thread 3%Z (js "customer") 30%Z (js "Follow-up") (Some bob) None;
            thread 4%Z (js "message") 40%Z (js "Thanks!") (Some ann) (Some bob)].
    split; [reflexivity|]. split; [reflexivity|].
    intros x [<-|[]]. reflexivity. }
  destruct (Hfallback eq_refl ann eq_refl) as [Hname Hemail].
  destruct (Hex threads _ _ _ _ A eq_refl eq_refl eq_refl eq_refl eq_refl eq_refl)
    as (Hfirst & Hcount & Hstaff & _ & Hcount').
  destruct (Hstaff bob eq_refl) as [Hname' Hemail'].
  split; [exact Hname|]. split; [exact Hemail|]. split; [exact Hfirst|].
  split; [exact Hcount|]. split; [exact Hname'|]. split; [exact Hemail'|].
  split; [exact Hcount'|].
  destruct (Hcut long) as (lead & kept & trail & E & Hlead & Htrail & Hhead & Hlast & ->).
  { vm_compute. lia. }
  f_equal.
  assert (Efirst : firstn 300 long = repeat 120 299 ++ [32]) by reflexivity.
  rewrite Efirst in E. clear Efirst.
  (* no whitespace leads: the text starts with an "x" *)
  destruct lead as [|c lead].
  2:{ exfalso. inversion Hlead as [|? ? Hc _]. subst.
      cbn in E. injection E as <- _. discriminate Hc. }
  cbn [app] in E.
  (* the trail is the one space *)
  destruct (exists_last (l := kept)) as (r & c & Ekept).
  { intros ->. cbn [app] in E. rewrite <- E in Htrail.
    inversion Htrail as [|? ? Hc _]. discriminate Hc. }
  pose proof (Hlast r c Ekept) as Hc.
  subst kept. rewrite <- app_assoc in E. cbn [app] in E.
  assert (Hsplit : forall (n : nat) (r trail : jsstring),
            repeat 120 n ++ [32] = r ++ c :: trail ->
            Forall (fun x => is_space x = true) trail ->
            r ++ [c] = repeat 120 n).
  { clear - Hc. induction n as [|n IH]; intros r trail E Htrail.
    - destruct r as [|x r]; cbn in E.
      + injection E as <- _. discriminate Hc.
      + injection E as _ E. destruct r; discriminate E.
    - destruct r as [|x r]; cbn in E.
      + injection E as <- E. destruct n as [|n].
        * cbn in E. subst trail. reflexivity.
        * cbn in E. rewrite <- E in Htrail.
          inversion Htrail as [|? ? Hx _]. discriminate Hx.
      + injection E as <- E. cbn. f_equal. now apply (IH r trail). }
  exact (Hsplit 299%nat r trail E Htrail).
Defined.

(** ** The pagination walker *)

Import Pagination.

Lemma pages_from_S p n : pages_from p (S n) = p :: pages_from (p + 1) n.
Proof.
  unfold pages_from. simpl. rewrite Z.add_0_r. f_equal.
  rewrite <- seq_shift, map_map. apply map_ext. intros i. lia.
Qed.

Lemma pages_from_In p n q : In q (pages_from p n) -> (p <= q)%Z.
Proof.
  unfold pages_from. rewrite in_map_iff. intros (i & <- & _). lia.
Qed.

Lemma pages_from_NoDup p n : NoDup (pages_from p n).
Proof.
  revert p; induction n as [|n IH]; intros p; [constructor|].
  rewrite pages_from_S. constructor; [|apply IH].
  intros H. apply pages_from_In in H. lia.
Qed.

Section Walker.

Variable T : Type.
Variable listing : Z -> PagedResult T.

Lemma walk_from_requested fuel p :
  requested (walk_from fuel listing p)
  = pages_from p (length (requested (walk_from fuel listing p))).
Proof.
  revert p; induction fuel as [|fuel IH]; intros p; [reflexivity|].
  simpl. destruct (last_page (listing p)); simpl.
  - unfold pages_from. simpl. now rewrite Z.add_0_r.
  - rewrite pages_from_S. f_equal. apply IH.
Qed.

Lemma walk_from_collected fuel p :
  collected (walk_from fuel listing p)
  = flat_map (fun q => items (listing q)) (requested (walk_from fuel listing p)).
Proof.
  revert p; induction fuel as [|fuel IH]; intros p; [reflexivity|].
  simpl. destruct (last_page (listing p)); simpl.
  - now rewrite app_nil_r.
  - f_equal. apply IH.
Qed.

Lemma walk_from_continues fuel p i :
  (S i < length (requested (walk_from fuel listing p)))%nat ->
  last_page (listing (p + Z.of_nat i)) = false.
Proof.
  revert p i; induction fuel as [|fuel IH]; intros p i; simpl; [lia|].
  destruct (last_page (listing p)) eqn:E; simpl; [lia|].
  intros H. destruct i as [|i].
  - now rewrite Z.add_0_r.
  - replace (p + Z.of_nat (S i))%Z with (p + 1 + Z.of_nat i)%Z by lia.
    apply IH. lia.
Qed.

Lemma walk_from_finished fuel p :
  finished (walk_from fuel listing p) = true ->
  exists n,
    length (requested (walk_from fuel listing p)) = S n /\
    last_page (listing (p + Z.of_nat n)) = true.
Proof.
  revert p; induction fuel as [|fuel IH]; intros p; simpl; [discriminate|].
  destruct (last_page (listing p)) eqn:E; simpl.
  - intros _. exists O. now rewrite Z.add_0_r.
  - intros H. destruct (IH _ H) as (n & Hlen & Hlast).
    exists (S n). split; [now rewrite Hlen|].
    now replace (p + Z.of_nat (S n))%Z with (p + 1 + Z.of_nat n)%Z by lia.
Qed.

(** Enough fuel, and a listing whose [n]-th page from [p] is the first to
    be the last: the walk stops there. *)
Lemma walk_from_stops n : forall fuel p,
  (forall i, (i < n)%nat -> last_page (listing (p + Z.of_nat i)) = false) ->
  last_page (listing (p + Z.of_nat n)) = true ->
  walk_from (S n + fuel) listing p =
  {| finished := true;
     collected := flat_map (fun q => items (listing q)) (pages_from p (S n));
     requested := pages_from p (S n) |}.
Proof.
  induction n as [|n IH]; intros fuel p Hnot Hlast.
  - simpl. rewrite Z.add_0_r in Hlast. rewrite Hlast.
    unfold pages_from. simpl. now rewrite Z.add_0_r, app_nil_r.
  - change (S (S n) + fuel)%nat with (S (S n + fuel)).
    cbn [walk_from].
    assert (E : last_page (listing p) = false).
    { specialize (Hnot O ltac:(lia)). now rewrite Z.add_0_r in Hnot. }
    rewrite E. rewrite (IH fuel (p + 1)%Z).
    + rewrite (pages_from_S p (S n)). reflexivity.
    + intros i Hi. specialize (Hnot (S i) ltac:(lia)).
      now replace (p + 1 + Z.of_nat i)%Z with (p + Z.of_nat (S i))%Z by lia.
    + now replace (p + 1 + Z.of_nat n)%Z with (p + Z.of_nat (S n))%Z by lia.
Qed.

End Walker.

(** C6.  The walk asks for pages 1, 2, 3, ... in that order, each once,
    and gathers their items in that order; it goes on exactly as long as
    the page it got is not the last one, and stops at the first page whose
    number has reached its total of pages.  A first page whose total is 0
    or absent ends the walk after that one call.  When every page reports
    its own number and the same total, the walk ends after as many calls
    as there are pages, with the items of them all.  Over three pages of 50,
    50 and 7 items with a total of 3 pages it makes the calls 1, 2, 3 and
    returns 107 items. *)
Theorem walk_spec (T : Type) (listing : Z -> PagedResult T) :
  (forall fuel,
     let w := walk fuel listing in
     requested w = pages_from 1 (length (requested w)) /\
     NoDup (requested w) /\
     collected w = flat_map (fun q => items (listing q)) (requested w) /\
     (forall i, (S i < length (requested w))%nat ->
        last_page (listing (1 + Z.of_nat i)%Z) = false) /\
     (finished w = true ->
        exists n, length (requested w) = S n /\
                  last_page (listing (1 + Z.of_nat n)%Z) = true)) /\
  (totalPages (page (listing 1%Z)) = None \/
   totalPages (page (listing 1%Z)) = Some 0%Z ->
   forall fuel,
     walk (S fuel) listing =
     {| finished := true; collected := items (listing 1%Z); requested := [1%Z] |}) /\
  (forall n,
     (forall k, (1 <= k <= Z.of_nat (S n))%Z ->
        number (page (listing k)) = k /\
        totalPages (page (listing k)) = Some (Z.of_nat (S n))) ->
     forall fuel,
       walk (S n + fuel) listing =
       {| finished := true;
          collected := flat_map (fun q => items (listing q)) (pages_from 1 (S n));
          requested := pages_from 1 (S n) |}) /\
  ((forall k, In k [1; 2; 3]%Z ->
      number (page (listing k)) = k /\ totalPages (page (listing k)) = Some 3%Z) ->
   length (items (listing 1%Z)) = 50%nat ->
   length (items (listing 2%Z)) = 50%nat ->
   length (items (listing 3%Z)) = 7%nat ->
   forall fuel,
     let w := walk (3 + fuel) listing in
     finished w = true /\
     requested w = [1; 2; 3]%Z /\
     collected w = items (listing 1%Z) ++ items (listing 2%Z) ++ items (listing 3%Z) /\
     length (collected w) = 107%nat).
Proof.
  split; [|split; [|split]].
  - intros fuel w. subst w. unfold walk.
    split; [apply walk_from_requested|].
    split; [rewrite walk_from_requested; apply pages_from_NoDup|].
    split; [apply walk_from_collected|].
    split; [apply walk_from_continues|apply walk_from_finished].
  - intros H fuel. unfold walk. cbn [walk_from].
    assert (E : last_page (listing 1%Z) = true).
    { unfold last_page. destruct H as [-> | ->]; reflexivity. }
    now rewrite E.
  - intros n Hpages fuel. unfold walk.
    assert (P : forall k, (1 <= k <= Z.of_nat (S n))%Z ->
                  last_page (listing k) = (Z.of_nat (S n) <=? k)%Z).
    { intros k Hk. destruct (Hpages k Hk) as [Hn Ht].
      unfold last_page. rewrite Ht, Hn.
      replace (Z.of_nat (S n) =? 0)%Z with false; [reflexivity|].
      symmetry. apply Z.eqb_neq. lia. }
    apply walk_from_stops.
    + intros i Hi. rewrite P by lia. apply Z.leb_gt. lia.
    + rewrite P by lia. apply Z.leb_le. lia.
  - intros Hpages L1 L2 L3 fuel w. subst w. unfold walk.
    assert (P : forall k, In k [1; 2; 3]%Z ->
                  last_page (listing k) = (3 <=? k)%Z).
    { intros k Hk. destruct (Hpages k Hk) as [Hn Ht].
      unfold last_page. now rewrite Ht, Hn. }
    rewrite (walk_from_stops T listing 2 fuel 1%Z).
    + simpl. rewrite app_nil_r. repeat split.
      rewrite !length_app, L1, L2, L3. reflexivity.
    + intros i Hi. destruct i as [|[|i]]; [| |lia].
      * change (1 + Z.of_nat 0)%Z with 1%Z.
        rewrite (P 1%Z); [reflexivity|simpl; auto].
      * change (1 + Z.of_nat 1)%Z with 2%Z.
        rewrite (P 2%Z); [reflexivity|simpl; auto].
    + change (1 + Z.of_nat 2)%Z with 3%Z.
      rewrite (P 3%Z); [reflexivity|simpl; auto].
Qed.

(** The theorem on a listing of three pages of 50, 50 and 7 items. *)
Lemma walk_spec_witness :
  let listing := fun p : Z =>
    {| items := repeat p (if (p <=? 2)%Z then 50 else 7)%nat;
       page := {| number := p; size := 50%Z; totalElements := 107%Z;
                  totalPages := Some 3%Z |} |} in
  requested (walk 3 listing) = [1; 2; 3]%Z /\
  length (collected (walk 3 listing)) = 107%nat.
Proof.
  intros listing.
  destruct (walk_spec Z listing) as (_ & _ & _ & H).
  assert (Hpages : forall k, In k [1; 2; 3]%Z ->
            number (page (listing k)) = k /\
            totalPages (page (listing k)) = Some 3%Z).
  { intros k _. split; reflexivity. }
  destruct (H Hpages eq_refl eq_refl eq_refl O) as (_ & Hreq & _ & Hlen).
  split; [exact Hreq|exact Hlen].
Defined.

(** * Further properties of the error normalizer (src/lib/errors.ts) *)

Lemma sanitizeErrorMessage_length message :
  (length (sanitizeErrorMessage message) <= 503)%nat.
Proof.
  unfold sanitizeErrorMessage. cbv zeta.
  destruct (500 <? length (redact message))%nat eqn:E.
  - rewrite length_app, length_firstn. cbn [ELLIPSIS]. simpl length. lia.
  - apply Nat.ltb_ge in E. lia.
Qed.

Lemma redact_fixpoint message : redact (redact message) = redact message.
Proof. apply redact_unchanged. apply redact_secret_free. Qed.

(** X1 ([sanitizeErrorMessage]).  Sanitizing a second time changes nothing as
    long as the redacted message fits in 500 characters; it can change a
    truncated one, whose appended dots may complete a pattern that the cut
    left open. *)
Theorem sanitizeErrorMessage_idempotent_when_short :
  (forall message,
     (length (redact message) <= 500)%nat ->
     sanitizeErrorMessage (sanitizeErrorMessage message)
     = sanitizeErrorMessage message) /\
  (exists message,
     sanitizeErrorMessage (sanitizeErrorMessage message)
     <> sanitizeErrorMessage message).
Proof.
  split.
  - intros message H.
    rewrite (sanitizeErrorMessage_short message H).
    rewrite (sanitizeErrorMessage_short (redact message)).
    + apply redact_fixpoint.
    + rewrite redact_fixpoint. exact H.
  - exists (repeat 120 493 ++ js "Bearer !").
    intro H.
    apply (f_equal (fun s => nth 494 s 0)) in H.
    vm_compute in H. discriminate H.
Qed.

Lemma num_or_nonzero a b : b <> 0%Z -> num_or a b <> 0%Z.
Proof.
  intros Hb. unfold num_or. destruct a as [n|]; [|exact Hb].
  destruct (n =? 0)%Z eqn:E; [exact Hb|].
  apply Z.eqb_neq in E. exact E.
Qed.

Lemma num_or_given n b : n <> 0%Z -> num_or (Some n) b = n.
Proof.
  intros Hn. unfold num_or. apply Z.eqb_neq in Hn. rewrite Hn. reflexivity.
Qed.

Lemma num_or_missing a b : a = None \/ a = Some 0%Z -> num_or a b = b.
Proof. intros [-> | ->]; reflexivity. Qed.

Lemma ERROR_STATUS_CODES_nonzero k code :
  lookup k ERROR_STATUS_CODES = Some code -> code <> 0%Z.
Proof.
  unfold ERROR_STATUS_CODES. cbn [lookup].
  repeat match goal with
         | |- (if ?c then _ else _) = _ -> _ => destruct c
         end;
    intros H; inversion H; discriminate.
Qed.

Lemma formatErrorResponse_statusCode n d s :
  err_statusCode (formatErrorResponse n d s) = s.
Proof. reflexivity. Qed.

Lemma formatErrorResponse_name n d s :
  err_name (formatErrorResponse n d s) = n.
Proof. reflexivity. Qed.

Lemma truthy_status v : truthy_value v = true -> Status v <> Status (VNum 0).
Proof. intros H [= ->]. discriminate H. Qed.

(** The name and the detail of a result of [sanitizeApiError]. *)
Lemma sanitizeApiError_returns error r :
  sanitizeApiError error = Returns r ->
  name r = (if truthy_value (get "error" (read_as error)) && isErrorObject error
            then get "error" (read_as error) else VStr (js "api_error")) /\
  truthy_value (name r) = true /\
  (length (detail r) <= 503)%nat.
Proof.
  destruct (isErrorObject error) eqn:Hobj.
  - rewrite (sanitizeApiError_object error Hobj). cbv zeta.
    rewrite andb_true_r.
    set (o := read_as error).
    assert (Hn : truthy_value (if truthy_value (get "error" o) then get "error" o
                               else VStr (js "api_error")) = true).
    { destruct (truthy_value (get "error" o)) eqn:T; [exact T|reflexivity]. }
    revert Hn.
    generalize (if truthy_value (get "error" o) then get "error" o
                else VStr (js "api_error")).
    intros n Hn.
    assert (F : forall v,
               match sanitize v with
               | Throws m => Throws m
               | Returns s => Returns {| name := n; detail := s |}
               end = Returns r ->
               name r = n /\ truthy_value (name r) = true /\
               (length (detail r) <= 503)%nat).
    { intros v. destruct v; cbn [sanitize]; intros E; inversion E.
      cbn [name detail]. split; [reflexivity|]. split; [exact Hn|].
      apply sanitizeErrorMessage_length. }
    destruct (truthy_value (get "error_description" o)); [apply F|].
    destruct (truthy_value (get "message" o)); [apply F|].
    destruct (truthy_value (if nullish _ then _ else _)); [|apply F].
    destruct (embedded_details _) as [joined|m]; [apply F|intros E; discriminate E].
  - unfold sanitizeApiError. rewrite Hobj. cbn [negb]. rewrite andb_false_r.
    intros E; inversion E. cbn [name detail].
    split; [reflexivity|]. split; [reflexivity|]. vm_compute. lia.
Qed.

Lemma value_induction (P : value -> Prop) :
  P VUndefined -> P VNull -> (forall b, P (VBool b)) -> (forall n, P (VNum n)) ->
  (forall s, P (VStr s)) -> (forall l, Forall P l -> P (VArr l)) ->
  (forall fields, P (VObj fields)) ->
  forall v, P v.
Proof.
  intros H1 H2 H3 H4 H5 H6 H7.
  fix IH 1. intros [| |b|n|s|l|fields].
  - exact H1.
  - exact H2.
  - apply H3.
  - apply H4.
  - apply H5.
  - apply H6. induction l as [|x l IHl]; constructor; [apply IH|exact IHl].
  - apply H7.
Qed.

Lemma map_result_throws {A B} (f : A -> Result B) l m :
  map_result f l = Throws m -> exists x, In x l /\ f x = Throws m.
Proof.
  induction l as [|x l IH]; [discriminate|].
  cbn [map_result]. destruct (f x) as [y|mx] eqn:Ex.
  - destruct (map_result f l) as [ys|ml]; [discriminate|].
    intros [= <-]. destruct (IH eq_refl) as (x' & Hin & Hx').
    exists x'. split; [now right|exact Hx'].
  - intros [= <-]. exists x. split; [now left|exact Ex].
Qed.

Lemma ToString_throws v m : ToString v = Throws m -> m = cannot_convert_object.
Proof.
  revert m. induction v as [| |b|n|s|l IH|fields] using value_induction;
    intros m; cbn [ToString]; try discriminate.
  - destruct (map_result _ l) as [parts|ml] eqn:E; [discriminate|].
    intros [= <-]. apply map_result_throws in E as (x & Hin & Hx).
    rewrite Forall_forall in IH.
    destruct x; try discriminate Hx; exact (IH _ Hin _ Hx).
  - destruct (lookup (js "toString") fields); [|discriminate].
    now intros [= <-].
Qed.

Lemma sanitize_throws v m : sanitize v = Throws m -> m = replace_is_not_a_function.
Proof. destruct v; cbn [sanitize]; intros E; inversion E; reflexivity. Qed.

Lemma embedded_details_throws errors m :
  embedded_details errors = Throws m -> raised m.
Proof.
  unfold embedded_details, raised.
  destruct errors as [| |b|z|s|l|f];
    try (intros [= <-]; cbn; tauto).
  destruct (map_result message_or_path l) as [details|m1] eqn:E1.
  - destruct (map_result ToString _) as [parts|m2] eqn:E2; [discriminate|].
    intros [= <-]. apply map_result_throws in E2 as (x & _ & Hx).
    apply ToString_throws in Hx. subst m2. cbn; tauto.
  - intros [= <-]. apply map_result_throws in E1 as (x & _ & Hx).
    unfold message_or_path in Hx. destruct (nullish x); [|discriminate].
    inversion Hx. cbn; tauto.
Qed.

Lemma sanitizeApiError_throws error m :
  sanitizeApiError error = Throws m -> raised m.
Proof.
  destruct (isErrorObject error) eqn:Hobj.
  - rewrite (sanitizeApiError_object error Hobj). cbv zeta.
    set (o := read_as error).
    generalize (if truthy_value (get "error" o) then get "error" o
                else VStr (js "api_error")).
    intros n.
    assert (F : forall v,
               match sanitize v with
               | Throws m => Throws m
               | Returns s => Returns {| name := n; detail := s |}
               end = Throws m -> raised m).
    { intros v. destruct (sanitize v) eqn:E; [discriminate|].
      intros [= <-]. apply sanitize_throws in E. subst. unfold raised. cbn; tauto. }
    destruct (truthy_value (get "error_description" o)); [apply F|].
    destruct (truthy_value (get "message" o)); [apply F|].
    destruct (truthy_value (if nullish _ then _ else _)); [|apply F].
    destruct (embedded_details _) as [joined|m'] eqn:E; [apply F|].
    intros [= <-]. now apply embedded_details_throws in E.
  - unfold sanitizeApiError. rewrite Hobj. discriminate.
Qed.

(** [handleHelpScoutError] on an object that is not a
    [HelpScoutCliError], with the words of the properties. *)
Lemma handleHelpScoutError_other err :
  isErrorObject err = true -> (forall c, err <> CliError c) ->
  handleHelpScoutError err =
  match api_error_name err with
  | Some n =>
    match sanitizeApiError err with
    | Throws m => Rejects m
    | Returns hsError =>
      if truthy_value (explicit_status err) then
        Printed (formatErrorResponse (name hsError) (detail hsError)
                                     (Status (explicit_status err)))
      else
        match ToString (name hsError) with
        | Throws m => Rejects m
        | Returns key =>
          Printed
            (formatErrorResponse (name hsError) (detail hsError)
               match lookup key ERROR_STATUS_CODES with
               | Some code => Status (VNum code)
               | None => if inherited key then Member key
                         else Status (VNum 500)
               end)
        end
    end
  | None =>
    match sanitize (if truthy_value (get "message" (read_as err))
                    then get "message" (read_as err)
                    else VStr (js "An unexpected error occurred")) with
    | Throws m => Rejects m
    | Returns sanitized =>
      Printed (formatErrorResponse (VStr (js "unknown_error")) sanitized
                 (if truthy_value (explicit_status err)
                  then Status (explicit_status err)
                  else Status (VNum 1)))
    end
  end.
Proof.
  intros Hobj Hcli.
  unfold handleHelpScoutError, api_error_name, explicit_status, ERROR_STATUS_CODES_at.
  rewrite Hobj. cbn [negb].
  destruct err as [c|msg|v]; [now destruct (Hcli c)| |];
    (destruct (truthy_value (get "error" _)); [|reflexivity]);
    (destruct (sanitizeApiError _) as [hs|m]; [|reflexivity]);
    (destruct (truthy_value (get "statusCode" _)); [reflexivity|]);
    (destruct (ToString (name hs)) as [key|m]; [|reflexivity]);
    (destruct (lookup key ERROR_STATUS_CODES); [reflexivity|]);
    destruct (inherited key); reflexivity.
Qed.

Lemma handleHelpScoutError_not_object err :
  isErrorObject err = false ->
  handleHelpScoutError err =
  Printed (formatErrorResponse (VStr (js "unknown_error"))
                               (js "An unexpected error occurred") (Status (VNum 1))).
Proof. intros H. unfold handleHelpScoutError. now rewrite H. Qed.

Lemma not_object_fields err :
  isErrorObject err = false ->
  explicit_status err = VUndefined /\ api_error_name err = None.
Proof.
  unfold explicit_status, api_error_name.
  destruct err as [c|m|[| |b|z|s|l|f]]; intros H; try discriminate H;
    split; reflexivity.
Qed.

Lemma not_cli_or_cli err : (exists c, err = CliError c) \/ (forall c, err <> CliError c).
Proof.
  destruct err as [c|m|v]; [left; now exists c|right; discriminate|right; discriminate].
Qed.

(** X2 ([handleHelpScoutError]).  The status code of an error that is
    printed is never [0]: a truthy [statusCode] of the thrown value always
    wins; without one, an API error gets what [ERROR_STATUS_CODES] has under
    its name turned into a key: the code of the table, for a name the table
    lacks the member of [Object.prototype] of that name when there is one,
    and 500 otherwise; every other error gets 1. *)
Theorem handleHelpScoutError_statusCode (err : unknown) (e : CanonicalError) :
  handleHelpScoutError err = Printed e ->
  err_statusCode e <> 0%Z /\
  (truthy_value (explicit_status err) = true ->
     err_statusCode e = Status (explicit_status err)) /\
  (truthy_value (explicit_status err) = false ->
   match api_error_name err with
   | Some n =>
     err_name e = n /\
     exists key,
       ToString n = Returns key /\
       err_statusCode e =
       match lookup key ERROR_STATUS_CODES with
       | Some code => Status (VNum code)
       | None => if inherited key then Member key else Status (VNum 500)
       end
   | None => err_statusCode e = 1%Z
   end).
Proof.
  destruct (isErrorObject err) eqn:Hobj.
  2:{ rewrite (handleHelpScoutError_not_object err Hobj).
      intros [= <-]. rewrite formatErrorResponse_statusCode.
      destruct (not_object_fields err Hobj) as [-> ->].
      split; [discriminate|]. split; [discriminate|reflexivity]. }
  destruct (not_cli_or_cli err) as [[c ->]|Hcli].
  { cbn [handleHelpScoutError isErrorObject negb]. cbv zeta.
    intros [= <-]. rewrite formatErrorResponse_statusCode.
    unfold explicit_status, api_error_name. cbn [read_as].
    destruct (cli_statusCode c) as [n|]; cbn.
    + destruct (n =? 0)%Z eqn:E; cbn.
      * split; [discriminate|]. split; [discriminate|reflexivity].
      * split; [intros [= ->]; discriminate E|].
        split; [reflexivity|discriminate].
    + split; [discriminate|]. split; [discriminate|reflexivity]. }
  rewrite (handleHelpScoutError_other err Hobj Hcli).
  destruct (api_error_name err) as [n|] eqn:Hn.
  - destruct (sanitizeApiError err) as [hs|m] eqn:Hs; [|discriminate].
    destruct (sanitizeApiError_returns err hs Hs) as (Hname & _ & _).
    unfold api_error_name in Hn. rewrite Hobj, andb_true_r in Hname.
    destruct (truthy_value (get "error" (read_as err))); [|discriminate Hn].
    injection Hn as Hn. rewrite Hn in Hname.
    destruct (truthy_value (explicit_status err)) eqn:T.
    + intros [= <-]. rewrite formatErrorResponse_statusCode.
      split; [now apply truthy_status|]. split; [reflexivity|discriminate].
    + destruct (ToString (name hs)) as [key|m] eqn:K; [|discriminate].
      pose proof (ERROR_STATUS_CODES_nonzero key) as Hnz.
      destruct (lookup key ERROR_STATUS_CODES) as [code|] eqn:L;
        intros [= <-];
        rewrite formatErrorResponse_statusCode, formatErrorResponse_name;
        (split;
         [|split;
           [discriminate
           |intros _; split; [exact Hname|]; exists key; rewrite <- Hname;
            split; [exact K|rewrite L; reflexivity]]]).
      * intros [= E]. exact (Hnz _ eq_refl E).
      * destruct (inherited key); discriminate.
  - destruct (sanitize _) as [s|m]; [|discriminate].
    intros [= <-]. rewrite formatErrorResponse_statusCode.
    destruct (truthy_value (explicit_status err)) eqn:T.
    + split; [now apply truthy_status|]. split; [reflexivity|discriminate].
    + split; [discriminate|]. split; [discriminate|reflexivity].
Qed.

(** The theorem on an API error named after a member of [Object.prototype],
    and on one the API names [not_found]. *)
Lemma handleHelpScoutError_statusCode_witness :
  let inherited_name := Plain (VObj [(js "error", VStr (js "constructor"))]) in
  let not_found := Plain (VObj [(js "error", VStr (js "not_found"))]) in
  (exists e, handleHelpScoutError inherited_name = Printed e /\
             err_statusCode e = Member (js "constructor")) /\
  (exists e, handleHelpScoutError not_found = Printed e /\
             err_statusCode e = 404%Z).
Proof.
  intros inherited_name not_found. split.
  - eexists. split; [reflexivity|].
    destruct (handleHelpScoutError_statusCode inherited_name _ eq_refl)
      as (_ & _ & H).
    destruct (H eq_refl) as (_ & key & Hkey & Hcode).
    injection Hkey as <-. exact Hcode.
  - eexists. split; [reflexivity|].
    destruct (handleHelpScoutError_statusCode not_found _ eq_refl)
      as (_ & _ & H).
    destruct (H eq_refl) as (_ & key & Hkey & Hcode).
    injection Hkey as <-. exact Hcode.
Defined.

Lemma formatErrorResponse_detail n d s :
  err_detail (formatErrorResponse n d s) =
  match n with
  | VStr k => if str_eqb k (js "too_many_requests")
              then enhanceRateLimitMessage d else d
  | _ => d
  end.
Proof. reflexivity. Qed.

Lemma formatErrorResponse_bounded n d s :
  truthy_value n = true -> (length d <= 503)%nat ->
  let e := formatErrorResponse n d s in
  truthy_value (err_name e) = true /\
  (err_name e <> js "too_many_requests" -> (length (err_detail e) <= 503)%nat) /\
  (err_name e = js "too_many_requests" ->
     exists d', err_detail e = enhanceRateLimitMessage d' /\ (length d' <= 503)%nat).
Proof.
  intros Hn Hd e. subst e.
  rewrite formatErrorResponse_name, formatErrorResponse_detail.
  split; [exact Hn|]. split.
  - intros H. destruct n as [| |b|z|k|l|f]; try exact Hd.
    destruct (str_eqb k (js "too_many_requests")) eqn:E; [|exact Hd].
    apply str_eqb_eq in E. subst k. contradiction.
  - intros ->. rewrite str_eqb_refl. exists d. split; [reflexivity|exact Hd].
Qed.

Lemma sanitize_message_length v s :
  sanitize v = Returns s -> (length s <= 503)%nat.
Proof.
  destruct v; cbn [sanitize]; intros E; inversion E.
  apply sanitizeErrorMessage_length.
Qed.

Lemma handleHelpScoutError_printed_bounded err e :
  handleHelpScoutError err = Printed e ->
  truthy_value (err_name e) = true /\
  (err_name e <> js "too_many_requests" -> (length (err_detail e) <= 503)%nat) /\
  (err_name e = js "too_many_requests" ->
     exists d, err_detail e = enhanceRateLimitMessage d /\ (length d <= 503)%nat).
Proof.
  destruct (isErrorObject err) eqn:Hobj.
  2:{ rewrite (handleHelpScoutError_not_object err Hobj). intros [= <-].
      apply formatErrorResponse_bounded; [reflexivity|vm_compute; lia]. }
  destruct (not_cli_or_cli err) as [[c ->]|Hcli].
  { cbn [handleHelpScoutError isErrorObject negb]. cbv zeta. intros [= <-].
    apply formatErrorResponse_bounded;
      [reflexivity|apply sanitizeErrorMessage_length]. }
  rewrite (handleHelpScoutError_other err Hobj Hcli).
  destruct (api_error_name err) as [n|].
  - destruct (sanitizeApiError err) as [hs|m] eqn:Hs; [|discriminate].
    destruct (sanitizeApiError_returns err hs Hs) as (_ & Htruthy & Hlen).
    destruct (truthy_value (explicit_status err)).
    + intros [= <-]. now apply formatErrorResponse_bounded.
    + destruct (ToString (name hs)) as [key|m]; [|discriminate].
      intros [= <-]. now apply formatErrorResponse_bounded.
  - destruct (sanitize _) as [s|m] eqn:Hs; [|discriminate].
    intros [= <-]. apply formatErrorResponse_bounded; [reflexivity|].
    exact (sanitize_message_length _ _ Hs).
Qed.

Lemma handleHelpScoutError_rejects err m :
  handleHelpScoutError err = Rejects m -> raised m.
Proof.
  destruct (isErrorObject err) eqn:Hobj.
  2:{ rewrite (handleHelpScoutError_not_object err Hobj). discriminate. }
  destruct (not_cli_or_cli err) as [[c ->]|Hcli]; [discriminate|].
  rewrite (handleHelpScoutError_other err Hobj Hcli).
  destruct (api_error_name err) as [n|].
  - destruct (sanitizeApiError err) as [hs|m'] eqn:Hs.
    + destruct (truthy_value (explicit_status err)); [discriminate|].
      destruct (ToString (name hs)) as [key|m'] eqn:K; [discriminate|].
      intros [= <-]. apply ToString_throws in K. subst m'.
      unfold raised. cbn; tauto.
    + intros [= <-]. now apply sanitizeApiError_throws in Hs.
  - destruct (sanitize _) as [s|m'] eqn:Hs; [discriminate|].
    intros [= <-]. apply sanitize_throws in Hs. subst m'.
    unfold raised. cbn; tauto.
Qed.

Lemma handleHelpScoutError_prints err :
  as_declared (read_as err) = true ->
  string_or_absent (get "error" (read_as err)) = true ->
  exists e, handleHelpScoutError err = Printed e.
Proof.
  intros Hd Hstr.
  destruct (isErrorObject err) eqn:Hobj.
  2:{ rewrite (handleHelpScoutError_not_object err Hobj). eexists; reflexivity. }
  destruct (not_cli_or_cli err) as [[c ->]|Hcli]; [eexists; reflexivity|].
  rewrite (handleHelpScoutError_other err Hobj Hcli).
  unfold api_error_name.
  destruct (truthy_value (get "error" (read_as err))) eqn:Terr.
  - destruct (sanitizeApiError_declared err Hobj Hd) as [hs Hs]. rewrite Hs.
    destruct (sanitizeApiError_returns err hs Hs) as (Hname & _ & _).
    rewrite Terr, Hobj in Hname. cbn [andb] in Hname.
    destruct (truthy_value (explicit_status err)); [eexists; reflexivity|].
    destruct (truthy_string _ Terr Hstr) as [s Es].
    rewrite Hname, Es. cbn [ToString]. eexists; reflexivity.
  - unfold as_declared in Hd.
    apply andb_true_iff in Hd as [Hd _]. apply andb_true_iff in Hd as [_ Hm].
    destruct (truthy_value (get "message" (read_as err))) eqn:Tm.
    + destruct (truthy_string _ Tm Hm) as [s ->]. eexists; reflexivity.
    + eexists; reflexivity.
Qed.

(** X3 ([handleHelpScoutError], [formatErrorResponse]).  An error that is
    printed has a name, and a detail of at most 503 characters; only under
    the name [too_many_requests] is the detail longer, by the rate limit
    note appended to such a detail.  Not every thrown value is printed: on
    one whose fields are not as declared [handleHelpScoutError] can throw
    itself, one of four TypeErrors of the runtime; it prints whenever
    [error], [error_description], [message] and the entries of
    [_embedded.errors] are strings or absent. *)
Theorem handleHelpScoutError_detail_bounded (err : unknown) :
  (forall e, handleHelpScoutError err = Printed e ->
     truthy_value (err_name e) = true /\
     (err_name e <> js "too_many_requests" -> (length (err_detail e) <= 503)%nat) /\
     (err_name e = js "too_many_requests" ->
        exists d, err_detail e = enhanceRateLimitMessage d /\ (length d <= 503)%nat)) /\
  (forall m, handleHelpScoutError err = Rejects m -> raised m) /\
  (as_declared (read_as err) = true ->
   string_or_absent (get "error" (read_as err)) = true ->
   exists e, handleHelpScoutError err = Printed e).
Proof.
  split; [|split].
  - intros e. apply handleHelpScoutError_printed_bounded.
  - intros m. apply handleHelpScoutError_rejects.
  - apply handleHelpScoutError_prints.
Qed.

(** The theorem on an error whose [message] is a number: nothing is
    printed, [handleHelpScoutError] throws that [replace] is not a
    function. *)
Lemma handleHelpScoutError_detail_bounded_witness :
  let err := Plain (VObj [(js "message", VNum 123)]) in
  handleHelpScoutError err = Rejects replace_is_not_a_function /\
  raised replace_is_not_a_function.
Proof.
  intros err. split; [reflexivity|].
  destruct (handleHelpScoutError_detail_bounded err) as (_ & H & _).
  exact (H replace_is_not_a_function eq_refl).
Defined.

(** * Further properties of the client (src/lib/api-client.ts) *)

(** ** The error object [request] throws *)

Lemma str_eqb_sym a b : str_eqb a b = str_eqb b a.
Proof.
  revert b. induction a as [|x a IH]; intros [|y b]; try reflexivity.
  cbn [str_eqb]. rewrite IH, N.eqb_sym. reflexivity.
Qed.

Lemma str_eqb_neq a b : a <> b -> str_eqb a b = false.
Proof.
  intros H. destruct (str_eqb a b) eqn:E; [|reflexivity].
  apply str_eqb_eq in E. contradiction.
Qed.

Lemma lookup_set_field k v fields :
  lookup k (set_field k v fields) = Some v.
Proof.
  induction fields as [|[k' v'] rest IH]; cbn [set_field lookup].
  - now rewrite str_eqb_refl.
  - destruct (str_eqb k k') eqn:E; cbn [lookup].
    + now rewrite str_eqb_refl.
    + now rewrite E.
Qed.

Lemma lookup_set_field_other k k' v fields :
  k' <> k -> lookup k' (set_field k v fields) = lookup k' fields.
Proof.
  intros Hne.
  induction fields as [|[k0 v0] rest IH]; cbn [set_field lookup].
  - now rewrite (str_eqb_neq k' k Hne).
  - destruct (str_eqb k k0) eqn:E; cbn [lookup].
    + apply str_eqb_eq in E. subst k0.
      now rewrite (str_eqb_neq k' k Hne).
    + now rewrite IH.
Qed.

Lemma set_field_twice k v v' fields :
  set_field k v' (set_field k v fields) = set_field k v' fields.
Proof.
  induction fields as [|[k0 v0] rest IH]; cbn [set_field].
  - now rewrite str_eqb_refl.
  - destruct (str_eqb k k0) eqn:E; cbn [set_field].
    + now rewrite str_eqb_refl.
    + now rewrite E, IH.
Qed.

Lemma with_statusCode_status error status :
  num_field "statusCode" (with_statusCode error status) = Some status.
Proof.
  unfold num_field, with_statusCode, get.
  now rewrite lookup_set_field.
Qed.

(** X4 ([request], [refreshAccessToken]: [{ ...error, statusCode }]).  The
    object that is thrown for a failed response carries the HTTP status
    under [statusCode], whatever [statusCode] the body gave itself; every
    other field of an object body is kept; a body that is [null], a number
    or a boolean contributes nothing. *)
Theorem with_statusCode_spec (error : value) (status : Z) :
  num_field "statusCode" (with_statusCode error status) = Some status /\
  (forall fields k,
     error = VObj fields -> js k <> js "statusCode" ->
     get k (with_statusCode error status) = get k error) /\
  (forall other, with_statusCode (with_statusCode error other) status
                 = with_statusCode error status) /\
  (spread error = [] ->
     with_statusCode error status = VObj [(js "statusCode", VNum status)]).
Proof.
  split; [apply with_statusCode_status|]. split; [|split].
  - intros fields k -> Hk. unfold with_statusCode, get. cbn [spread].
    now rewrite (lookup_set_field_other (js "statusCode") (js k) (VNum status) fields Hk).
  - intros other. unfold with_statusCode. cbn [spread].
    now rewrite set_field_twice.
  - intros H. unfold with_statusCode. now rewrite H.
Qed.

(** ** Responses that end a request *)

Section RequestEdges.

Variable server : list Call -> Call -> Reply.

Lemma request_settled method path params body retry (w : World) token w1 status b :
  getAccessToken server w = (Ok token, w1) ->
  server (calls w1) (api_call method path params body token) = Response status b ->
  status <> 401%Z ->
  request server method path params body retry w =
  (settle status b, record_call (api_call method path params body token) w1).
Proof.
  unfold api_call. intros Hget Hserver Hne.
  destruct retry.
  - rewrite request_with_retry, Hget, Hserver.
    apply Z.eqb_neq in Hne. now rewrite Hne.
  - now rewrite request_without_retry, Hget, Hserver.
Qed.

(** X5 ([request]).  A 204 response ends the request with the empty object
    and the body of the response is never read: an unparsable or missing
    body does no harm. *)
Theorem request_no_content method path params body retry
    (w : World) token (w1 : World) b :
  getAccessToken server w = (Ok token, w1) ->
  server (calls w1) (api_call method path params body token) = Response 204 b ->
  request server method path params body retry w =
  (Ok (VObj []), record_call (api_call method path params body token) w1).
Proof.
  intros Hget Hserver.
  rewrite (request_settled method path params body retry w token w1 204 b
             Hget Hserver) by discriminate.
  reflexivity.
Qed.

(** X6 ([request]).  On a failed response whose body cannot be parsed as
    JSON, the request still throws an object with the status code, and
    nothing else in it; a 2xx response with such a body throws the error of
    the parser instead. *)
Theorem request_unreadable_body method path params body retry
    (w : World) token (w1 : World) status m :
  getAccessToken server w = (Ok token, w1) ->
  server (calls w1) (api_call method path params body token)
    = Response status (NotJson m) ->
  status <> 401%Z -> status <> 204%Z ->
  fst (request server method path params body retry w) =
  if ok status
  then Throw (ThrowError m)
  else Throw (ThrowObject (VObj [(js "statusCode", VNum status)])).
Proof.
  intros Hget Hserver H401 H204.
  rewrite (request_settled method path params body retry w token w1 status
             (NotJson m) Hget Hserver H401).
  cbn [fst]. unfold settle.
  apply Z.eqb_neq in H204. rewrite H204.
  destruct (ok status); reflexivity.
Qed.

End RequestEdges.

(** The theorem on a DELETE answered by 204 with an empty body. *)
Lemma request_no_content_witness :
  let server := fun (_ : list Call) (_ : Call) => Response 204 (NotJson (js "Unexpected end of JSON input")) in
  request server (js "DELETE") (js "/conversations/7") [] VUndefined true signed_in =
  (Ok (VObj []),
   record_call (api_call (js "DELETE") (js "/conversations/7") [] VUndefined (js "t1"))
               signed_in).
Proof.
  intros server.
  apply (request_no_content server (js "DELETE") (js "/conversations/7") []
           VUndefined true signed_in (js "t1") signed_in
           (NotJson (js "Unexpected end of JSON input")));
    reflexivity.
Defined.

(** The theorem on a GET answered by 502 with a page of HTML. *)
Lemma request_unreadable_body_witness :
  let server := fun (_ : list Call) (_ : Call) => Response 502 (NotJson (js "Unexpected token <")) in
  fst (request server (js "GET") (js "/tags") [] VUndefined true signed_in) =
  Throw (ThrowObject (VObj [(js "statusCode", VNum 502)])).
Proof.
  intros server.
  apply (request_unreadable_body server (js "GET") (js "/tags") []
           VUndefined true signed_in (js "t1") signed_in 502
           (js "Unexpected token <"));
    [reflexivity|reflexivity|discriminate|discriminate].
Defined.

(** ** What a session keeps *)

Section SessionInvariants.

Variable server : list Call -> Call -> Reply.

(** A relation between the state before and the state after that holds
    across each elementary step of authentication holds across the whole of
    it, however it ends. *)
Section Frame.

Variable R : World -> World -> Prop.
Hypothesis R_refl : forall w, R w w.
Hypothesis R_trans : forall a b c, R a b -> R b c -> R a c.
Hypothesis R_call : forall c w, R w (record_call c w).
Hypothesis R_cache : forall t w, R w (set_accessToken t w).
Hypothesis R_access : forall t w, R w (set_store (store_setAccessToken t) w).
Hypothesis R_refresh :
  forall c t w, R w (set_store (store_setRefreshToken (c :: t)) w).

Ltac frame :=
  repeat first
    [ apply R_refl
    | eapply R_trans; [|first [apply R_call | apply R_cache | apply R_access
                              | apply R_refresh]] ].

Lemma client_credentials_grant_frame id sec w :
  R w (snd (client_credentials_grant server id sec w)).
Proof.
  rewrite client_credentials_grant_run. cbv zeta.
  destruct (server (calls w) _) as [m|status [v|m]]; cbn [snd]; [frame| |frame].
  destruct (ok status); [destruct (nullish v)|]; cbn [snd]; frame.
Qed.

Lemma refresh_attempt_frame id sec rt w :
  R w (snd (refresh_attempt server id sec rt w)).
Proof.
  rewrite refresh_attempt_run.
  destruct (server (calls w) _) as [m|status [v|m]]; cbn [snd]; [frame| |frame].
  destruct (ok status && negb (nullish v)); cbn [snd]; [|frame].
  destruct (token_refresh_token (as_TokenResponse v)) as [[|x t]|]; frame.
Qed.

Lemma refreshAccessToken_frame w : R w (snd (refreshAccessToken server w)).
Proof.
  destruct (appId (store w)) as [[|c i]|] eqn:Ei;
    try (rewrite refreshAccessToken_unconfigured
           by (left; rewrite Ei; reflexivity); apply R_refl).
  destruct (appSecret (store w)) as [[|d s]|] eqn:Es;
    try (rewrite refreshAccessToken_unconfigured
           by (right; rewrite Es; reflexivity); apply R_refl).
  destruct (storedRefreshToken (store w)) as [[|e t]|] eqn:Er;
    try (rewrite (refreshAccessToken_without_refresh_token server (c :: i) (d :: s) w
                    Ei ltac:(discriminate) Es ltac:(discriminate))
           by (rewrite Er; reflexivity);
         apply client_credentials_grant_frame).
  rewrite (refreshAccessToken_with_refresh_token server (c :: i) (d :: s) (e :: t) w
             Ei ltac:(discriminate) Es ltac:(discriminate) Er ltac:(discriminate)).
  pose proof (refresh_attempt_frame (c :: i) (d :: s) (e :: t) w) as H.
  destruct (refresh_attempt server (c :: i) (d :: s) (e :: t) w)
    as [[[token|]|th|ex] w1]; cbn [snd] in *; try exact H.
  eapply R_trans; [exact H|apply client_credentials_grant_frame].
Qed.

Lemma getAccessToken_frame w : R w (snd (getAccessToken server w)).
Proof.
  destruct (truthy (accessToken w)) eqn:Ec.
  - destruct (accessToken w) as [[|c t]|] eqn:E; try discriminate Ec.
    rewrite (getAccessToken_cached server w (c :: t) E) by discriminate.
    apply R_refl.
  - destruct (truthy (storedAccessToken (store w))) eqn:Es.
    + destruct (storedAccessToken (store w)) as [[|c t]|] eqn:E;
        try discriminate Es.
      rewrite (getAccessToken_stored server w (c :: t) Ec E) by discriminate.
      apply R_cache.
    + rewrite (getAccessToken_authenticates server w Ec Es).
      apply refreshAccessToken_frame.
Qed.

Lemma request_false_frame method path params body w :
  R w (snd (request server method path params body false w)).
Proof.
  rewrite request_without_retry.
  pose proof (getAccessToken_frame w) as H.
  destruct (getAccessToken server w) as [[token|th|ex] w1]; cbn [snd] in *;
    try exact H.
  destruct (server (calls w1) _) as [m|status b]; cbn [snd];
    (eapply R_trans; [exact H|apply R_call]).
Qed.

Lemma request_frame method path params body retry w :
  R w (snd (request server method path params body retry w)).
Proof.
  destruct retry; [|apply request_false_frame].
  rewrite request_with_retry.
  pose proof (getAccessToken_frame w) as H.
  destruct (getAccessToken server w) as [[token|th|ex] w1]; cbn [snd] in *;
    try exact H.
  destruct (server (calls w1) _) as [m|status b]; cbn [snd];
    [eapply R_trans; [exact H|apply R_call]|].
  destruct (status =? 401)%Z; cbn [snd];
    [|eapply R_trans; [exact H|apply R_call]].
  unfold bind, clearToken, modify.
  match goal with
  | |- context [refreshAccessToken server ?w2] =>
    pose proof (refreshAccessToken_frame w2) as H2;
    assert (H1 : R w w2) by
      (eapply R_trans; [eapply R_trans; [exact H|apply R_call]|apply R_cache]);
    destruct (refreshAccessToken server w2) as [[fresh|th|ex] w3]
  end; cbn [snd] in *;
    try (eapply R_trans; [exact H1|exact H2]).
  eapply R_trans; [eapply R_trans; [exact H1|exact H2]|].
  apply request_false_frame.
Qed.

End Frame.

Lemma keeps_credentials_refl w : keeps_credentials w w.
Proof. repeat split; auto. Qed.

Lemma keeps_credentials_trans a b c :
  keeps_credentials a b -> keeps_credentials b c -> keeps_credentials a c.
Proof.
  intros (H1 & H2 & H3) (K1 & K2 & K3).
  repeat split; [congruence|congruence|auto].
Qed.

(** X7 ([request], [refreshAccessToken], [getAccessToken]).  No operation of
    the client, however it ends, changes the id or the secret of the
    application, and none removes a persisted refresh token: it can only be
    replaced by the non-empty one a refresh grant returns. *)
Theorem client_keeps_credentials (w : World) :
  keeps_credentials w (snd (refreshAccessToken server w)) /\
  keeps_credentials w (snd (getAccessToken server w)) /\
  (forall method path params body retry,
     keeps_credentials w (snd (request server method path params body retry w))).
Proof.
  assert (Hcall : forall c w0, keeps_credentials w0 (record_call c w0))
    by (intros; repeat split; auto).
  assert (Hcache : forall t w0, keeps_credentials w0 (set_accessToken t w0))
    by (intros; repeat split; auto).
  assert (Haccess : forall t w0,
            keeps_credentials w0 (set_store (store_setAccessToken t) w0))
    by (intros; repeat split; auto).
  assert (Hrefresh : forall c t w0,
            keeps_credentials w0 (set_store (store_setRefreshToken (c :: t)) w0))
    by (intros; repeat split; auto).
  split; [|split].
  - apply (refreshAccessToken_frame keeps_credentials keeps_credentials_refl
             keeps_credentials_trans Hcall Hcache Haccess Hrefresh).
  - apply (getAccessToken_frame keeps_credentials keeps_credentials_refl
             keeps_credentials_trans Hcall Hcache Haccess Hrefresh).
  - intros method path params body retry.
    apply (request_frame keeps_credentials keeps_credentials_refl
             keeps_credentials_trans Hcall Hcache Haccess Hrefresh).
Qed.

End SessionInvariants.

(** ** How many calls an operation makes *)

Section CallBounds.

Variable server : list Call -> Call -> Reply.

Lemma client_credentials_grant_calls id sec w :
  calls (snd (client_credentials_grant server id sec w))
  = calls w ++ [TokenCall (client_credentials id sec)].
Proof.
  rewrite client_credentials_grant_run. cbv zeta.
  destruct (server (calls w) _) as [m|status [v|m]]; try reflexivity.
  destruct (ok status); [destruct (nullish v)|]; reflexivity.
Qed.

Lemma refresh_attempt_calls id sec rt w :
  calls (snd (refresh_attempt server id sec rt w))
  = calls w ++ [TokenCall (refresh_token id sec rt)].
Proof.
  rewrite refresh_attempt_run.
  destruct (server (calls w) _) as [m|status [v|m]]; try reflexivity.
  destruct (ok status && negb (nullish v)); [|reflexivity].
  destruct (token_refresh_token (as_TokenResponse v)) as [[|x t]|]; reflexivity.
Qed.

Lemma refreshAccessToken_calls w :
  exists sent,
    calls (snd (refreshAccessToken server w)) = calls w ++ sent /\
    (length sent <= 2)%nat /\ api_calls sent = [] /\
    (truthy (storedRefreshToken (store w)) = false -> (length sent <= 1)%nat).
Proof.
  destruct (appId (store w)) as [[|c i]|] eqn:Ei;
    try (rewrite refreshAccessToken_unconfigured
           by (left; rewrite Ei; reflexivity);
         exists []; rewrite app_nil_r; cbn; repeat split; lia).
  destruct (appSecret (store w)) as [[|d s]|] eqn:Es;
    try (rewrite refreshAccessToken_unconfigured
           by (right; rewrite Es; reflexivity);
         exists []; rewrite app_nil_r; cbn; repeat split; lia).
  destruct (storedRefreshToken (store w)) as [[|e t]|] eqn:Er;
    try (rewrite (refreshAccessToken_without_refresh_token server (c :: i) (d :: s) w
                    Ei ltac:(discriminate) Es ltac:(discriminate))
           by (rewrite Er; reflexivity);
         rewrite client_credentials_grant_calls;
         eexists; split; [reflexivity|]; cbn; repeat split; lia).
  rewrite (refreshAccessToken_with_refresh_token server (c :: i) (d :: s) (e :: t) w
             Ei ltac:(discriminate) Es ltac:(discriminate) Er ltac:(discriminate)).
  pose proof (refresh_attempt_calls (c :: i) (d :: s) (e :: t) w) as H.
  destruct (refresh_attempt server (c :: i) (d :: s) (e :: t) w)
    as [[[token|]|th|ex] w1]; cbn [snd] in *;
    try (rewrite H; eexists; split; [reflexivity|];
         cbn; repeat split; try lia; discriminate).
  rewrite client_credentials_grant_calls, H, <- app_assoc.
  eexists; split; [reflexivity|]. cbn. repeat split; try lia; discriminate.
Qed.

Lemma getAccessToken_calls w :
  exists sent,
    calls (snd (getAccessToken server w)) = calls w ++ sent /\
    (length sent <= 2)%nat /\ api_calls sent = [] /\
    (truthy (accessToken w) = true \/
     truthy (storedAccessToken (store w)) = true -> sent = []).
Proof.
  destruct (truthy (accessToken w)) eqn:Ec.
  - destruct (accessToken w) as [[|c t]|] eqn:E; try discriminate Ec.
    rewrite (getAccessToken_cached server w (c :: t) E) by discriminate.
    exists []. rewrite app_nil_r. cbn. repeat split; lia.
  - destruct (truthy (storedAccessToken (store w))) eqn:Es.
    + destruct (storedAccessToken (store w)) as [[|c t]|] eqn:E;
        try discriminate Es.
      rewrite (getAccessToken_stored server w (c :: t) Ec E) by discriminate.
      exists []. rewrite app_nil_r. cbn. repeat split; lia.
    + rewrite (getAccessToken_authenticates server w Ec Es).
      destruct (refreshAccessToken_calls w) as (sent & H1 & H2 & H3 & _).
      exists sent. repeat split; try assumption.
      intros [H|H]; discriminate H.
Qed.

(** X8 ([refreshAccessToken], [getAccessToken]).  Authenticating costs at
    most two calls, all to the token endpoint: at most one when no refresh
    token is held.  [getAccessToken] makes no call at all when a token is
    cached or persisted. *)
Theorem authentication_calls (w : World) :
  (exists sent,
     calls (snd (refreshAccessToken server w)) = calls w ++ sent /\
     (length sent <= 2)%nat /\ api_calls sent = [] /\
     (truthy (storedRefreshToken (store w)) = false -> (length sent <= 1)%nat)) /\
  (exists sent,
     calls (snd (getAccessToken server w)) = calls w ++ sent /\
     (length sent <= 2)%nat /\ api_calls sent = [] /\
     (truthy (accessToken w) = true \/
      truthy (storedAccessToken (store w)) = true -> sent = [])).
Proof.
  split; [apply refreshAccessToken_calls|apply getAccessToken_calls].
Qed.

Lemma api_calls_record method path params body token w :
  api_calls (calls (record_call (api_call method path params body token) w))
  = api_calls (calls w) ++ [api_call method path params body token].
Proof.
  change (calls (record_call (api_call method path params body token) w))
    with (calls w ++ [api_call method path params body token]).
  now rewrite api_calls_app.
Qed.

Lemma request_false_api_calls method path params body w :
  exists sent,
    api_calls (calls (snd (request server method path params body false w)))
    = api_calls (calls w) ++ sent /\
    (length sent <= 1)%nat /\
    forall c, In c sent -> exists token, c = api_call method path params body token.
Proof.
  rewrite request_without_retry.
  pose proof (getAccessToken_effect server w) as H.
  destruct (getAccessToken server w) as [[token|th|ex] w1]; cbn [snd] in *;
    try (exists []; rewrite app_nil_r; split; [exact H|];
         split; [cbn; lia|intros c []]).
  exists [api_call method path params body token].
  split.
  - rewrite <- H.
    destruct (server (calls w1) _) as [m|status b]; cbn [snd];
      apply api_calls_record.
  - split; [cbn; lia|].
    intros c [<-|[]]. exists token. reflexivity.
Qed.

Lemma request_true_api_calls method path params body (w : World) :
  exists sent,
    api_calls (calls (snd (request server method path params body true w)))
    = api_calls (calls w) ++ sent /\
    (length sent <= 2)%nat /\
    forall c, In c sent -> exists token, c = api_call method path params body token.
Proof.
  rewrite request_with_retry.
  pose proof (getAccessToken_effect server w) as H.
  destruct (getAccessToken server w) as [[token|th|ex] w1]; cbn [snd] in *;
    try (exists []; rewrite app_nil_r; split; [exact H|];
         split; [cbn; lia|intros c []]).
  assert (Hone : forall o : Outcome value,
            exists sent,
              api_calls (calls (snd (o, record_call
                                          (api_call method path params body token) w1)))
              = api_calls (calls w) ++ sent /\
              (length sent <= 2)%nat /\
              forall c, In c sent ->
                        exists token, c = api_call method path params body token).
  { intros o. exists [api_call method path params body token].
    cbn [snd]. rewrite api_calls_record, H.
    split; [reflexivity|]. split; [cbn; lia|].
    intros c [<-|[]]. exists token. reflexivity. }
  destruct (server (calls w1) _) as [m|status b]; [apply Hone|].
  destruct (status =? 401)%Z; [|apply Hone].
  unfold bind, clearToken, modify.
  fold (api_call method path params body token).
  match goal with
  | |- context [refreshAccessToken server ?w2] =>
    pose proof (proj1 (refreshAccessToken_effect server w2)) as H2;
    assert (H1 : api_calls (calls w2)
                 = api_calls (calls w) ++ [api_call method path params body token])
      by (rewrite <- H; apply api_calls_record);
    destruct (refreshAccessToken server w2) as [[fresh|th|ex] w3]
  end; cbn [snd] in *;
    try (exists [api_call method path params body token];
         rewrite H2, H1; split; [reflexivity|];
         split; [cbn; lia|];
         intros c [<-|[]]; exists token; reflexivity).
  destruct (request_false_api_calls method path params body w3)
    as (sent & Hs & Hlen & Hsent).
  exists (api_call method path params body token :: sent).
  rewrite Hs, H2, H1, <- app_assoc.
  split; [reflexivity|]. split; [cbn; lia|].
  intros c [<-|Hin]; [exists token; reflexivity|apply Hsent; exact Hin].
Qed.

(** X9 ([request]).  Whatever the server answers and whatever the state of
    the session, one request reaches the API at most twice, at most once
    when [retry] is false, and always at the same method, path, query and
    body: only the bearer token may differ. *)
Theorem request_api_calls_bound method path params body retry (w : World) :
  exists sent,
    api_calls (calls (snd (request server method path params body retry w)))
    = api_calls (calls w) ++ sent /\
    (length sent <= if retry then 2 else 1)%nat /\
    forall c, In c sent -> exists token, c = api_call method path params body token.
Proof.
  destruct retry.
  - apply request_true_api_calls.
  - apply request_false_api_calls.
Qed.

(** X10 ([getAccessToken]).  In every state, a token that [getAccessToken]
    returns is left in the cache of the session, so that asking again
    returns the same token without any call. *)
Theorem getAccessToken_caches (w : World) t (w' : World) :
  getAccessToken server w = (Ok t, w') ->
  accessToken w' = Some t /\
  (t <> [] -> getAccessToken server w' = (Ok t, w')).
Proof.
  intros H.
  assert (Hc : accessToken w' = Some t).
  { destruct (truthy (accessToken w)) eqn:Ec.
    - destruct (accessToken w) as [[|c u]|] eqn:E; try discriminate Ec.
      rewrite (getAccessToken_cached server w (c :: u) E) in H by discriminate.
      inversion H; subst. exact E.
    - destruct (truthy (storedAccessToken (store w))) eqn:Es.
      + destruct (storedAccessToken (store w)) as [[|c u]|] eqn:E;
          try discriminate Es.
        rewrite (getAccessToken_stored server w (c :: u) Ec E) in H
          by discriminate.
        inversion H; subst. reflexivity.
      + rewrite (getAccessToken_authenticates server w Ec Es) in H.
        pose proof (proj2 (refreshAccessToken_effect server w) t) as K.
        rewrite H in K. apply K. reflexivity. }
  split; [exact Hc|].
  intros Hne. apply getAccessToken_cached; assumption.
Qed.

End CallBounds.

(** The theorem on a session without a token, against a token endpoint
    that hands out "t2". *)
Lemma getAccessToken_caches_witness :
  let server := fun (_ : list Call) (_ : Call) =>
    Response 200 (Json (VObj [(js "access_token", VStr (js "t2"))])) in
  let w' := snd (getAccessToken server signed_out) in
  accessToken w' = Some (js "t2") /\
  (js "t2" <> [] -> getAccessToken server w' = (Ok (js "t2"), w')).
Proof.
  intros server w'.
  apply (getAccessToken_caches server signed_out (js "t2") w').
  reflexivity.
Defined.

(** ** The refresh grant and the store *)

Section Rotation.

Variable server : list Call -> Call -> Reply.

(** X11 ([refreshAccessToken]).  When the refresh grant is answered by a
    2xx response whose body holds a string [access_token], and a
    [refresh_token] that is a string or absent, the new access token is
    both persisted and cached, no second call is made, and the persisted
    refresh token is replaced by the one of the response when it has a
    non-empty one, and kept otherwise.  A 2xx response whose body is [null]
    is no success: the client credentials grant follows. *)
Theorem refresh_grant_rotates (w : World) id sec rt status v :
  appId (store w) = Some id -> id <> [] ->
  appSecret (store w) = Some sec -> sec <> [] ->
  storedRefreshToken (store w) = Some rt -> rt <> [] ->
  server (calls w) (TokenCall (refresh_token id sec rt)) = Response status (Json v) ->
  ok status = true ->
  let w' := snd (refreshAccessToken server w) in
  (forall t,
     str_field "access_token" v = Some t ->
     string_or_absent (get "refresh_token" v) = true ->
     fst (refreshAccessToken server w) = Ok t /\
     accessToken w' = Some t /\
     storedAccessToken (store w') = Some t /\
     storedRefreshToken (store w') =
       match get "refresh_token" v with
       | VStr (c :: r) => Some (c :: r)
       | _ => Some rt
       end /\
     appId (store w') = Some id /\ appSecret (store w') = Some sec /\
     calls w' = calls w ++ [TokenCall (refresh_token id sec rt)]) /\
  (v = VNull ->
     calls w' = calls w ++ [TokenCall (refresh_token id sec rt);
                            TokenCall (client_credentials id sec)]).
Proof.
  intros Hid Hidne Hsec Hsecne Hrt Hrtne Hreply Hok w'.
  subst w'.
  rewrite (refreshAccessToken_with_refresh_token server id sec rt w
             Hid Hidne Hsec Hsecne Hrt Hrtne).
  rewrite refresh_attempt_run, Hreply, Hok.
  split.
  - intros t Ht Hstr.
    rewrite (str_field_not_nullish "access_token" v t Ht). cbn [andb negb].
    unfold as_TokenResponse. cbn [access_token token_refresh_token].
    rewrite Ht. unfold str_field.
    destruct (get "refresh_token" v) as [| |b|n|[|x r]|l|f];
      try discriminate Hstr;
      cbn; rewrite ?Hid, ?Hsec, ?Hrt; repeat split; reflexivity.
  - intros ->. cbn [nullish andb negb fst snd].
    rewrite client_credentials_grant_calls. cbn [calls record_call].
    now rewrite <- app_assoc.
Qed.

End Rotation.

(** The theorem on a session holding the refresh token "r1", against a
    token endpoint that hands out "t2" and the refresh token "r2". *)
Lemma refresh_grant_rotates_witness :
  let server := fun (_ : list Call) (_ : Call) =>
    Response 200 (Json (VObj [(js "access_token", VStr (js "t2"));
                              (js "refresh_token", VStr (js "r2"))])) in
  let w' := snd (refreshAccessToken server signed_out) in
  accessToken w' = Some (js "t2") /\
  storedAccessToken (store w') = Some (js "t2") /\
  storedRefreshToken (store w') = Some (js "r2").
Proof.
  intros server w'.
  destruct (refresh_grant_rotates server signed_out (js "app") (js "secret")
              (js "r1") 200
              (VObj [(js "access_token", VStr (js "t2"));
                     (js "refresh_token", VStr (js "r2"))])
              eq_refl ltac:(discriminate) eq_refl ltac:(discriminate)
              eq_refl ltac:(discriminate) eq_refl eq_refl)
    as (Hsuccess & _).
  destruct (Hsuccess (js "t2") eq_refl eq_refl) as (_ & H1 & H2 & H3 & _).
  split; [exact H1|]. split; [exact H2|exact H3].
Defined.

(** ** From a failed response to the error that is printed *)

Lemma get_with_statusCode error status :
  get "statusCode" (with_statusCode error status) = VNum status.
Proof.
  unfold with_statusCode, get. now rewrite lookup_set_field.
Qed.

(** A truthy [statusCode] of the thrown value is the one that is printed. *)
Lemma handleHelpScoutError_explicit err e :
  handleHelpScoutError err = Printed e ->
  truthy_value (explicit_status err) = true ->
  (forall c, err <> CliError c) ->
  err_statusCode e = Status (explicit_status err).
Proof.
  intros H T Hcli.
  destruct (isErrorObject err) eqn:Hobj.
  2:{ destruct (not_object_fields err Hobj) as [E _]. rewrite E in T.
      discriminate T. }
  rewrite (handleHelpScoutError_other err Hobj Hcli), T in H.
  destruct (api_error_name err) as [n|].
  - destruct (sanitizeApiError err) as [hs|m]; [|discriminate H].
    injection H as <-. reflexivity.
  - destruct (sanitize _) as [s|m]; [|discriminate H].
    injection H as <-. reflexivity.
Qed.

Lemma handleHelpScoutError_bare (status : Z) :
  status <> 0%Z ->
  handleHelpScoutError (Plain (with_statusCode (VObj []) status))
  = Printed {| err_name := js "unknown_error";
               err_detail := js "An unexpected error occurred";
               err_statusCode := status |}.
Proof.
  intros Hne. unfold handleHelpScoutError, with_statusCode.
  cbn [isErrorObject negb read_as spread set_field get lookup].
  cbn [js String.length str_eqb]. cbn.
  apply Z.eqb_neq in Hne. rewrite Hne. cbn [negb].
  replace (sanitizeErrorMessage (js "An unexpected error occurred"))
    with (js "An unexpected error occurred") by (vm_compute; reflexivity).
  reflexivity.
Qed.

Section FailedRequest.

Variable server : list Call -> Call -> Reply.

(** X12 ([withErrorHandling] of the client over [request], with
    [handleHelpScoutError]).  A method of the client whose request gets a
    failed response that is not retried hands to [handleHelpScoutError] the
    parsed body with the HTTP status as its [statusCode].  When the error is
    printed, as it is whenever the fields of the body are as declared, the
    process ends, and the status code that is printed is the HTTP status of
    the response, whatever the body says; a body that is not JSON gives the
    name [unknown_error] and the default detail.  When the fields of the
    body make [handleHelpScoutError] throw, the method rejects with that
    TypeError instead of ending the process. *)
Theorem failed_request_exits_with_status method path params body retry
    (w : World) token (w1 : World) status b :
  getAccessToken server w = (Ok token, w1) ->
  server (calls w1) (api_call method path params body token) = Response status b ->
  ok status = false -> status <> 0%Z ->
  retry = false \/ status <> 401%Z ->
  let thrown := Plain (with_statusCode (parsed_or_empty b) status) in
  let w2 := record_call (api_call method path params body token) w1 in
  let outcome := withErrorHandling (request server method path params body retry) w in
  (forall e, handleHelpScoutError thrown = Printed e ->
     outcome = (Exit e, w2) /\ err_statusCode e = status) /\
  (forall m, handleHelpScoutError thrown = Rejects m ->
     outcome = (Throw (ThrowError m), w2) /\ raised m) /\
  (as_declared (read_as thrown) = true ->
   string_or_absent (get "error" (read_as thrown)) = true ->
     exists e, outcome = (Exit e, w2) /\ err_statusCode e = status) /\
  (forall m, b = NotJson m ->
     outcome = (Exit {| err_name := js "unknown_error";
                        err_detail := js "An unexpected error occurred";
                        err_statusCode := status |}, w2)).
Proof.
  intros Hget Hserver Hok Hne Hretry thrown w2 outcome.
  assert (Hrun : request server method path params body retry w =
                 (Throw (ThrowObject (with_statusCode (parsed_or_empty b) status)),
                  w2)).
  { assert (H204 : (status =? 204)%Z = false).
    { apply Z.eqb_neq. intros ->. discriminate Hok. }
    assert (Hsettle : settle status b =
              Throw (ThrowObject (with_statusCode (parsed_or_empty b) status))).
    { unfold settle. now rewrite H204, Hok. }
    rewrite <- Hsettle.
    destruct Hretry as [-> | H401].
    - rewrite request_without_retry, Hget. unfold api_call in Hserver.
      now rewrite Hserver.
    - apply request_settled; assumption. }
  assert (Hout : outcome =
            match handleHelpScoutError thrown with
            | Printed e => (Exit e, w2)
            | Rejects m => (Throw (ThrowError m), w2)
            end).
  { subst outcome. unfold withErrorHandling. rewrite Hrun. reflexivity. }
  assert (Hstatus : forall e, handleHelpScoutError thrown = Printed e ->
                              err_statusCode e = Status (VNum status)).
  { intros e He.
    assert (Hexp : explicit_status thrown = VNum status)
      by apply get_with_statusCode.
    rewrite <- Hexp. apply handleHelpScoutError_explicit; [exact He| |discriminate].
    rewrite Hexp. cbn [truthy_value]. apply negb_true_iff. now apply Z.eqb_neq. }
  split; [|split; [|split]].
  - intros e He. split; [now rewrite Hout, He|now apply Hstatus].
  - intros m Hm. split; [now rewrite Hout, Hm|].
    exact (handleHelpScoutError_rejects thrown m Hm).
  - intros Hd Herr.
    destruct (handleHelpScoutError_prints thrown Hd Herr) as [e He].
    exists e. split; [now rewrite Hout, He|now apply Hstatus].
  - intros m ->. rewrite Hout. subst thrown. cbn [parsed_or_empty].
    now rewrite (handleHelpScoutError_bare status Hne).
Qed.

End FailedRequest.

(** The theorem on a GET answered by 404 with a body that calls its own
    status 200. *)
Lemma failed_request_exits_with_status_witness :
  let server := fun (_ : list Call) (_ : Call) =>
    Response 404 (Json (VObj [(js "error", VStr (js "not_found"));
                              (js "statusCode", VNum 200)])) in
  exists e,
    withErrorHandling
      (request server (js "GET") (js "/conversations/7") [] VUndefined true)
      signed_in
    = (Exit e, record_call (api_call (js "GET") (js "/conversations/7") []
                                     VUndefined (js "t1")) signed_in) /\
    err_statusCode e = 404%Z.
Proof.
  intros server.
  destruct (failed_request_exits_with_status server (js "GET")
              (js "/conversations/7") [] VUndefined true signed_in (js "t1")
              signed_in 404
              (Json (VObj [(js "error", VStr (js "not_found"));
                           (js "statusCode", VNum 200)])))
    as (_ & _ & H & _);
    [reflexivity|reflexivity|reflexivity|discriminate|right; discriminate|].
  exact (H eq_refl eq_refl).
Defined.

(** * Properties of [summarizeConversations] (src/commands/conversations.ts) *)

Section Objects.

Variable V : Type.

Lemma lookup_overwrite_same k (v x : V) o :
  lookup k o = Some x -> lookup k (overwrite k v o) = Some v.
Proof.
  induction o as [|[k' v'] rest IH]; cbn [lookup overwrite]; [discriminate|].
  destruct (str_eqb k k') eqn:E; cbn [lookup].
  - now rewrite str_eqb_refl.
  - now rewrite E.
Qed.

Lemma lookup_overwrite_other k k' (v : V) o :
  k' <> k -> lookup k' (overwrite k v o) = lookup k' o.
Proof.
  intros Hne. induction o as [|[k0 v0] rest IH]; cbn [lookup overwrite];
    [reflexivity|].
  destruct (str_eqb k k0) eqn:E; cbn [lookup].
  - apply str_eqb_eq in E. subst k0. now rewrite (str_eqb_neq k' k Hne).
  - now rewrite IH.
Qed.

Lemma lookup_add_index_same n k (v : V) o :
  lookup k o = None -> lookup k (add_index n k v o) = Some v.
Proof.
  induction o as [|[k' v'] rest IH]; cbn [lookup add_index].
  - now rewrite str_eqb_refl.
  - destruct (str_eqb k k') eqn:E; [discriminate|]. intros H.
    destruct (array_index k') as [m|]; [destruct (n <? m)|]; cbn [lookup];
      rewrite ?str_eqb_refl, ?E; auto.
Qed.

Lemma lookup_add_index_other n k k' (v : V) o :
  k' <> k -> lookup k' (add_index n k v o) = lookup k' o.
Proof.
  intros Hne. induction o as [|[k0 v0] rest IH]; cbn [lookup add_index].
  - now rewrite (str_eqb_neq k' k Hne).
  - destruct (array_index k0) as [m|]; [destruct (n <? m)|]; cbn [lookup];
      rewrite ?(str_eqb_neq k' k Hne); try reflexivity.
    now rewrite IH.
Qed.

Lemma lookup_app_same k (v : V) o :
  lookup k o = None -> lookup k (o ++ [(k, v)]) = Some v.
Proof.
  induction o as [|[k' v'] rest IH]; cbn [lookup app].
  - now rewrite str_eqb_refl.
  - destruct (str_eqb k k'); [discriminate|exact IH].
Qed.

Lemma lookup_app_other k k' (v : V) o :
  k' <> k -> lookup k' (o ++ [(k, v)]) = lookup k' o.
Proof.
  intros Hne. induction o as [|[k0 v0] rest IH]; cbn [lookup app].
  - now rewrite (str_eqb_neq k' k Hne).
  - now rewrite IH.
Qed.

Lemma lookup_define_same k (v : V) o : lookup k (define k v o) = Some v.
Proof.
  unfold define. destruct (lookup k o) as [x|] eqn:E.
  - apply (lookup_overwrite_same k v x o E).
  - destruct (array_index k) as [n|].
    + apply lookup_add_index_same. exact E.
    + apply lookup_app_same. exact E.
Qed.

Lemma lookup_define_other k k' (v : V) o :
  k' <> k -> lookup k' (define k v o) = lookup k' o.
Proof.
  intros Hne. unfold define. destruct (lookup k o) as [x|].
  - apply lookup_overwrite_other. exact Hne.
  - destruct (array_index k) as [n|].
    + apply lookup_add_index_other. exact Hne.
    + apply lookup_app_other. exact Hne.
Qed.

End Objects.

Lemma inherited_proto : inherited (js "__proto__") = true.
Proof. reflexivity. Qed.

Lemma not_inherited_not_proto k :
  inherited k = false -> str_eqb k (js "__proto__") = false.
Proof.
  intros H. destruct (str_eqb k (js "__proto__")) eqn:E; [|reflexivity].
  apply str_eqb_eq in E. subst k. discriminate H.
Qed.

Lemma lookup_increment_other k k' o :
  k' <> k -> lookup k' (increment k o) = lookup k' o.
Proof.
  intros Hne. unfold increment.
  destruct (str_eqb k (js "__proto__")); [reflexivity|].
  apply lookup_define_other. exact Hne.
Qed.

Lemma lookup_increment_same k o :
  str_eqb k (js "__proto__") = false ->
  lookup k (increment k o) =
  Some match read k o with
       | Own (Number n) => Number (n + 1)
       | Own Text => Text
       | Inherited => Text
       | Missing => Number 1
       end.
Proof.
  intros H. unfold increment. rewrite H. apply lookup_define_same.
Qed.

Lemma count_keys_cons k keys o :
  count_keys (k :: keys) o = count_keys keys (increment k o).
Proof. reflexivity. Qed.

Lemma count_keys_app keys keys' o :
  count_keys (keys ++ keys') o = count_keys keys' (count_keys keys o).
Proof. apply fold_left_app. Qed.

Lemma occurrences_cons k k' keys :
  occurrences k (k' :: keys) =
  if str_eqb k k' then S (occurrences k keys) else occurrences k keys.
Proof. unfold occurrences. cbn [filter]. now destruct (str_eqb k k'). Qed.

(** A name that is not inherited holds the number of times it was met. *)
Lemma count_keys_counted k keys :
  inherited k = false ->
  forall o n, lookup k o = counted n ->
  lookup k (count_keys keys o) = counted (n + occurrences k keys).
Proof.
  intros Hk. induction keys as [|k' keys IH]; intros o n Ho.
  - cbn. now rewrite Nat.add_0_r.
  - rewrite count_keys_cons, occurrences_cons.
    destruct (str_eqb k k') eqn:E.
    + apply str_eqb_eq in E. subst k'.
      replace (n + S (occurrences k keys))%nat
        with (S n + occurrences k keys)%nat by lia.
      apply IH.
      rewrite (lookup_increment_same k o (not_inherited_not_proto k Hk)).
      unfold read. rewrite Ho, Hk.
      destruct n as [|n]; cbn [counted]; [reflexivity|].
      now rewrite Nat.add_1_r.
    + apply IH. rewrite lookup_increment_other; [exact Ho|].
      intros ->. now rewrite str_eqb_refl in E.
Qed.

(** An inherited name never holds a number. *)
Lemma count_keys_inherited k keys :
  inherited k = true ->
  forall o, lookup k o = None \/ lookup k o = Some Text ->
  lookup k (count_keys keys o) =
  match lookup k o with
  | Some s => Some s
  | None =>
    if str_eqb k (js "__proto__") || (occurrences k keys =? 0)%nat
    then None else Some Text
  end.
Proof.
  intros Hk. induction keys as [|k' keys IH]; intros o Ho.
  - cbn [count_keys fold_left occurrences filter length Nat.eqb].
    rewrite orb_true_r. now destruct (lookup k o).
  - rewrite count_keys_cons, occurrences_cons.
    destruct (str_eqb k k') eqn:E.
    + apply str_eqb_eq in E. subst k'.
      destruct (str_eqb k (js "__proto__")) eqn:P.
      * assert (Hsame : increment k o = o) by (unfold increment; now rewrite P).
        rewrite Hsame, (IH o Ho). reflexivity.
      * assert (Hnext : lookup k (increment k o) = Some Text).
        { rewrite (lookup_increment_same k o P). unfold read.
          destruct Ho as [-> | ->]; [now rewrite Hk|reflexivity]. }
        rewrite (IH (increment k o)) by (right; exact Hnext).
        rewrite Hnext. cbn [orb Nat.eqb].
        now destruct Ho as [-> | ->].
    + assert (Hne : k <> k') by (intros ->; now rewrite str_eqb_refl in E).
      rewrite (IH (increment k' o));
        rewrite (lookup_increment_other k' k o Hne); [reflexivity|exact Ho].
Qed.

Lemma count_conversations_from conversations : forall a b,
  fold_left
    (fun counters conv =>
       let byStatus := increment (conv_status conv) (fst counters) in
       let byTag :=
         fold_left (fun byTag tag => increment (tag_name tag) byTag)
                   (tags_or_empty conv) (snd counters) in
       (byStatus, byTag))
    conversations (a, b)
  = (count_keys (statuses conversations) a,
     count_keys (tag_names conversations) b).
Proof.
  induction conversations as [|c rest IH]; intros a b; [reflexivity|].
  cbn [fold_left fst snd]. cbv zeta. rewrite IH.
  cbn [statuses map tag_names flat_map].
  rewrite count_keys_cons, count_keys_app. f_equal. f_equal.
  unfold count_keys. generalize b.
  induction (tags_or_empty c) as [|t ts IHt]; intros b0; [reflexivity|].
  cbn [map fold_left]. apply IHt.
Qed.

Lemma count_conversations_keys conversations :
  count_conversations conversations
  = (count_keys (statuses conversations) [],
     count_keys (tag_names conversations) []).
Proof. apply count_conversations_from. Qed.

Section SummaryProperties.

Variable htmlToPlainText : jsstring -> jsstring.
Variable buildName : option jsstring -> option jsstring -> option jsstring.

(** X13 ([summarizeConversations]).  Under a status that is not the name of
    a member of [Object.prototype], [byStatus] holds the number of
    conversations with that status, and nothing when there is none; the
    same for [byTag] and the number of times a tag name occurs among the
    tags of the conversations. *)
Theorem summarizeConversations_counts (conversations : list Conversation)
    (k : jsstring) :
  inherited k = false ->
  let summary := summarizeConversations htmlToPlainText buildName conversations in
  lookup k (byStatus summary) = counted (occurrences k (statuses conversations)) /\
  lookup k (byTag summary) = counted (occurrences k (tag_names conversations)).
Proof.
  intros Hk summary. subst summary. unfold summarizeConversations. cbv zeta.
  cbn [byStatus byTag]. rewrite count_conversations_keys. cbn [fst snd].
  split.
  - apply (count_keys_counted k (statuses conversations) Hk [] O). reflexivity.
  - apply (count_keys_counted k (tag_names conversations) Hk [] O). reflexivity.
Qed.

(** X14 ([summarizeConversations]).  A status or a tag that is named like a
    member of [Object.prototype] ([constructor], [toString], ...) is never
    counted: once met, its entry is a string and not a number, and
    [__proto__] gets no entry at all. *)
Theorem summarizeConversations_inherited_names
    (conversations : list Conversation) (k : jsstring) :
  inherited k = true ->
  let summary := summarizeConversations htmlToPlainText buildName conversations in
  lookup k (byStatus summary) =
    (if str_eqb k (js "__proto__")
        || (occurrences k (statuses conversations) =? 0)%nat
     then None else Some Text) /\
  lookup k (byTag summary) =
    (if str_eqb k (js "__proto__")
        || (occurrences k (tag_names conversations) =? 0)%nat
     then None else Some Text).
Proof.
  intros Hk summary. subst summary. unfold summarizeConversations. cbv zeta.
  cbn [byStatus byTag]. rewrite count_conversations_keys. cbn [fst snd].
  split.
  - apply (count_keys_inherited k (statuses conversations) Hk []).
    left; reflexivity.
  - apply (count_keys_inherited k (tag_names conversations) Hk []).
    left; reflexivity.
Qed.

End SummaryProperties.

Lemma all_numbers_lookup k o s :
  all_numbers o -> lookup k o = Some s -> exists n, s = Number n.
Proof.
  intros H. induction H as [|[k' s'] rest Hs _ IH]; cbn [lookup];
    [discriminate|].
  destruct (str_eqb k k'); [|exact IH].
  intros E. inversion E; subst. exact Hs.
Qed.

Lemma sum_counts_overwrite k n o :
  lookup k o = Some (Number n) ->
  sum_counts (overwrite k (Number (n + 1)) o) = S (sum_counts o).
Proof.
  induction o as [|[k' s'] rest IH]; cbn [lookup overwrite]; [discriminate|].
  destruct (str_eqb k k').
  - intros E. inversion E; subst. cbn [sum_counts]. lia.
  - intros E. cbn [sum_counts]. rewrite (IH E). destruct s'; lia.
Qed.

Lemma all_numbers_overwrite k n o :
  all_numbers o -> all_numbers (overwrite k (Number n) o).
Proof.
  intros H. induction H as [|[k' s'] rest Hs Hrest IH]; cbn [overwrite];
    [constructor|].
  destruct (str_eqb k k'); constructor; try assumption.
  exists n. reflexivity.
Qed.

Lemma sum_counts_add_index i k o :
  sum_counts (add_index i k (Number 1) o) = S (sum_counts o).
Proof.
  induction o as [|[k' s'] rest IH]; cbn [add_index]; [reflexivity|].
  destruct (array_index k') as [m|]; [destruct (i <? m)|]; try reflexivity.
  cbn [sum_counts]. rewrite IH. destruct s'; lia.
Qed.

Lemma all_numbers_add_index i k n o :
  all_numbers o -> all_numbers (add_index i k (Number n) o).
Proof.
  intros H. induction H as [|[k' s'] rest Hs Hrest IH]; cbn [add_index].
  - constructor; [exists n; reflexivity|constructor].
  - destruct (array_index k') as [m|]; [destruct (i <? m)|];
      repeat (constructor; try assumption); try (exists n; reflexivity).
Qed.

Lemma sum_counts_app k o :
  sum_counts (o ++ [(k, Number 1)]) = S (sum_counts o).
Proof.
  induction o as [|[k' s'] rest IH]; [reflexivity|].
  cbn [app sum_counts]. rewrite IH. destruct s'; lia.
Qed.

Lemma increment_counts k o :
  inherited k = false -> all_numbers o ->
  all_numbers (increment k o) /\ sum_counts (increment k o) = S (sum_counts o).
Proof.
  intros Hk Ho. unfold increment, read, define.
  rewrite (not_inherited_not_proto k Hk), Hk.
  destruct (lookup k o) as [s|] eqn:E.
  - destruct (all_numbers_lookup k o s Ho E) as [n ->].
    split; [apply all_numbers_overwrite; exact Ho|].
    apply sum_counts_overwrite. exact E.
  - destruct (array_index k) as [i|].
    + split; [apply all_numbers_add_index; exact Ho|apply sum_counts_add_index].
    + split; [|apply sum_counts_app].
      apply Forall_app. split; [exact Ho|].
      constructor; [exists 1%nat; reflexivity|constructor].
Qed.

Lemma count_keys_sum keys : forall o,
  (forall k, In k keys -> inherited k = false) -> all_numbers o ->
  sum_counts (count_keys keys o) = (sum_counts o + length keys)%nat.
Proof.
  induction keys as [|k keys IH]; intros o Hkeys Ho.
  - cbn. lia.
  - rewrite count_keys_cons.
    destruct (increment_counts k o (Hkeys k (or_introl eq_refl)) Ho) as [Ha Hs].
    rewrite IH; [|intros k' Hin; apply Hkeys; right; exact Hin|exact Ha].
    rewrite Hs. cbn [length]. lia.
Qed.

Section SummaryTotals.

Variable htmlToPlainText : jsstring -> jsstring.
Variable buildName : option jsstring -> option jsstring -> option jsstring.

(** X15 ([summarizeConversations]).  The summary has one digest per
    conversation, and [total] is their number; as long as no status is named
    like a member of [Object.prototype], the numbers of [byStatus] add up to
    [total], and likewise those of [byTag] add up to the number of tags the
    conversations carry. *)
Theorem summarizeConversations_totals (convs : list Conversation) :
  let summary := summarizeConversations htmlToPlainText buildName convs in
  total summary = length convs /\
  length (conversations summary) = total summary /\
  ((forall k, In k (statuses convs) -> inherited k = false) ->
   sum_counts (byStatus summary) = total summary) /\
  ((forall k, In k (tag_names convs) -> inherited k = false) ->
   sum_counts (byTag summary) = length (tag_names convs)).
Proof.
  intros summary. subst summary. unfold summarizeConversations. cbv zeta.
  cbn [total byStatus byTag conversations].
  rewrite count_conversations_keys. cbn [fst snd].
  split; [reflexivity|]. split; [apply length_map|]. split.
  - intros H. rewrite (count_keys_sum _ [] H) by constructor.
    unfold statuses. now rewrite length_map.
  - intros H. now rewrite (count_keys_sum _ [] H) by constructor.
Qed.

End SummaryTotals.

(** Two conversations, one tagged "billing" and "constructor". *)
Lemma summarizeConversations_counts_witness :
  let conv i s tags :=
    {| conv_id := i; conv_subject := js "Hello"; conv_status := s;
       conv_tags := tags; conv_threads := None |} in
  let conversations :=
    [ conv 1%Z (js "active")
           (Some [ {| tag_name := js "billing" |};
                   {| tag_name := js "constructor" |} ]);
      conv 2%Z (js "active") None ] in
  let summary := summarizeConversations (fun s => s) (fun f _ => f) conversations in
  lookup (js "active") (byStatus summary) = Some (Number 2) /\
  lookup (js "billing") (byTag summary) = Some (Number 1).
Proof.
  intros conv conversations summary.
  destruct (summarizeConversations_counts (fun s => s) (fun f _ => f)
              conversations (js "active") eq_refl) as [H1 _].
  destruct (summarizeConversations_counts (fun s => s) (fun f _ => f)
              conversations (js "billing") eq_refl) as [_ H2].
  split; [exact H1|exact H2].
Defined.

(** Two conversations, both tagged "constructor". *)
Lemma summarizeConversations_inherited_names_witness :
  let conv i s tags :=
    {| conv_id := i; conv_subject := js "Hello"; conv_status := s;
       conv_tags := tags; conv_threads := None |} in
  let conversations :=
    [ conv 1%Z (js "active")
           (Some [ {| tag_name := js "billing" |};
                   {| tag_name := js "constructor" |} ]);
      conv 2%Z (js "active") (Some [ {| tag_name := js "constructor" |} ]) ] in
  let summary := summarizeConversations (fun s => s) (fun f _ => f) conversations in
  lookup (js "constructor") (byTag summary) = Some Text /\
  lookup (js "constructor") (byStatus summary) = None.
Proof.
  intros conv conversations summary.
  destruct (summarizeConversations_inherited_names (fun s => s) (fun f _ => f)
              conversations (js "constructor") eq_refl) as [H1 H2].
  split; [exact H2|exact H1].
Defined.

(** * Further properties of [extractThreadInfo] and of the command [threads]
      (src/commands/conversations.ts) *)

Lemma ascending_cons t u l :
  ascending (t :: u :: l) <-> (createdAt t <= createdAt u)%Z /\ ascending (u :: l).
Proof. reflexivity. Qed.

Lemma ascending_head_le u l :
  ascending (u :: l) -> forall x, In x l -> (createdAt u <= createdAt x)%Z.
Proof.
  revert u. induction l as [|v l IH]; intros u H x Hx; [destruct Hx|].
  apply ascending_cons in H as [Huv Hl].
  destruct Hx as [<-|Hx]; [exact Huv|].
  pose proof (IH v Hl x Hx). lia.
Qed.

Lemma ascending_app_right pre l : ascending (pre ++ l) -> ascending l.
Proof.
  induction pre as [|x pre IH]; [trivial|].
  intros H. apply IH. exact (ascending_tail x (pre ++ l) H).
Qed.

Lemma ascending_before pre x post :
  ascending (pre ++ x :: post) ->
  forall y, In y pre -> (createdAt y <= createdAt x)%Z.
Proof.
  induction pre as [|z pre IH]; intros H y Hy; [destruct Hy|].
  destruct Hy as [<-|Hy].
  - apply (ascending_head_le z (pre ++ x :: post) H).
    apply in_or_app. right. now left.
  - apply IH; [|exact Hy]. exact (ascending_tail z (pre ++ x :: post) H).
Qed.

Lemma insert_thread_ascending t l :
  ascending l -> ascending (insert_thread t l).
Proof.
  induction l as [|u l IH]; intros H; [exact I|].
  cbn [insert_thread].
  destruct (createdAt t - createdAt u <=? 0)%Z eqn:E.
  - apply ascending_cons. split; [apply Z.leb_le in E; lia|exact H].
  - apply Z.leb_gt in E.
    pose proof (IH (ascending_tail u l H)) as IH'.
    destruct l as [|v l]; cbn [insert_thread] in *.
    + split; [lia|exact I].
    + destruct (createdAt t - createdAt v <=? 0)%Z.
      * apply ascending_cons. split; [lia|exact IH'].
      * apply ascending_cons. split; [|exact IH'].
        exact (proj1 H).
Qed.

Lemma sort_threads_sorted l : ascending (sort_threads l).
Proof.
  induction l as [|t l IH]; [exact I|].
  cbn [sort_threads]. apply insert_thread_ascending. exact IH.
Qed.

Lemma In_insert_thread x t l : In x (insert_thread t l) <-> x = t \/ In x l.
Proof.
  induction l as [|u l IH]; cbn [insert_thread].
  - cbn. intuition congruence.
  - destruct (createdAt t - createdAt u <=? 0)%Z; cbn [In] in *.
    + intuition congruence.
    + rewrite IH. intuition congruence.
Qed.

Lemma In_sort_threads x l : In x (sort_threads l) <-> In x l.
Proof.
  induction l as [|t l IH]; [reflexivity|].
  cbn [sort_threads]. rewrite In_insert_thread, IH. cbn. intuition congruence.
Qed.

(** Inserting into a list that starts no earlier than [t]. *)
Lemma insert_thread_first t l :
  (forall x, In x l -> (createdAt t <= createdAt x)%Z) ->
  insert_thread t l = t :: l.
Proof.
  destruct l as [|u l]; [reflexivity|]. intros H. cbn [insert_thread].
  replace (createdAt t - createdAt u <=? 0)%Z with true; [reflexivity|].
  symmetry. apply Z.leb_le. pose proof (H u (or_introl eq_refl)). lia.
Qed.

Lemma filter_insert_thread (p : Thread -> bool) t l :
  ascending l ->
  filter p (insert_thread t l) =
  if p t then insert_thread t (filter p l) else filter p l.
Proof.
  induction l as [|u l IH]; intros H.
  - cbn. now destruct (p t).
  - cbn [insert_thread].
    destruct (createdAt t - createdAt u <=? 0)%Z eqn:E.
    + change (filter p (t :: u :: l))
        with (if p t then t :: filter p (u :: l) else filter p (u :: l)).
      destruct (p t); [|reflexivity].
      symmetry. apply insert_thread_first.
      intros x Hx. apply filter_In in Hx as [Hx _].
      apply Z.leb_le in E.
      destruct Hx as [<-|Hx]; [lia|].
      pose proof (ascending_head_le u l H x Hx). lia.
    + cbn [filter]. rewrite (IH (ascending_tail u l H)).
      destruct (p u), (p t); try reflexivity.
      cbn [insert_thread]. now rewrite E.
Qed.

(** Sorting and filtering commute: the sort is stable. *)
Lemma filter_sort_threads (p : Thread -> bool) l :
  filter p (sort_threads l) = sort_threads (filter p l).
Proof.
  induction l as [|t l IH]; [reflexivity|].
  cbn [sort_threads filter].
  rewrite (filter_insert_thread p t (sort_threads l) (sort_threads_sorted l)).
  rewrite IH. now destruct (p t).
Qed.

Lemma length_insert_thread t l : length (insert_thread t l) = S (length l).
Proof.
  induction l as [|u l IH]; [reflexivity|]. cbn [insert_thread].
  destruct (createdAt t - createdAt u <=? 0)%Z; cbn [length]; [reflexivity|].
  now rewrite IH.
Qed.

Lemma length_sort_threads l : length (sort_threads l) = length l.
Proof.
  induction l as [|t l IH]; [reflexivity|].
  cbn [sort_threads length]. now rewrite length_insert_thread, IH.
Qed.

Lemma filter_absorb (p q : Thread -> bool) l :
  (forall x, p x = true -> q x = true) -> filter p (filter q l) = filter p l.
Proof.
  intros H. induction l as [|x l IH]; [reflexivity|]. cbn [filter].
  destruct (q x) eqn:Q; cbn [filter]; rewrite IH; [reflexivity|].
  destruct (p x) eqn:P; [|reflexivity].
  rewrite (H x P) in Q. discriminate Q.
Qed.

Lemma exists_first_such (p : Thread -> bool) l :
  (exists x, In x l /\ p x = true) -> exists x, first_such p x l.
Proof.
  induction l as [|a l IH]; intros (x & Hin & Hp); [destruct Hin|].
  destruct (p a) eqn:Pa.
  - exists a, [], l. repeat split; [exact Pa|intros y []].
  - destruct IH as (y & pre & post & -> & Hy & Hpre).
    { exists x. split; [|exact Hp].
      destruct Hin as [<-|Hin]; [congruence|exact Hin]. }
    exists y, (a :: pre), post. repeat split; [exact Hy|].
    intros z [<-|Hz]; [exact Pa|apply Hpre; exact Hz].
Qed.

Lemma exists_last_such (p : Thread -> bool) l :
  (exists x, In x l /\ p x = true) -> exists x, last_such p x l.
Proof.
  induction l as [|a l IH]; intros (x & Hin & Hp); [destruct Hin|].
  destruct (existsb p l) eqn:E.
  - apply existsb_exists in E. destruct (IH E) as (y & pre & post & -> & Hy & Hpost).
    exists y, (a :: pre), post. repeat split; assumption.
  - assert (Hl : forall y, In y l -> p y = false).
    { intros y Hy. destruct (p y) eqn:Py; [|reflexivity].
      assert (existsb p l = true) by (apply existsb_exists; eauto).
      congruence. }
    destruct Hin as [<-|Hin]; [|rewrite (Hl x Hin) in Hp; discriminate Hp].
    exists a, [], l. repeat split; assumption.
Qed.

Lemma length_drop_space s : (length (drop_space s) <= length s)%nat.
Proof.
  induction s as [|c s IH]; [reflexivity|]. cbn [drop_space].
  destruct (is_space c); cbn [length]; lia.
Qed.

Lemma length_trim s : (length (trim s) <= length s)%nat.
Proof.
  unfold trim. rewrite length_rev.
  pose proof (length_drop_space (rev (drop_space s))) as H.
  rewrite length_rev in H.
  pose proof (length_drop_space s). lia.
Qed.

Lemma length_truncate text : (length (truncate text) <= 303)%nat.
Proof.
  unfold truncate, MAX_MESSAGE_LENGTH.
  destruct (length text <=? 300)%nat eqn:E.
  - apply Nat.leb_le in E. lia.
  - rewrite length_app.
    pose proof (length_trim (firstn 300 text)) as H.
    rewrite length_firstn in H.
    change (length (js "...")) with 3%nat. lia.
Qed.

Section AnyOrder.

Variable htmlToPlainText : jsstring -> jsstring.
Variable buildName : option jsstring -> option jsstring -> option jsstring.

Lemma extractThreadInfo_sorted threads :
  extractThreadInfo htmlToPlainText buildName (Some threads) =
  let sortedThreads := sort_threads threads in
  let customerThreads := filter (has_type "customer") sortedThreads in
  let userThreads := filter (has_type "message") sortedThreads in
  let firstCustomerWithBody := find has_body customerThreads in
  let customerSource :=
    person_or (match firstCustomerWithBody with Some t => customer t | None => None end)
              (match firstCustomerWithBody with Some t => createdBy t | None => None end) in
  let userSource :=
    match nth_error userThreads (length userThreads - 1) with
    | Some t => createdBy t
    | None => None
    end in
  {| info_customer :=
       {| p_name := buildPersonName buildName customerSource;
          p_email := email_of customerSource;
          messageCount := length customerThreads;
          firstMessage := first_message htmlToPlainText firstCustomerWithBody |};
     info_user :=
       {| p_name := buildPersonName buildName userSource;
          p_email := email_of userSource;
          messageCount := length userThreads;
          firstMessage := first_message htmlToPlainText (find has_body userThreads) |} |}.
Proof. destruct threads as [|t l]; reflexivity. Qed.

Lemma first_message_length t m :
  first_message htmlToPlainText t = Some m -> (length m <= 303)%nat.
Proof.
  unfold first_message. destruct t as [t|]; [|discriminate].
  destruct (thread_body t) as [[|c b]|]; try discriminate.
  intros H. inversion H. apply length_truncate.
Qed.

(** X16 ([extractThreadInfo], [truncate]).  In whatever order the threads
    are listed, the message counts are the numbers of [customer] and of
    [message] threads, a first message has at most 303 characters, and a
    conversation in which no customer thread has a body has no customer
    name, email or first message. *)
Theorem extractThreadInfo_any_order (threads : list Thread) :
  let info := extractThreadInfo htmlToPlainText buildName (Some threads) in
  messageCount (info_customer info)
    = length (filter (has_type "customer") threads) /\
  messageCount (info_user info)
    = length (filter (has_type "message") threads) /\
  (forall m, firstMessage (info_customer info) = Some m -> (length m <= 303)%nat) /\
  (forall m, firstMessage (info_user info) = Some m -> (length m <= 303)%nat) /\
  ((forall t, In t threads -> customer_with_body t = false) ->
   p_name (info_customer info) = None /\
   p_email (info_customer info) = None /\
   firstMessage (info_customer info) = None).
Proof.
  intros info. subst info. rewrite extractThreadInfo_sorted. cbv zeta.
  cbn [info_customer info_user messageCount firstMessage p_name p_email].
  rewrite !filter_sort_threads, !length_sort_threads.
  split; [reflexivity|]. split; [reflexivity|].
  split; [apply first_message_length|]. split; [apply first_message_length|].
  intros H.
  assert (Hnone : find has_body (sort_threads (filter (has_type "customer") threads))
                  = None).
  { destruct (find has_body _) as [x|] eqn:E; [|reflexivity].
    apply find_some in E as [Hin Hb].
    apply In_sort_threads, filter_In in Hin as [Hin Ht].
    pose proof (H x Hin) as Hx. unfold customer_with_body in Hx.
    rewrite Ht, Hb in Hx. discriminate Hx. }
  rewrite Hnone. repeat split; reflexivity.
Qed.

(** X17 ([extractThreadInfo]).  In whatever order the threads are listed,
    the customer is the one of the earliest customer thread with a body,
    with that body as first message, and the user is the author of the
    latest [message] thread, provided the time of that thread is not shared
    by another such thread. *)
Theorem extractThreadInfo_chronological (threads : list Thread) :
  let info := extractThreadInfo htmlToPlainText buildName (Some threads) in
  (forall t, In t threads -> customer_with_body t = true ->
     (forall u, In u threads -> customer_with_body u = true ->
        u = t \/ (createdAt t < createdAt u)%Z) ->
     let source := person_or (customer t) (createdBy t) in
     p_name (info_customer info) = buildPersonName buildName source /\
     p_email (info_customer info) = email_of source /\
     firstMessage (info_customer info) = first_message htmlToPlainText (Some t)) /\
  (forall t, In t threads -> has_type "message" t = true ->
     (forall u, In u threads -> has_type "message" u = true ->
        u = t \/ (createdAt u < createdAt t)%Z) ->
     p_name (info_user info) = buildPersonName buildName (createdBy t) /\
     p_email (info_user info) = email_of (createdBy t)).
Proof.
  intros info. subst info. rewrite extractThreadInfo_sorted. cbv zeta.
  cbn [info_customer info_user messageCount firstMessage p_name p_email].
  pose proof (sort_threads_sorted threads) as Hsorted.
  split.
  - intros t Hin Ht Hmin.
    assert (Hfirst : first_such customer_with_body t (sort_threads threads)).
    { destruct (exists_first_such customer_with_body (sort_threads threads))
        as (x & pre & post & E & Hx & Hpre).
      { exists t. split; [apply In_sort_threads; exact Hin|exact Ht]. }
      assert (Hxin : In x threads).
      { apply In_sort_threads. rewrite E. apply in_or_app. right. now left. }
      destruct (Hmin x Hxin Hx) as [->|Hlt];
        [exists pre, post; repeat split; assumption|].
      exfalso.
      assert (Htin : In t (pre ++ x :: post))
        by (rewrite <- E; apply In_sort_threads; exact Hin).
      apply in_app_or in Htin as [Hp|[->|Hp]].
      - rewrite (Hpre t Hp) in Ht. discriminate Ht.
      - lia.
      - rewrite E in Hsorted. apply ascending_app_right in Hsorted.
        pose proof (ascending_head_le x post Hsorted t Hp). lia. }
    rewrite (find_filter_first (has_type "customer") has_body t
               (sort_threads threads) Hfirst).
    repeat split; reflexivity.
  - intros t Hin Ht Hmax.
    assert (Hlast : last_such (has_type "message") t (sort_threads threads)).
    { destruct (exists_last_such (has_type "message") (sort_threads threads))
        as (x & pre & post & E & Hx & Hpost).
      { exists t. split; [apply In_sort_threads; exact Hin|exact Ht]. }
      assert (Hxin : In x threads).
      { apply In_sort_threads. rewrite E. apply in_or_app. right. now left. }
      destruct (Hmax x Hxin Hx) as [->|Hlt];
        [exists pre, post; repeat split; assumption|].
      exfalso.
      assert (Htin : In t (pre ++ x :: post))
        by (rewrite <- E; apply In_sort_threads; exact Hin).
      apply in_app_or in Htin as [Hp|[->|Hp]].
      - rewrite E in Hsorted.
        pose proof (ascending_before pre x post Hsorted t Hp). lia.
      - lia.
      - rewrite (Hpost t Hp) in Ht. discriminate Ht. }
    rewrite (last_of_filter (has_type "message") t (sort_threads threads) Hlast).
    split; reflexivity.
Qed.

End AnyOrder.

(** The theorem on [sample_threads], which lists the latest thread first. *)
Lemma extractThreadInfo_chronological_witness :
  let info := extractThreadInfo (fun s => s) (fun f _ => f) (Some sample_threads) in
  p_name (info_customer info) = Some (js "Ann") /\
  firstMessage (info_customer info) = Some (js "Hello") /\
  p_name (info_user info) = Some (js "Bob").
Proof.
  intros info.
  destruct (extractThreadInfo_chronological (fun s => s) (fun f _ => f)
              sample_threads) as [Hc Hu].
  destruct (Hc (nth 4 sample_threads (nth 0 sample_threads (nth 0 sample_threads
                 {| thread_id := 0; type := []; createdAt := 0;
                    thread_body := None; customer := None; createdBy := None |}))))
    as (H1 & _ & H3).
  - cbn. tauto.
  - reflexivity.
  - intros u Hu' Hb. cbn in Hu'.
    repeat (destruct Hu' as [<-|Hu']; [first [left; reflexivity | right; reflexivity | discriminate Hb]|]).
    destruct Hu'.
  - destruct (Hu (nth 0 sample_threads
                    {| thread_id := 0; type := []; createdAt := 0;
                       thread_body := None; customer := None; createdBy := None |}))
      as (H4 & _).
    + cbn. tauto.
    + reflexivity.
    + intros u Hu' Hb. cbn in Hu'.
      repeat (destruct Hu' as [<-|Hu']; [first [left; reflexivity | right; reflexivity | discriminate Hb]|]).
      destruct Hu'.
    + split; [exact H1|]. split; [exact H3|exact H4].
Defined.

Section ThreadsFilter.

Variable htmlToPlainText : jsstring -> jsstring.
Variable buildName : option jsstring -> option jsstring -> option jsstring.
Variable toLowerCase : jsstring -> jsstring.

Lemma includes_kept ty (types : list jsstring) t :
  In (js ty) types -> has_type ty t = true -> includes types t = true.
Proof.
  intros Hin Ht. unfold includes. apply existsb_exists.
  exists (js ty). split; [exact Hin|exact Ht].
Qed.

(** X18 ([threads], [extractThreadInfo]).  Without [--type], the threads the
    command [threads] shows give the same participants, counts and first
    messages as all the threads of the conversation: what the default
    filter, with or without [--include-notes] or [--all], leaves out never
    counts in the thread information. *)
Theorem filter_threads_keeps_thread_info
    (options : ThreadsOptions) (threads : list Thread) :
  truthy (type_filter options) = false ->
  extractThreadInfo htmlToPlainText buildName
    (Some (filter_threads toLowerCase options threads))
  = extractThreadInfo htmlToPlainText buildName (Some threads).
Proof.
  intros Hty. unfold filter_threads.
  destruct (type_filter options) as [[|c s]|]; try discriminate Hty;
    (destruct (all options); cbn [negb]; [reflexivity|]);
    rewrite !extractThreadInfo_sorted; cbv zeta;
    rewrite !filter_sort_threads;
    (destruct (includeNotes options);
     rewrite !filter_absorb;
     [reflexivity
     |intros x; apply (includes_kept "message"); cbn; tauto
     |intros x; apply (includes_kept "customer"); cbn; tauto
     |reflexivity
     |intros x; apply (includes_kept "message"); cbn; tauto
     |intros x; apply (includes_kept "customer"); cbn; tauto]).
Qed.

End ThreadsFilter.

(** The theorem on [sample_threads] with no option: the note is not shown,
    and the thread information is that of all five threads. *)
Lemma filter_threads_keeps_thread_info_witness :
  let options := {| includeNotes := false; all := false; type_filter := None;
                    html := false |} in
  length (filter_threads (fun s => s) options sample_threads) = 4%nat /\
  extractThreadInfo (fun s => s) (fun f _ => f)
    (Some (filter_threads (fun s => s) options sample_threads))
  = extractThreadInfo (fun s => s) (fun f _ => f) (Some sample_threads).
Proof.
  intros options. split; [reflexivity|].
  apply (filter_threads_keeps_thread_info (fun s => s) (fun f _ => f)
           (fun s => s) options sample_threads).
  reflexivity.
Defined.

(** * Properties of the other methods of the client and of the commands *)

Lemma withErrorHandling_state {A} (fn : M A) w :
  snd (withErrorHandling fn w) = snd (fn w).
Proof.
  unfold withErrorHandling. destruct (fn w) as [[a|t|e] w']; try reflexivity.
  now destruct (handleHelpScoutError (unknown_of_thrown t)).
Qed.

(** What a method of the client rejects with is a TypeError that
    [handleHelpScoutError] raised. *)
Lemma withErrorHandling_throws {A} (fn : M A) w t :
  fst (withErrorHandling fn w) = Throw t ->
  exists t' m,
    fst (fn w) = Throw t' /\
    handleHelpScoutError (unknown_of_thrown t') = Rejects m /\
    t = ThrowError m /\ raised m.
Proof.
  unfold withErrorHandling. destruct (fn w) as [[a|t'|e] w']; try discriminate.
  destruct (handleHelpScoutError (unknown_of_thrown t')) as [e|m] eqn:H;
    [discriminate|].
  cbn [fst]. intros [= <-]. exists t', m.
  split; [reflexivity|]. split; [exact H|]. split; [reflexivity|].
  exact (handleHelpScoutError_rejects _ _ H).
Qed.

Lemma then_success_state (m : M value) w :
  snd ((m ;;; ret success) w) = snd (m w).
Proof. unfold bind, ret. now destruct (m w) as [[a|t|e] w']. Qed.

Lemma then_success_value (m : M value) w v :
  fst (withErrorHandling (m ;;; ret success) w) = Ok v -> v = success.
Proof.
  unfold withErrorHandling, bind, ret.
  destruct (m w) as [[a|t|e] w']; cbn [fst];
    [|destruct (handleHelpScoutError (unknown_of_thrown t))|];
    cbn [fst]; intros H; inversion H.
  reflexivity.
Qed.

Section WriteMethods.

Variable server : list Call -> Call -> Reply.

(** X19 ([addConversationTag]).  Adding a tag never reads the conversation:
    whatever the server answers, the only calls to the API are the PUT of
    the tag list, at most twice, and the list that is put holds the new tag
    alone.  When the method resolves, it is to [{ success: true }]; when it
    rejects, the request had failed and it is with a TypeError that
    [handleHelpScoutError] raised on what the request threw. *)
Theorem addConversationTag_puts_one_tag (conversationId : Z) (tag : jsstring)
    (w : World) :
  let outcome := addConversationTag server conversationId tag w in
  (exists sent,
     api_calls (calls (snd outcome)) = api_calls (calls w) ++ sent /\
     (length sent <= 2)%nat /\
     forall c, In c sent ->
       exists token,
         c = ApiCall (js "PUT")
                     (js "/conversations/" ++ String_of_Z conversationId
                      ++ js "/tags")
                     [] token (Some (VObj [(js "tags", VArr [VStr tag])]))) /\
  (forall v, fst outcome = Ok v -> v = success) /\
  (forall t, fst outcome = Throw t ->
     exists t' m,
       fst (request server (js "PUT")
              (js "/conversations/" ++ String_of_Z conversationId ++ js "/tags")
              [] (VObj [(js "tags", VArr [VStr tag])]) true w) = Throw t' /\
       handleHelpScoutError (unknown_of_thrown t') = Rejects m /\
       t = ThrowError m /\ raised m).
Proof.
  intros outcome. subst outcome. unfold addConversationTag.
  split; [|split].
  - rewrite withErrorHandling_state, then_success_state.
    apply (request_true_api_calls server (js "PUT")
             (js "/conversations/" ++ String_of_Z conversationId ++ js "/tags")
             [] (VObj [(js "tags", VArr [VStr tag])]) w).
  - intros v. apply then_success_value.
  - intros t H.
    destruct (withErrorHandling_throws _ w t H) as (t' & m & H1 & H2 & H3 & H4).
    exists t', m. split; [|auto].
    revert H1. unfold bind, ret.
    destruct (request server _ _ _ _ _ w) as [[a|t0|e] w']; cbn [fst];
      intros E; inversion E. reflexivity.
Qed.

Variable type_error : jsstring.

Lemma embedded_or_empty_truthy k response w :
  match embedded_or_empty type_error k response w with
  | (Ok v, _) => truthy_value v = true
  | _ => True
  end.
Proof.
  unfold embedded_or_empty. destruct (nullish response); [exact I|].
  cbv zeta. unfold ret.
  destruct (truthy_value (if nullish (get "_embedded" response)
                          then VUndefined
                          else get k (get "_embedded" response))) eqn:E;
    [exact E|reflexivity].
Qed.

(** X20 ([listConversations], [getConversationThreads]).  Whatever the
    server answers, a listing that resolves never lacks its list: the field
    [conversations], and the result of [getConversationThreads], is what the
    response embeds or, when that is missing, [null] or otherwise falsy, the
    empty array.  When one of them rejects, it is with a TypeError that
    [handleHelpScoutError] raised. *)
Theorem listings_never_lack_their_list params (conversationId : Z) (w : World) :
  match listConversations server type_error params w with
  | (Ok v, _) =>
    exists conversations page,
      v = VObj [(js "conversations", conversations); (js "page", page)] /\
      truthy_value conversations = true
  | (Throw t, _) => exists m, t = ThrowError m /\ raised m
  | (Exit _, _) => True
  end /\
  match getConversationThreads server type_error conversationId w with
  | (Ok v, _) => truthy_value v = true
  | (Throw t, _) => exists m, t = ThrowError m /\ raised m
  | (Exit _, _) => True
  end.
Proof.
  assert (Hhandled : forall t (w' : World),
            match
              match handleHelpScoutError (unknown_of_thrown t) with
              | Printed e => (Exit e, w')
              | Rejects m => (@Throw value (ThrowError m), w')
              end
            with
            | (Ok v, _) => False
            | (Throw t, _) => exists m, t = ThrowError m /\ raised m
            | (Exit _, _) => True
            end).
  { intros t w'.
    destruct (handleHelpScoutError (unknown_of_thrown t)) as [e|m] eqn:H;
      [exact I|].
    exists m. split; [reflexivity|exact (handleHelpScoutError_rejects _ _ H)]. }
  split.
  - unfold listConversations, withErrorHandling. unfold bind at 1.
    destruct (request server _ _ _ _ _ w) as [[response|t|e] w1]; [| |exact I].
    + unfold bind.
      pose proof (embedded_or_empty_truthy "conversations" response w1) as H.
      destruct (embedded_or_empty type_error "conversations" response w1)
        as [[c|t|e] w2]; [| |exact I].
      * unfold ret. eexists _, _. split; [reflexivity|exact H].
      * specialize (Hhandled t w2).
        destruct (handleHelpScoutError (unknown_of_thrown t)); exact Hhandled.
    + specialize (Hhandled t w1).
      destruct (handleHelpScoutError (unknown_of_thrown t)); exact Hhandled.
  - unfold getConversationThreads, withErrorHandling. unfold bind.
    destruct (request server _ _ _ _ _ w) as [[response|t|e] w1]; [| |exact I].
    + pose proof (embedded_or_empty_truthy "threads" response w1) as H.
      destruct (embedded_or_empty type_error "threads" response w1)
        as [[c|t|e] w2]; [exact H| |exact I].
      specialize (Hhandled t w2).
      destruct (handleHelpScoutError (unknown_of_thrown t)); exact Hhandled.
    + specialize (Hhandled t w1).
      destruct (handleHelpScoutError (unknown_of_thrown t)); exact Hhandled.
Qed.

End WriteMethods.

(** ** [getMailboxId] *)

Lemma no_mailbox_printed :
  handleHelpScoutError (CliError no_mailbox) =
  {| err_name := js "cli_error";
     err_detail := cli_message no_mailbox;
     err_statusCode := 400 |}.
Proof. vm_compute. reflexivity. Qed.

(** X21 ([getMailboxId]).  The mailbox is the first non-empty one of the
    argument, the default of the configuration and the environment
    variable; an empty string counts as absent, so the id that is returned
    is never empty.  With none of the three, the method throws the error
    that is printed as [cli_error] with status 400 and its message as it
    stands; the session is never touched. *)
Theorem getMailboxId_spec (settings : Settings)
    (mailboxIdOrDefault : option jsstring) (w : World) :
  let outcome := getMailboxId settings mailboxIdOrDefault w in
  snd outcome = w /\
  (forall m, fst outcome = Ok m ->
     m <> [] /\
     Some m = or_else mailboxIdOrDefault
                (or_else (defaultMailbox settings) (HELPSCOUT_MAILBOX_ID settings))) /\
  (truthy mailboxIdOrDefault = false ->
   truthy (defaultMailbox settings) = false ->
   truthy (HELPSCOUT_MAILBOX_ID settings) = false ->
   fst outcome = Throw (ThrowCli no_mailbox) /\
   handleHelpScoutError (unknown_of_thrown (ThrowCli no_mailbox)) =
   {| err_name := js "cli_error";
      err_detail := cli_message no_mailbox;
      err_statusCode := 400 |}) /\
  (truthy mailboxIdOrDefault = true \/
   truthy (defaultMailbox settings) = true \/
   truthy (HELPSCOUT_MAILBOX_ID settings) = true ->
   exists m, fst outcome = Ok m).
Proof.
  intros outcome. subst outcome. unfold getMailboxId, or_else. cbv zeta.
  destruct mailboxIdOrDefault as [[|a m1]|];
    destruct (defaultMailbox settings) as [[|b m2]|];
    destruct (HELPSCOUT_MAILBOX_ID settings) as [[|c m3]|];
    cbn [truthy fst snd ret throw];
    (split; [reflexivity|]);
    (split; [intros m H; inversion H; (split; [discriminate|reflexivity])|]);
    (split; [intros H1 H2 H3;
             first [ discriminate H1 | discriminate H2 | discriminate H3
                   | (split; [reflexivity|exact no_mailbox_printed]) ]|]);
    intros H;
    first [ eexists; reflexivity
          | destruct H as [H|[H|H]]; discriminate H ].
Qed.

(** ** The command [update] *)

Section UpdateProperties.

Variable server : list Call -> Call -> Reply.
Variable parseInt : jsstring -> value.
Variable parseIdArg : jsstring -> jsstring -> M Z.
Variable outputJson : value -> M unit.

Lemma update_operations_length options :
  length (update_operations parseInt options) =
  (given (update_status options) + given (update_assignee options)
   + given (update_customer options) + given (update_subject options)
   + given (update_mailbox options))%nat.
Proof.
  unfold update_operations, given. cbv zeta.
  destruct (update_status options) as [[|c1 s1]|];
    destruct (update_assignee options) as [[|c2 s2]|];
    try destruct (str_eqb (c2 :: s2) (js "none"));
    destruct (update_customer options) as [[|c3 s3]|];
    destruct (update_subject options) as [[|c4 s4]|];
    destruct (update_mailbox options) as [[|c5 s5]|];
    reflexivity.
Qed.

(** X22 (the command [update]).  The command sends one operation for each
    option that is given, an empty string counting as not given and
    [--assignee none] as given.  With no option given it makes no call at
    all, not even to parse the id: the process ends with [unknown_error],
    the message "At least one update option is required" and status 1. *)
Theorem update_requires_an_option (id : jsstring) (options : UpdateOptions)
    (w : World) :
  length (update_operations parseInt options) =
    (given (update_status options) + given (update_assignee options)
     + given (update_customer options) + given (update_subject options)
     + given (update_mailbox options))%nat /\
  (length (update_operations parseInt options) <= 5)%nat /\
  ((given (update_status options) + given (update_assignee options)
    + given (update_customer options) + given (update_subject options)
    + given (update_mailbox options) = 0)%nat ->
   update server parseInt parseIdArg outputJson id options w =
   (Exit {| err_name := js "unknown_error";
            err_detail := js "At least one update option is required";
            err_statusCode := 1 |}, w)).
Proof.
  split; [apply update_operations_length|]. split.
  - rewrite update_operations_length. unfold given.
    destruct (truthy (update_status options)),
             (truthy (update_assignee options)),
             (truthy (update_customer options)),
             (truthy (update_subject options)),
             (truthy (update_mailbox options)); cbn; lia.
  - intros H. rewrite <- update_operations_length in H.
    apply length_zero_iff_nil in H.
    unfold update, CommandUtils.withErrorHandling. cbv zeta.
    rewrite H. unfold throw. cbn [unknown_of_thrown].
    vm_compute. reflexivity.
Qed.

End UpdateProperties.

(** ** The command [reply] *)

Section ReplyProperties.

Variable server : list Call -> Call -> Reply.
Variable type_error : jsstring.
Variable parseIdArg : jsstring -> jsstring -> M Z.
Variable outputJson : value -> M unit.

(** X23 (the command [reply]).  A reply is never posted to a conversation
    whose primary customer has no id: once the conversation has been
    fetched, the process ends with [unknown_error], the message "Could not
    determine customer ID from conversation" and status 1, and the GET of
    the conversation is the only call that was made. *)
Theorem reply_needs_a_customer (id : jsstring) (options : ReplyOptions)
    (w : World) conversationId (w1 : World) token status conversation :
  parseIdArg id (js "conversation") w = (Ok conversationId, w1) ->
  accessToken w1 = Some token -> token <> [] ->
  let get_call :=
    ApiCall (js "GET") (js "/conversations/" ++ String_of_Z conversationId)
            [] token None in
  server (calls w1) get_call = Response status (Json conversation) ->
  ok status = true -> status <> 204%Z ->
  nullish conversation = false ->
  truthy_value (get "id" (get "primaryCustomer" conversation)) = false ->
  reply server type_error parseIdArg outputJson id options w =
  (Exit {| err_name := js "unknown_error";
           err_detail := js "Could not determine customer ID from conversation";
           err_statusCode := 1 |},
   record_call get_call w1).
Proof.
  intros Hid Htoken Hne get_call Hget Hok H204 Hnull Hcustomer.
  unfold reply, CommandUtils.withErrorHandling. unfold bind at 1.
  rewrite Hid. unfold bind at 1.
  unfold getConversation, withErrorHandling.
  rewrite (request_ok server (js "GET")
             (js "/conversations/" ++ String_of_Z conversationId) []
             VUndefined w1 token status conversation Htoken Hne Hget Hok H204).
  unfold bind at 1. unfold primaryCustomer_id. rewrite Hnull. cbv zeta.
  unfold ret at 1.
  assert (Hfalsy : truthy_value
                     (if nullish (get "primaryCustomer" conversation)
                      then VUndefined
                      else get "id" (get "primaryCustomer" conversation)) = false).
  { destruct (nullish (get "primaryCustomer" conversation));
      [reflexivity|exact Hcustomer]. }
  rewrite Hfalsy. cbn [negb]. unfold throw.
  vm_compute. reflexivity.
Qed.

End ReplyProperties.

(** The theorem on a conversation that has no [primaryCustomer]. *)
Lemma reply_needs_a_customer_witness :
  let server := fun (_ : list Call) (_ : Call) =>
    Response 200 (Json (VObj [(js "id", VNum 7); (js "subject", VStr (js "Hi"))])) in
  let options := {| reply_text := js "Thanks"; reply_user := None;
                    reply_draft := None; reply_status := None |} in
  reply server [] (fun _ _ => ret 7%Z) (fun _ => ret tt) (js "7") options signed_in =
  (Exit {| err_name := js "unknown_error";
           err_detail := js "Could not determine customer ID from conversation";
           err_statusCode := 1 |},
   record_call (ApiCall (js "GET") (js "/conversations/7") [] (js "t1") None)
               signed_in).
Proof.
  intros server options.
  apply (reply_needs_a_customer server [] (fun _ _ => ret 7%Z) (fun _ => ret tt)
           (js "7") options signed_in 7%Z signed_in (js "t1") 200
           (VObj [(js "id", VNum 7); (js "subject", VStr (js "Hi"))]));
    first [reflexivity | discriminate].
Defined.

(** * The [i] flag of the patterns of [sanitizeErrorMessage] *)

Lemma is_lower_cases c :
  is_lower c = true -> In c (map N.of_nat (seq 97 26)).
Proof.
  unfold is_lower. intros H. apply andb_true_iff in H as [H1 H2].
  apply N.leb_le in H1, H2.
  rewrite <- (N2Nat.id c). apply in_map. apply in_seq. lia.
Qed.

Lemma canonicalize_idem c : canonicalize (canonicalize c) = canonicalize c.
Proof.
  destruct (is_lower c) eqn:E;
    [|unfold canonicalize at 2; rewrite E; reflexivity].
  assert (Hc : canonicalize c = c - 32) by (unfold canonicalize; now rewrite E).
  rewrite Hc.
  pose proof (is_lower_cases c E) as Hin. revert Hin.
  assert (H : forallb (fun c => canonicalize (c - 32) =? c - 32)
                      (map N.of_nat (seq 97 26)) = true) by (vm_compute; reflexivity).
  rewrite forallb_forall in H. intros Hin. apply N.eqb_eq. apply H. exact Hin.
Qed.

Lemma accepts_canonicalize a c : accepts a (canonicalize c) = accepts a c.
Proof.
  destruct a as [p|l| |]; cbn [accepts].
  - now rewrite canonicalize_idem.
  - induction l as [|p l IH]; [reflexivity|].
    cbn [existsb]. rewrite IH. now rewrite canonicalize_idem.
  - unfold canonicalize. destruct (is_lower c) eqn:E; [|reflexivity].
    assert (H : forallb (fun c => Bool.eqb (is_space (c - 32)) (is_space c))
                        (map N.of_nat (seq 97 26)) = true) by (vm_compute; reflexivity).
    rewrite forallb_forall in H.
    apply eqb_prop. apply H. apply is_lower_cases. exact E.
  - unfold canonicalize. destruct (is_lower c) eqn:E; [|reflexivity].
    assert (H : forallb (fun c => Bool.eqb (is_token_char (c - 32)) (is_token_char c))
                        (map N.of_nat (seq 97 26)) = true) by (vm_compute; reflexivity).
    rewrite forallb_forall in H.
    apply eqb_prop. apply H. apply is_lower_cases. exact E.
Qed.

Lemma star_canonicalize a (k k' : jsstring -> option nat) :
  (forall s, k' (map canonicalize s) = k s) ->
  forall s, star a k' (map canonicalize s) = star a k s.
Proof.
  intros Hk. induction s as [|c s IH]; cbn [map star].
  - apply (Hk []).
  - rewrite accepts_canonicalize, IH.
    change (canonicalize c :: map canonicalize s) with (map canonicalize (c :: s)).
    now rewrite Hk.
Qed.

(** Where a pattern matches, and how far, does not depend on the case of
    the ASCII letters of the text. *)
Lemma exec_canonicalize r : forall s, exec r (map canonicalize s) = exec r s.
Proof.
  induction r as [|[a q] r IH]; intros s; [reflexivity|].
  destruct q; cbn [exec].
  - destruct s as [|c s]; [reflexivity|]. cbn [map].
    now rewrite accepts_canonicalize, IH.
  - destruct s as [|c s]; cbn [map]; [apply (IH [])|].
    rewrite accepts_canonicalize, IH.
    change (canonicalize c :: map canonicalize s) with (map canonicalize (c :: s)).
    now rewrite IH.
  - apply star_canonicalize. exact IH.
  - destruct s as [|c s]; [reflexivity|]. cbn [map].
    rewrite accepts_canonicalize.
    now rewrite (star_canonicalize a (exec r) (exec r) IH).
Qed.

Lemma replace_from_canonicalize r by_ :
  map canonicalize by_ = by_ ->
  forall s k,
    replace_from r by_ (map canonicalize s) k
    = map canonicalize (replace_from r by_ s k).
Proof.
  intros Hby. induction s as [|c s IH]; intros k.
  - cbn [map replace_from]. destruct k; [|reflexivity].
    destruct (exec r []); [symmetry; exact Hby|reflexivity].
  - change (map canonicalize (c :: s)) with (canonicalize c :: map canonicalize s).
    cbn [replace_from]. destruct k as [|k]; [|apply IH].
    change (canonicalize c :: map canonicalize s) with (map canonicalize (c :: s)).
    rewrite exec_canonicalize.
    destruct (exec r (c :: s)) as [[|n]|].
    + rewrite map_app, Hby. cbn [map]. now rewrite IH.
    + rewrite map_app, Hby. now rewrite IH.
    + cbn [map]. now rewrite IH.
Qed.

Lemma redact_canonicalize m :
  redact (map canonicalize m) = map canonicalize (redact m).
Proof.
  rewrite !redact_passes. unfold replace.
  rewrite !(replace_from_canonicalize _ REDACTED eq_refl). reflexivity.
Qed.

(** X24 ([sanitizeErrorMessage]).  The case of the ASCII letters of a
    message never decides what is redacted: sanitizing the message with its
    letters in upper case gives the sanitized message with its letters in
    upper case, the marker being in upper case already. *)
Theorem sanitizeErrorMessage_ignores_case (message : jsstring) :
  sanitizeErrorMessage (map canonicalize message)
  = map canonicalize (sanitizeErrorMessage message).
Proof.
  unfold sanitizeErrorMessage. cbv zeta.
  rewrite redact_canonicalize, length_map.
  destruct (500 <? length (redact message))%nat; [|reflexivity].
  now rewrite map_app, firstn_map.
Qed.

(** ** [removeConversationTag] when the conversation cannot be used *)

(** An [Error] of the runtime is printed as [unknown_error] with status 1
    and its message, the default one when it has none. *)
Lemma handleHelpScoutError_of_Error m :
  handleHelpScoutError (OtherError m) =
  Printed
    {| err_name := js "unknown_error";
       err_detail := sanitizeErrorMessage
                       (match m with [] => js "An unexpected error occurred"
                                | _ => m end);
       err_statusCode := 1%Z |}.
Proof.
  unfold handleHelpScoutError.
  cbn [isErrorObject negb read_as get lookup js].
  destruct m as [|c m]; reflexivity.
Qed.

Section RemoveTagFailures.

Variable server : list Call -> Call -> Reply.
Variable type_error : jsstring.

(** X25 ([removeConversationTag]).  The tag list is only written back after
    the conversation has been read and its tags understood: when fetching
    the conversation ends the process nothing more happens, and when the
    [tags] of the conversation are not an array of objects the process ends
    with [unknown_error] and status 1 after the GET alone. *)
Theorem removeConversationTag_never_puts_after_a_failure
    (conversationId : Z) (tag : jsstring) (w : World) :
  (forall e w1,
     getConversation server conversationId None w = (Exit e, w1) ->
     removeConversationTag server type_error conversationId tag w = (Exit e, w1)) /\
  (forall conversation w1,
     getConversation server conversationId None w = (Ok conversation, w1) ->
     existing_tags type_error conversation = throw (ThrowError type_error) ->
     exists e,
       removeConversationTag server type_error conversationId tag w = (Exit e, w1) /\
       err_name e = js "unknown_error" /\ err_statusCode e = 1%Z /\
       err_detail e = sanitizeErrorMessage
                        (match type_error with [] => js "An unexpected error occurred"
                                          | _ => type_error end)).
Proof.
  split.
  - intros e w1 H. unfold removeConversationTag, withErrorHandling.
    unfold bind at 1. rewrite H. reflexivity.
  - intros conversation w1 H Htags.
    unfold removeConversationTag, withErrorHandling.
    unfold bind at 1. rewrite H. unfold bind at 1. rewrite Htags.
    unfold throw. cbn [unknown_of_thrown].
    rewrite (handleHelpScoutError_of_Error type_error).
    eexists. split; [reflexivity|].
    destruct type_error as [|c m]; repeat split; reflexivity.
Qed.

End RemoveTagFailures.

(** The theorem on a conversation whose [tags] is a string. *)
Lemma removeConversationTag_never_puts_after_a_failure_witness :
  let server := fun (_ : list Call) (_ : Call) =>
    Response 200 (Json (VObj [(js "id", VNum 7); (js "tags", VStr (js "vip"))])) in
  exists e,
    removeConversationTag server (js "tags.map is not a function") 7 (js "vip")
                          signed_in
    = (Exit e,
       record_call (ApiCall (js "GET") (js "/conversations/7") [] (js "t1") None)
                   signed_in) /\
    err_name e = js "unknown_error".
Proof.
  intros server.
  destruct (removeConversationTag_never_puts_after_a_failure server
              (js "tags.map is not a function") 7 (js "vip") signed_in)
    as [_ H].
  destruct (H (VObj [(js "id", VNum 7); (js "tags", VStr (js "vip"))])
              (record_call (ApiCall (js "GET") (js "/conversations/7") []
                                    (js "t1") None) signed_in)
              eq_refl eq_refl) as (e & H1 & H2 & _).
  exists e. split; [exact H1|exact H2].
Defined.
